(** * Mickey: the realtime voice pipeline

  A shallow embedding of the voice session code of the Mickey client
  ([services/geminiService.ts], class [LiveClient], and the transcript
  callback of [components/VoiceMode.tsx]) together with the properties the
  specification states about it.

  Conventions.
  - Times of the playback clock and audio samples are JavaScript numbers;
    they are idealised as rationals [Q], so rounding error of the floating
    point unit is outside the model.  The one irrational operation,
    [Math.sqrt] in the loudness meter, is taken in the reals.
  - Callbacks into the environment (observers, timers, the remote session,
    the audio graph) are recorded as a list of [Effect]s returned by each
    handler, in program order.
  - Objects of the browser audio graph live in an explicit store of nodes;
    the client refers to them by index. *)

From Stdlib Require Import String List ZArith QArith Qminmax Qround Qabs.
From Stdlib Require Import Reals Qreals Psatz Lia Bool ListSet.
From coqutil Require Import Byte Word.LittleEndianList.
From coqutil Require Map.Interface Map.Properties Map.SortedListString.
From Stdlib Require Import Sorting.Sorted Sorting.Permutation Ascii.
Import ListNotations.

Local Open Scope Q_scope.

(* ------------------------------------------------------------------ *)
(** * Audio codec utilities *)

Module AudioUtils.

(** Modelled from the spec: [services/audioUtils.ts] (createPcmBlob,
    decodeAudioData) is imported by the client but is not part of the
    sources at hand.  The definitions of this module follow section 4.1 of
    the specification word for word: samples are clamped to [-1,1], mapped
    to [round(s * 32767)], written as 16-bit little-endian PCM, and read
    back as [s / 32768]. *)

Definition clamp (s : Q) : Q := Qmax (-1) (Qmin 1 s).

(** Rounding to the nearest integer, ties towards plus infinity (the
    behaviour of [Math.round]). *)
Definition round (x : Q) : Z := Qfloor (x + (1 # 2)).

Definition to_int16 (s : Q) : Z := round (clamp s * 32767).

(** Two's complement reading of an unsigned 16-bit value. *)
Definition signed16 (u : Z) : Z := ((u + 32768) mod 65536 - 32768)%Z.

Definition int16_le (v : Z) : list byte := le_split 2 v.

Record EncodedAudioChunk : Type := mkChunk {
  data : list byte;
  mimeType : string
}.

Definition pcmMime : string := "audio/pcm;rate=16000".

(** Modelled from the spec: [encode(frame)]; the only malformed input is
    the empty frame. *)
Definition createPcmBlob (frame : list Q) : EncodedAudioChunk :=
  {| data := flat_map (fun s => int16_le (to_int16 s)) frame;
     mimeType := pcmMime |}.

Definition encode (frame : list Q) : option EncodedAudioChunk :=
  match frame with
  | [] => None
  | _ :: _ => Some (createPcmBlob frame)
  end.

Fixpoint pcm16_samples (bytes : list byte) : list Z :=
  match bytes with
  | lo :: hi :: rest => signed16 (le_combine [lo; hi]) :: pcm16_samples rest
  | _ => []
  end.

Definition from_int16 (v : Z) : Q := inject_Z v / 32768.

Inductive DecodeError : Type := BadLength (len : nat).

(** A decoded buffer: interleaved samples, rate in Hz and channel count. *)
Record AudioBuffer : Type := mkBuffer {
  samples : list Q;
  sampleRate : positive;
  numberOfChannels : nat
}.

(** Number of sample frames and duration in seconds: [length / sampleRate]. *)
Definition frames (b : AudioBuffer) : nat :=
  (length (samples b) / numberOfChannels b)%nat.

Definition duration (b : AudioBuffer) : Q :=
  Z.of_nat (frames b) # sampleRate b.

(** Modelled from the spec: [decode(bytes, ctx, sampleRate, channels)]
    fails when the byte length is not a multiple of two bytes per sample
    per channel. *)
Definition decode (bytes : list byte) (rate : positive) (channels : nat)
  : DecodeError + AudioBuffer :=
  if (length bytes mod (2 * channels) =? 0)%nat
  then inr {| samples := map from_int16 (pcm16_samples bytes);
              sampleRate := rate;
              numberOfChannels := channels |}
  else inl (BadLength (length bytes)).

Definition defaultRate : positive := 24000.
Definition defaultChannels : nat := 1.

End AudioUtils.

(* ------------------------------------------------------------------ *)
(** * The browser audio graph, as far as the client uses it *)

Module WebAudio.
Import AudioUtils.

Definition NodeId : Type := nat.

Inductive DOMException : Type :=
| InvalidStateError
| NotAllowedError
| NotFoundError.

(** [new AudioContext({ sampleRate })]; [close()] marks it closed. *)
Record AudioContext : Type := mkContext {
  ctxSampleRate : positive;
  ctxClosed : bool
}.

(** An [AudioBufferSourceNode]: its buffer, the time given to [start]
    (if it was called), whether [stop] was called, and whether an
    [onended] handler is installed. *)
Record SourceNode : Type := mkSource {
  nodeBuffer : AudioBuffer;
  startedAt : option Q;
  stopped : bool;
  hasOnEnded : bool
}.

(** The nodes created so far; a node is referred to by its index. *)
Definition Store : Type := list SourceNode.

(** [source.stop()]: an [InvalidStateError] when [start] was never called,
    otherwise the node is halted; stopping a halted node changes nothing. *)
Definition stopNode (n : SourceNode) : DOMException + SourceNode :=
  match startedAt n with
  | None => inl InvalidStateError
  | Some _ =>
      inr {| nodeBuffer := nodeBuffer n; startedAt := startedAt n;
             stopped := true; hasOnEnded := hasOnEnded n |}
  end.

Fixpoint replaceAt (i : nat) (n : SourceNode) (st : Store) : Store :=
  match st, i with
  | [], _ => []
  | _ :: rest, O => n :: rest
  | x :: rest, S j => x :: replaceAt j n rest
  end.

(** A node still to be heard: started and not halted. *)
Definition active (n : SourceNode) : bool :=
  match startedAt n with
  | Some _ => negb (stopped n)
  | None => false
  end.

End WebAudio.

(* ------------------------------------------------------------------ *)
(** * services/geminiService.ts: class LiveClient *)

Module LiveClient.
Import AudioUtils WebAudio.

(** [LiveServerMessage], restricted to the fields the client reads. *)
Record Transcription : Type := mkTranscription { text : option string }.

Record InlineData : Type := mkInline { inlineBytes : option string }.

Record Part : Type := mkPart { inlineData : option InlineData }.

Record Content : Type := mkTurn { parts : option (list Part) }.

Record ServerContent : Type := mkContent {
  outputTranscription : option Transcription;
  inputTranscription : option Transcription;
  modelTurn : option Content
}.

Record LiveServerMessage : Type := mkMessage {
  serverContent : option ServerContent
}.

(** The three observers handed to the constructor. *)
Inductive Callback : Type :=
| OnTranscript (txt : option string) (isUser isFinal : bool)
| OnAudioActivity (isActive : bool)
| OnVolumeUpdate (volume : R).

Inductive SessionCall : Type :=
| SendRealtimeInput (media : EncodedAudioChunk)
| SessionClose.

(** What a handler asks of its environment, in program order. *)
Inductive Effect : Type :=
| Call (cb : Callback)
| SetTimeout (cb : Callback) (delayMs : Q)
| SessionThen (call : SessionCall)
| GetUserMedia
| LiveConnect (voiceName systemInstruction : string)
| DecodeAudio (base64 : string)
| SourceStart (id : NodeId) (when : Q)
| SourceStop (id : NodeId)
| ContextClose (ctx : AudioContext).

(** The promise returned by [ai.live.connect]; the client never awaits it. *)
Inductive SessionPromise : Type := LiveSession.

Record LiveClient : Type := mkClient {
  session : option SessionPromise;
  inputAudioContext : option AudioContext;
  outputAudioContext : option AudioContext;
  nextStartTime : Q;
  sources : list NodeId;
  isMuted : bool
}.

(** Field initialisers of the class. *)
Definition new : LiveClient :=
  {| session := None;
     inputAudioContext := None;
     outputAudioContext := None;
     nextStartTime := 0;
     sources := [];
     isMuted := false |}.

(** The client together with the audio nodes it has created. *)
Record Machine : Type := mkMachine {
  client : LiveClient;
  store : Store
}.

Definition boot : Machine := {| client := new; store := [] |}.

(** ** setMute *)

Definition setMute (muted : bool) (c : LiveClient) : LiveClient :=
  {| session := session c;
     inputAudioContext := inputAudioContext c;
     outputAudioContext := outputAudioContext c;
     nextStartTime := nextStartTime c;
     sources := sources c;
     isMuted := muted |}.

(** ** processor.onaudioprocess *)

Definition sumSquares (inputData : list Q) : Q :=
  fold_left (fun sum x => sum + x * x) inputData 0.

(** [sum / inputData.length]; a ScriptProcessor buffer holds 4096 samples,
    so the length is never zero (on an empty array JavaScript would yield
    NaN, which this quotient does not represent). *)
Definition meanSquare (inputData : list Q) : Q :=
  sumSquares inputData / inject_Z (Z.of_nat (length inputData)).

Definition rms (inputData : list Q) : R := sqrt (Q2R (meanSquare inputData)).

Definition onaudioprocess (c : LiveClient) (inputData : list Q) : list Effect :=
  if isMuted c then [Call (OnVolumeUpdate 0%R)]
  else
    Call (OnVolumeUpdate (rms inputData))
    :: match session c with
       | Some _ => [SessionThen (SendRealtimeInput (createPcmBlob inputData))]
       | None => []
       end.

(** ** The onmessage callback *)

(** [this.outputAudioContext?.currentTime || 0], where [now] is the
    reading of the output context's clock at this instant. *)
Definition clockOf (c : LiveClient) (now : Q) : Q :=
  match outputAudioContext c with
  | Some _ => now
  | None => 0
  end.

Definition playbackLatency (c : LiveClient) (now : Q) : Q :=
  Qmax 0 (nextStartTime c - clockOf c now).

Definition transcriptEffects (c : LiveClient) (now : Q)
  (msg : LiveServerMessage) : list Effect :=
  let latency := playbackLatency c now in
  match serverContent msg with
  | None => []
  | Some sc =>
      match outputTranscription sc with
      | Some t => [SetTimeout (OnTranscript (text t) false false) (latency * 1000)]
      | None =>
          match inputTranscription sc with
          | Some t => [Call (OnTranscript (text t) true false)]
          | None => []
          end
      end
  end.

(** [msg.serverContent?.modelTurn?.parts?.[0]?.inlineData?.data] *)
Definition audioDataOf (msg : LiveServerMessage) : option string :=
  match serverContent msg with
  | None => None
  | Some sc =>
      match modelTurn sc with
      | None => None
      | Some turn =>
          match parts turn with
          | Some (p :: _) =>
              match inlineData p with
              | Some d => inlineBytes d
              | None => None
              end
          | _ => None
          end
      end
  end.

(** Truthiness of an optional string: absent and empty are both falsy. *)
Definition truthy (s : option string) : bool :=
  match s with
  | Some (String _ _) => true
  | _ => false
  end.

Definition audioEffects (c : LiveClient) (msg : LiveServerMessage)
  : list Effect :=
  match audioDataOf msg, outputAudioContext c with
  | Some d, Some _ => if truthy (Some d) then [DecodeAudio d] else []
  | _, _ => []
  end.

(** The part of the handler that runs before it suspends on the decoder. *)
Definition onmessage (c : LiveClient) (now : Q) (msg : LiveServerMessage)
  : list Effect :=
  transcriptEffects c now msg ++ audioEffects c msg.

(** ** playAudio *)

Definition withSchedule (c : LiveClient) (next : Q) (srcs : list NodeId)
  : LiveClient :=
  {| session := session c;
     inputAudioContext := inputAudioContext c;
     outputAudioContext := outputAudioContext c;
     nextStartTime := next;
     sources := srcs;
     isMuted := isMuted c |}.

(** [this.sources.add(x)] and [this.sources.delete(x)] on an
    insertion-ordered set. *)
Definition setAdd (x : NodeId) (s : list NodeId) : list NodeId :=
  set_add Nat.eq_dec x s.

Definition setDelete (x : NodeId) (s : list NodeId) : list NodeId :=
  set_remove Nat.eq_dec x s.

Definition playAudio (m : Machine) (now : Q) (buffer : AudioBuffer)
  : Machine * list Effect :=
  let c := client m in
  match outputAudioContext c with
  | None => (m, [])
  | Some _ =>
      let startAt := Qmax now (nextStartTime c) in
      let id := length (store m) in
      let source :=
        {| nodeBuffer := buffer; startedAt := Some startAt;
           stopped := false; hasOnEnded := true |} in
      ({| client := withSchedule c (startAt + duration buffer)
                      (setAdd id (sources c));
          store := store m ++ [source] |},
       [SourceStart id startAt])
  end.

(** [source.onended]: the node leaves the set. *)
Definition onended (m : Machine) (id : NodeId) : Machine :=
  let c := client m in
  {| client := withSchedule c (nextStartTime c) (setDelete id (sources c));
     store := store m |}.

(** ** disconnect *)

(** [this.sources.forEach(s => s.stop())]: nodes are halted in insertion
    order; an exception leaves the remaining nodes untouched. *)
Fixpoint stopAll (ids : list NodeId) (st : Store)
  : Store * list Effect * option DOMException :=
  match ids with
  | [] => (st, [], None)
  | id :: rest =>
      match nth_error st id with
      | None =>
          (* a reference to a node that was never created: counted as a
             failure, so that its absence has to be proved *)
          (st, [], Some InvalidStateError)
      | Some n =>
          match stopNode n with
          | inl e => (st, [], Some e)
          | inr n' =>
              let '(st', effs, ex) := stopAll rest (replaceAt id n' st) in
              (st', SourceStop id :: effs, ex)
          end
      end
  end.

(** [ctx?.close()]: the promise it returns is dropped. *)
Definition closeContext (ctx : option AudioContext)
  : option AudioContext * list Effect :=
  match ctx with
  | None => (None, [])
  | Some a =>
      (Some {| ctxSampleRate := ctxSampleRate a; ctxClosed := true |},
       [ContextClose a])
  end.

Definition disconnect (m : Machine)
  : Machine * list Effect * option DOMException :=
  let c := client m in
  let '(st, stops, ex) := stopAll (sources c) (store m) in
  match ex with
  | Some e => ({| client := c; store := st |}, stops, Some e)
  | None =>
      let (ictx, e1) := closeContext (inputAudioContext c) in
      let (octx, e2) := closeContext (outputAudioContext c) in
      let e3 := match session c with
                | Some _ => [SessionThen SessionClose]
                | None => []
                end in
      ({| client := {| session := session c;
                       inputAudioContext := ictx;
                       outputAudioContext := octx;
                       nextStartTime := nextStartTime c;
                       sources := sources c;
                       isMuted := isMuted c |};
          store := st |},
       stops ++ e1 ++ e2 ++ e3, None)
  end.

(** ** connect *)

(** Outcome of [navigator.mediaDevices.getUserMedia]. *)
Inductive MediaResult : Type :=
| StreamGranted
| StreamRefused (err : DOMException).

(** Outcome of the promise an [async] method returns. *)
Inductive Completion : Type :=
| Resolved
| Rejected (err : DOMException).

Definition systemInstruction (language : string) : string :=
  ("You are Mike, a friendly, helpful, and intelligent AI assistant. "
   ++ "You always refer to yourself as Mike. "
   ++ "Keep responses concise and conversational. Please speak in "
   ++ language ++ ".")%string.

Definition withGraph (c : LiveClient) (s : option SessionPromise)
  (ictx octx : option AudioContext) : LiveClient :=
  {| session := s;
     inputAudioContext := ictx;
     outputAudioContext := octx;
     nextStartTime := nextStartTime c;
     sources := sources c;
     isMuted := isMuted c |}.

Definition connect (c : LiveClient) (language voiceName : string)
  (mic : MediaResult) : LiveClient * list Effect * Completion :=
  let ictx := Some {| ctxSampleRate := 16000; ctxClosed := false |} in
  let octx := Some {| ctxSampleRate := 24000; ctxClosed := false |} in
  match mic with
  | StreamRefused e =>
      (withGraph c (session c) ictx octx, [GetUserMedia], Rejected e)
  | StreamGranted =>
      (withGraph c (Some LiveSession) ictx octx,
       [GetUserMedia; LiveConnect voiceName (systemInstruction language)],
       Resolved)
  end.

(** The lifecycle callbacks registered with [ai.live.connect]. *)
Definition onopen : list Effect := [Call (OnAudioActivity true)].
Definition onclose : list Effect := [Call (OnAudioActivity false)].
Definition onerror : list Effect := [Call (OnAudioActivity false)].

(** ** The event loop *)

(** Everything that can happen to a client: calls of its public methods
    and callbacks fired by the browser or the remote session.  Handlers
    run to completion, one at a time. *)
Inductive Event : Type :=
| Connect (language voiceName : string) (mic : MediaResult)
| AudioProcess (inputData : list Q)
| Open
| Close
| Error
| Message (now : Q) (msg : LiveServerMessage)
| Decoded (now : Q) (buffer : AudioBuffer)
| Ended (id : NodeId)
| SetMute (muted : bool)
| Disconnect.

Definition step (m : Machine) (e : Event) : Machine * list Effect :=
  match e with
  | Connect language voiceName mic =>
      let '(c, effs, _) := connect (client m) language voiceName mic in
      ({| client := c; store := store m |}, effs)
  | AudioProcess inputData => (m, onaudioprocess (client m) inputData)
  | Open => (m, onopen)
  | Close => (m, onclose)
  | Error => (m, onerror)
  | Message now msg => (m, onmessage (client m) now msg)
  | Decoded now buffer => playAudio m now buffer
  | Ended id => (onended m id, [])
  | SetMute muted =>
      ({| client := setMute muted (client m); store := store m |}, [])
  | Disconnect => let '(m', effs, _) := disconnect m in (m', effs)
  end.

Fixpoint run (m : Machine) (events : list Event) : Machine * list Effect :=
  match events with
  | [] => (m, [])
  | e :: rest =>
      let (m1, effs1) := step m e in
      let (m2, effs2) := run m1 rest in
      (m2, effs1 ++ effs2)
  end.

End LiveClient.

(* ------------------------------------------------------------------ *)
(** * components/VoiceMode.tsx: the transcript callback *)

Module VoiceMode.

Inductive MessageRole : Type := USER | MODEL.

Definition role_eqb (a b : MessageRole) : bool :=
  match a, b with
  | USER, USER | MODEL, MODEL => true
  | _, _ => false
  end.

Record Message : Type := mkMsg {
  id : string;
  role : MessageRole;
  text : string;
  timestamp : Z
}.

(** [arr[i] = x] for an index inside the array. *)
Fixpoint assign (i : nat) (x : Message) (arr : list Message) : list Message :=
  match arr, i with
  | [], _ => []
  | _ :: rest, O => x :: rest
  | y :: rest, S j => y :: assign j x rest
  end.

(** The updater given to [setMessages] by the transcript observer;
    [uuid] and [now] are the values of [crypto.randomUUID()] and
    [Date.now()] at the call. *)
Definition onTranscript (prev : list Message) (txt : string) (isUser : bool)
  (uuid : string) (now : Z) : list Message :=
  let r := if isUser then USER else MODEL in
  let fresh := {| id := uuid; role := r; text := txt; timestamp := now |} in
  match prev with
  | [] => [fresh]
  | _ :: _ =>
      match nth_error prev (length prev - 1) with
      | Some lastMsg =>
          if role_eqb (role lastMsg) r
          then assign (length prev - 1)
                 {| id := id lastMsg; role := role lastMsg;
                    text := (text lastMsg ++ txt)%string;
                    timestamp := now |}
                 prev
          else prev ++ [fresh]
      | None => prev ++ [fresh]
      end
  end.

(** One delivery: speaker, text and the two environment readings. *)
Record Delivery : Type := mkDelivery {
  dUser : bool;
  dText : string;
  dUuid : string;
  dNow : Z
}.

Definition deliver (prev : list Message) (d : Delivery) : list Message :=
  onTranscript prev (dText d) (dUser d) (dUuid d) (dNow d).

Definition deliverAll (prev : list Message) (ds : list Delivery)
  : list Message :=
  fold_left deliver ds prev.

End VoiceMode.

(* ------------------------------------------------------------------ *)
(** * Observations on effect traces *)

Module Trace.
Import AudioUtils WebAudio LiveClient.

(** Levels handed to the volume observer. *)
Definition volumes (effs : list Effect) : list R :=
  flat_map (fun e => match e with
                     | Call (OnVolumeUpdate v) => [v]
                     | _ => []
                     end) effs.

(** Chunks handed to the session's outbound path. *)
Definition sent (effs : list Effect) : list EncodedAudioChunk :=
  flat_map (fun e => match e with
                     | SessionThen (SendRealtimeInput blob) => [blob]
                     | _ => []
                     end) effs.

(** Transcript deliveries, immediate ([None]) or through a timer
    ([Some delayMs]). *)
Definition transcripts (effs : list Effect)
  : list (option Q * option string * bool) :=
  flat_map (fun e => match e with
                     | Call (OnTranscript t u _) => [(None, t, u)]
                     | SetTimeout (OnTranscript t u _) d => [(Some d, t, u)]
                     | _ => []
                     end) effs.

(** Values given to the activity observer. *)
Definition activity (effs : list Effect) : list bool :=
  flat_map (fun e => match e with
                     | Call (OnAudioActivity a) => [a]
                     | _ => []
                     end) effs.

(** Attempts to acquire the microphone or to open the remote session. *)
Definition attempts (effs : list Effect) : nat :=
  length (filter (fun e => match e with
                           | GetUserMedia | LiveConnect _ _ => true
                           | _ => false
                           end) effs).

End Trace.

(* ------------------------------------------------------------------ *)
(** * Playback scheduling *)

Module Schedule.
Import AudioUtils WebAudio LiveClient.

(** One scheduled buffer: the clock reading when it was handed to
    [playAudio], the time given to [source.start] and its duration. *)
Record Slot : Type := mkSlot {
  arrivedAt : Q;
  startAt : Q;
  span : Q
}.

Definition slotsOf (now : Q) (buffer : AudioBuffer) (effs : list Effect)
  : list Slot :=
  flat_map (fun e => match e with
                     | SourceStart _ when =>
                         [{| arrivedAt := now; startAt := when;
                             span := duration buffer |}]
                     | _ => []
                     end) effs.

(** Buffers handed to [playAudio] one after the other, each with the
    clock reading of its arrival. *)
Fixpoint enqueueAll (m : Machine) (arrivals : list (Q * AudioBuffer))
  : Machine * list Slot :=
  match arrivals with
  | [] => (m, [])
  | (now, buffer) :: rest =>
      let (m1, effs) := playAudio m now buffer in
      let (m2, slots) := enqueueAll m1 rest in
      (m2, slotsOf now buffer effs ++ slots)
  end.

(** A relation that holds between every element and its successor. *)
Fixpoint consecutive {A : Type} (R : A -> A -> Prop) (l : list A) : Prop :=
  match l with
  | a :: (b :: _) as rest => R a b /\ consecutive R rest
  | _ => True
  end.

(** What the specification asks of two slots in a row. *)
Definition follows (a b : Slot) : Prop :=
  startAt a <= startAt b
  /\ startAt a + span a <= startAt b
  /\ (arrivedAt b <= startAt a + span a -> startAt b == startAt a + span a).

End Schedule.

(* ------------------------------------------------------------------ *)
(** * Notions used to state the properties *)

Module Notions.
Import AudioUtils WebAudio LiveClient.

(** The specification's loudness: square root of the mean of the squared
    samples of a frame. *)
Definition mean (l : list Q) : Q :=
  fold_right Qplus 0 l / inject_Z (Z.of_nat (length l)).

Definition rootMeanSquare (frame : list Q) : R :=
  sqrt (Q2R (mean (map (fun s => s * s) frame))).

(** A message that carries a model transcript and a user transcript. *)
Definition mixedMessage : LiveServerMessage :=
  {| serverContent :=
       Some {| outputTranscription := Some {| text := Some "Hello"%string |};
               inputTranscription := Some {| text := Some "Hi"%string |};
               modelTurn := None |} |}.

(** A reference to a node on which [start] has been called. *)
Definition started (st : Store) (id : NodeId) : Prop :=
  exists n, nth_error st id = Some n /\ startedAt n <> None.

(** A reference to a started node on which [stop] has been called. *)
Definition halted (st : Store) (id : NodeId) : Prop :=
  exists n, nth_error st id = Some n
            /\ startedAt n <> None /\ stopped n = true.

(** Every member of the source set has been started. *)
Definition wellFormed (m : Machine) : Prop :=
  Forall (started (store m)) (sources (client m)).

(** [st'] has every node of [st], as started and as halted as it was. *)
Definition keeps (st st' : Store) : Prop :=
  forall i n, nth_error st i = Some n ->
    exists n', nth_error st' i = Some n'
               /\ startedAt n' = startedAt n
               /\ (stopped n = true -> stopped n' = true).

(** Every node created so far is in the source set, unless its
    end-of-playback callback is among the events [past]. *)
Definition tracked (past : list Event) (m : Machine) : Prop :=
  forall id, (id < length (store m))%nat ->
    In id (sources (client m)) \/ In (Ended id) past.

(** The client as [disconnect] leaves it: both contexts closed. *)
Definition closed (c : LiveClient) : LiveClient :=
  {| session := session c;
     inputAudioContext := fst (closeContext (inputAudioContext c));
     outputAudioContext := fst (closeContext (outputAudioContext c));
     nextStartTime := nextStartTime c;
     sources := sources c;
     isMuted := isMuted c |}.

(** A buffer of one frame of silence. *)
Definition oneFrame : AudioBuffer :=
  {| samples := [0]; sampleRate := 24000; numberOfChannels := 1 |}.

(** Encoding followed by decoding at the default rate and channel count. *)
Definition roundTrip (a : list Q) : option (list Q) :=
  match encode a with
  | None => None
  | Some chunk =>
      match decode (data chunk) defaultRate defaultChannels with
      | inl _ => None
      | inr buf => Some (samples buf)
      end
  end.

(** A sample just below full scale, exactly representable in binary. *)
Definition edgeSample : Q := 131069 # 131072.

End Notions.

(* ------------------------------------------------------------------ *)
(** * types.ts: messages and chat sessions *)

Module Types.

(** JavaScript strings are sequences of UTF-16 code units; they are
    modelled by [string], a character standing for a code unit below 256. *)

Inductive ChatMode : Type := DEFAULT | IMAGE_GEN | VIDEO_GEN.

(** ['image' | 'video'] *)
Inductive MediaType : Type := image_type | video_type.

Record Attachment : Type := mkAttachment {
  type : MediaType;
  url : option string;
  data : option string;
  mimeType : string
}.

Record Message : Type := mkMessage {
  id : string;
  role : VoiceMode.MessageRole;
  text : string;
  image : option string;
  video : option string;
  attachment : option Attachment;
  timestamp : Z;
  isThinking : option bool
}.

(** [interface ChatSession { id; title; timestamp; mode }] *)
Record ChatSession : Type := mkSession {
  session_id : string;
  title : string;
  session_timestamp : Z;
  mode : ChatMode
}.

(** Truthiness of an optional string field. *)
Definition present (s : option string) : bool :=
  match s with
  | Some (String _ _) => true
  | _ => false
  end.

Definition isUser (m : Message) : bool :=
  VoiceMode.role_eqb (role m) VoiceMode.USER.

End Types.

(* ------------------------------------------------------------------ *)
(** * window.localStorage *)

Module LocalStorage.
Import Types.
Import coqutil.Map.Interface.

(** The text stored under a key: the array of sessions or of messages that
    [JSON.stringify] wrote; a text, not empty, that [JSON.parse] rejects
    with a [SyntaxError]; or any other text, kept as it is (the onboarding
    flag, for instance).  Of the last kind only the empty text is
    interpreted: it is the one falsy value.  Whether [JSON.parse] accepts
    another one, and what it makes of it, is left open. *)
Inductive Item : Type :=
| SessionsJson (sessions : list ChatSession)
| MessagesJson (messages : list Message)
| Text (raw : string)
| Invalid.

(** What [JSON.parse(raw)] gives where the code reads it as an array of
    [A]: the array, when the text is one of records of [A] (the text of an
    empty array is the same for every [A]); a [SyntaxError]; or a value the
    records of [A] cannot hold.  [as ChatSession[]] checks nothing, so in the
    last case the code goes on with foreign objects: an array of messages
    under the index key is sorted, searched and written back as if it were
    one of sessions.  [OffType] marks the texts for which this may happen. *)
Inductive Parsed (A : Type) : Type :=
| Elements (l : list A)
| SyntaxError
| OffType.

Arguments Elements {A} l.
Arguments SyntaxError {A}.
Arguments OffType {A}.

Definition Storage : Type := SortedListString.map Item.

(** Whether the browser accepts a write; a refused [setItem] throws
    [QuotaExceededError]. *)
Definition Quota : Type := Storage -> string -> Item -> bool.

Definition getItem (ls : Storage) (key : string) : option Item :=
  map.get ls key.

Definition setItem (quota : Quota) (ls : Storage) (key : string) (value : Item)
  : option Storage :=
  if quota ls key value then Some (map.put ls key value) else None.

Definition removeItem (ls : Storage) (key : string) : Storage :=
  map.remove ls key.

(** The keys [localStorage.key(0)], ..., [localStorage.key(length - 1)]. *)
Definition keys (ls : Storage) : list string := map.keys ls.

(** [!raw] is false: the key exists and its text is not empty. *)
Definition nonEmpty (raw : option Item) : bool :=
  match raw with
  | None => false
  | Some (Text EmptyString) => false
  | Some _ => true
  end.

(** [JSON.parse(raw) as ChatSession[]] *)
Definition parseSessions (raw : Item) : Parsed ChatSession :=
  match raw with
  | SessionsJson l => Elements l
  | MessagesJson [] => Elements []
  | MessagesJson (_ :: _) => OffType
  | Text EmptyString => SyntaxError
  | Text (String _ _) => OffType
  | Invalid => SyntaxError
  end.

(** [JSON.parse(raw)] read as [Message[]] *)
Definition parseMessages (raw : Item) : Parsed Message :=
  match raw with
  | MessagesJson l => Elements l
  | SessionsJson [] => Elements []
  | SessionsJson (_ :: _) => OffType
  | Text EmptyString => SyntaxError
  | Text (String _ _) => OffType
  | Invalid => SyntaxError
  end.

End LocalStorage.

(* ------------------------------------------------------------------ *)
(** * services/storageService.ts *)

Module StorageService.
Import Types LocalStorage.
Import coqutil.Map.Interface.

Definition SESSIONS : string := "mikey_sessions".
Definition MESSAGES_PREFIX : string := "mikey_messages_".

Definition messagesKey (sessionId : string) : string :=
  (MESSAGES_PREFIX ++ sessionId)%string.

(** ** getChatSessions *)

(** [sessions.sort((a, b) => b.timestamp - a.timestamp)]: the sort is
    stable, so its result is the one of any stable sort; insertion sort is
    taken here.  [a] goes before [b] when its timestamp is larger, and
    before a [b] of equal timestamp when it came first. *)
Fixpoint insertSession (a : ChatSession) (sorted : list ChatSession)
  : list ChatSession :=
  match sorted with
  | [] => [a]
  | b :: rest =>
      if (session_timestamp b <=? session_timestamp a)%Z
      then a :: b :: rest
      else b :: insertSession a rest
  end.

Definition sortSessions (l : list ChatSession) : list ChatSession :=
  fold_right insertSession [] l.

(** The [catch] branch returns the empty list.  Where the text is
    [OffType] the listing of the code may be made of foreign objects, which
    no list of sessions renders: the empty list stands in for it, and the
    properties that depend on what the index holds are stated for the
    other texts. *)
Definition getChatSessions (ls : Storage) : list ChatSession :=
  let raw := getItem ls SESSIONS in
  if nonEmpty raw then
    match raw with
    | Some r =>
        match parseSessions r with
        | Elements sessions => sortSessions sessions
        | SyntaxError => []
        | OffType => []
        end
    | None => []
    end
  else [].

(** ** loadChatMessages *)

(** As for the listing, the empty list stands in for a foreign value. *)
Definition loadChatMessages (ls : Storage) (sessionId : string)
  : list Message :=
  let raw := getItem ls (messagesKey sessionId) in
  if nonEmpty raw then
    match raw with
    | Some r =>
        match parseMessages r with
        | Elements messages => messages
        | SyntaxError => []
        | OffType => []
        end
    | None => []
    end
  else [].

(** ** deleteChat *)


(** ** clearAllData *)

Definition clearAllData (ls : Storage) : Storage :=
  let ls1 := removeItem ls SESSIONS in
  let keysToRemove := filter (prefix MESSAGES_PREFIX) (keys ls1) in
  fold_left removeItem keysToRemove ls1.

(** ** performSave *)

(** Code units that [String.prototype.trim] removes, below 256: TAB, LF,
    VT, FF, CR, SPACE and NO-BREAK SPACE. *)
Definition isSpace (c : ascii) : bool :=
  let n := nat_of_ascii c in
  ((9 <=? n) && (n <=? 13) || (n =? 32) || (n =? 160))%nat.

Fixpoint trimStart (s : string) : string :=
  match s with
  | EmptyString => EmptyString
  | String c rest => if isSpace c then trimStart rest else s
  end.

Fixpoint trimEnd (s : string) : string :=
  match s with
  | EmptyString => EmptyString
  | String c rest =>
      match trimEnd rest with
      | EmptyString => if isSpace c then EmptyString else String c EmptyString
      | kept => String c kept
      end
  end.

Definition trim (s : string) : string := trimEnd (trimStart s).

(** The class [[#*`_~]] of the title's regular expression. *)
Definition isMarkup (c : ascii) : bool :=
  let n := nat_of_ascii c in
  ((n =? 35) || (n =? 42) || (n =? 96) || (n =? 95) || (n =? 126))%nat.

(** [s.replace(/[#*`_~]/g, '')] *)
Fixpoint stripMarkup (s : string) : string :=
  match s with
  | EmptyString => EmptyString
  | String c rest =>
      if isMarkup c then stripMarkup rest else String c (stripMarkup rest)
  end.

(** Step 2 of [performSave]: the title of a conversation. *)
Definition computeTitle (messages : list Message) : string :=
  match find isUser messages with
  | Some firstUserMsg =>
      let txt := stripMarkup (trim (text firstUserMsg)) in
      if (0 <? String.length txt)%nat
      then (substring 0 50 txt
            ++ (if (50 <? String.length txt)%nat then "..." else ""))%string
      else
        match attachment firstUserMsg with
        | Some a =>
            match type a with
            | image_type => "Image Analysis"
            | video_type => "Video Analysis"
            end
        | None => "New Chat"
        end
  | None =>
      match nth_error messages (length messages - 1) with
      | Some lastMsg =>
          if present (image lastMsg) then "Generated Image"
          else if present (video lastMsg) then "Generated Video"
          else "New Chat"
      | None => "New Chat"
      end
  end.

(** [sessions.findIndex(s => s.id === sessionId)] *)
Fixpoint findIndex (sessionId : string) (sessions : list ChatSession)
  : option nat :=
  match sessions with
  | [] => None
  | s :: rest =>
      if (session_id s =? sessionId)%string then Some O
      else option_map S (findIndex sessionId rest)
  end.

(** [sessions[i] = x] for an index inside the array. *)
Fixpoint assignAt (i : nat) (x : ChatSession) (sessions : list ChatSession)
  : list ChatSession :=
  match sessions, i with
  | [], _ => []
  | _ :: rest, O => x :: rest
  | y :: rest, S j => y :: assignAt j x rest
  end.

(** Step 3: the session's entry is replaced where it stands, or pushed. *)
Definition upsert (sessionData : ChatSession) (sessions : list ChatSession)
  : list ChatSession :=
  match findIndex (session_id sessionData) sessions with
  | Some existingIndex => assignAt existingIndex sessionData sessions
  | None => sessions ++ [sessionData]
  end.

(** [now] is the value of [Date.now()]; every exception is caught and
    leaves what was written before it.  Over an index whose text is
    [OffType] the code may go on and write foreign objects back, which the
    store of this development cannot hold: the store is left as it is
    here, and the properties of saving are stated for the other texts. *)
Definition performSave (quota : Quota) (now : Z) (ls : Storage)
  (sessionId : string) (messages : list Message) (mode : ChatMode)
  : Storage :=
  match sessionId with
  | EmptyString => ls
  | String _ _ =>
      let rawSessions := getItem ls SESSIONS in
      let parsed :=
        if nonEmpty rawSessions then
          match rawSessions with
          | Some r => parseSessions r
          | None => Elements []
          end
        else Elements [] in
      match parsed with
      | SyntaxError => ls
      | OffType => ls
      | Elements sessions =>
          let sessionData :=
            {| session_id := sessionId; title := computeTitle messages;
               session_timestamp := now; mode := mode |} in
          match setItem quota ls SESSIONS
                  (SessionsJson (upsert sessionData sessions)) with
          | None => ls
          | Some ls1 =>
              match setItem quota ls1 (messagesKey sessionId)
                      (MessagesJson messages) with
              | None => ls1
              | Some ls2 => ls2
              end
          end
      end
  end.

(** ** saveChat and saveChatImmediately *)

(** What a pending timer will save. *)
Record Job : Type := mkJob {
  jobSession : string;
  jobMessages : list Message;
  jobMode : ChatMode
}.

(** The module's state and the part of the browser it drives: the storage,
    the own entries of the object [saveTimers], from session ids to timer
    handles, the timers that are pending, and the next handle [setTimeout]
    will return.  Handles are integers above zero, hence truthy. *)
Record Saver : Type := mkSaver {
  localStorage : Storage;
  saveTimers : SortedListString.map positive;
  pending : list (positive * Job);
  nextHandle : positive
}.

Definition clearTimeout (h : positive) (timers : list (positive * Job))
  : list (positive * Job) :=
  filter (fun t => negb (fst t =? h)%positive) timers.

(** [saveTimers] is a plain object, so a lookup also sees what the object
    inherits from [Object.prototype].  Under the id [__proto__] it finds the
    prototype itself, which is truthy and no handle: [clearTimeout] of it
    cancels nothing, an assignment of a handle to that property is ignored,
    and [delete] leaves it.  The other inherited members are functions:
    found under an id that has no entry of its own they are truthy as well,
    and [clearTimeout] of them cancels nothing either, which is what an id
    without entry gets here; an assignment then creates the id's own entry
    and [delete] removes it, as for every other id. *)
Definition PROTO : string := "__proto__".

(** [saveTimers[sessionId]], when it is a timer handle. *)
Definition timerOf (table : SortedListString.map positive) (sessionId : string)
  : option positive :=
  if (sessionId =? PROTO)%string then None else map.get table sessionId.

(** [saveTimers[sessionId] = h] *)
Definition setTimer (table : SortedListString.map positive)
  (sessionId : string) (h : positive) : SortedListString.map positive :=
  if (sessionId =? PROTO)%string then table else map.put table sessionId h.

(** [delete saveTimers[sessionId]] *)
Definition deleteTimer (table : SortedListString.map positive)
  (sessionId : string) : SortedListString.map positive :=
  if (sessionId =? PROTO)%string then table else map.remove table sessionId.

Definition saveChat (sv : Saver) (sessionId : string)
  (messages : list Message) (mode : ChatMode) : Saver :=
  match messages with
  | [] => sv
  | _ :: _ =>
      let timers :=
        match timerOf (saveTimers sv) sessionId with
        | Some h => clearTimeout h (pending sv)
        | None => pending sv
        end in
      let h := nextHandle sv in
      {| localStorage := localStorage sv;
         saveTimers := setTimer (saveTimers sv) sessionId h;
         pending := timers ++ [(h, {| jobSession := sessionId;
                                      jobMessages := messages;
                                      jobMode := mode |})];
         nextHandle := Pos.succ h |}
  end.

Definition saveChatImmediately (quota : Quota) (now : Z) (sv : Saver)
  (sessionId : string) (messages : list Message) (mode : ChatMode) : Saver :=
  match messages with
  | [] => sv
  | _ :: _ =>
      let cleared :=
        match timerOf (saveTimers sv) sessionId with
        | Some h => (clearTimeout h (pending sv),
                     deleteTimer (saveTimers sv) sessionId)
        | None => (pending sv, saveTimers sv)
        end in
      {| localStorage :=
           performSave quota now (localStorage sv) sessionId messages mode;
         saveTimers := snd cleared;
         pending := fst cleared;
         nextHandle := nextHandle sv |}
  end.

(** A pending timer expires: its callback saves and deletes the session's
    entry.  Nothing happens for a handle that is not pending. *)
Definition fire (quota : Quota) (now : Z) (sv : Saver) (h : positive) : Saver :=
  match find (fun t => (fst t =? h)%positive) (pending sv) with
  | None => sv
  | Some (_, job) =>
      {| localStorage :=
           performSave quota now (localStorage sv) (jobSession job)
             (jobMessages job) (jobMode job);
         saveTimers := deleteTimer (saveTimers sv) (jobSession job);
         pending := clearTimeout h (pending sv);
         nextHandle := nextHandle sv |}
  end.

(** The module as loaded: no timer yet, over whatever the storage holds. *)
Definition loaded (ls : Storage) : Saver :=
  {| localStorage := ls;
     saveTimers := map.empty;
     pending := [];
     nextHandle := 1%positive |}.

(** What can happen to the module: calls of its two save functions and the
    expiry of a timer, each with the readings of its environment. *)
Inductive Call : Type :=
| Save (sessionId : string) (messages : list Message) (mode : ChatMode)
| SaveNow (quota : Quota) (now : Z) (sessionId : string)
    (messages : list Message) (mode : ChatMode)
| Expire (quota : Quota) (now : Z) (h : positive).

Definition call (sv : Saver) (c : Call) : Saver :=
  match c with
  | Save sessionId messages mode => saveChat sv sessionId messages mode
  | SaveNow quota now sessionId messages mode =>
      saveChatImmediately quota now sv sessionId messages mode
  | Expire quota now h => fire quota now sv h
  end.

Definition calls (sv : Saver) (cs : list Call) : Saver := fold_left call cs sv.

End StorageService.

(* ------------------------------------------------------------------ *)
(** * Notions used to state the properties of the store *)

Module StoreNotions.
Import Types LocalStorage StorageService.

(** The array [performSave] starts from: empty when the index is absent or
    the empty text, the stored array when there is one, and nothing for any
    other text. *)
Definition storedIndex (ls : Storage) : option (list ChatSession) :=
  match getItem ls SESSIONS with
  | None => Some []
  | Some (Text EmptyString) => Some []
  | Some r =>
      match parseSessions r with
      | Elements l => Some l
      | SyntaxError => None
      | OffType => None
      end
  end.

Definition hasId (sessionId : string) (s : ChatSession) : bool :=
  (session_id s =? sessionId)%string.

(** No character of the title's markup class occurs in [s]. *)
Definition plain (s : string) : bool :=
  forallb (fun c => negb (isMarkup c)) (list_ascii_of_string s).

(** The pending saves of one session. *)
Definition pendingFor (sessionId : string) (sv : Saver)
  : list (positive * Job) :=
  filter (fun t => (jobSession (snd t) =? sessionId)%string) (pending sv).

(** What holds of the timers whatever was called: a pending timer of a
    session other than [__proto__] is the one the table records for it; the
    handles of the table and of the pending timers are older than the next
    one to be handed out; no two pending timers share a handle; and a
    pending timer whose handle the table records under a session belongs to
    that session. *)
Definition tidy (sv : Saver) : Prop :=
  (forall h job, In (h, job) (pending sv) -> jobSession job <> PROTO ->
     coqutil.Map.Interface.map.get (saveTimers sv) (jobSession job) = Some h)
  /\ (forall s h, coqutil.Map.Interface.map.get (saveTimers sv) s = Some h ->
        (h < nextHandle sv)%positive)
  /\ (forall h job, In (h, job) (pending sv) -> (h < nextHandle sv)%positive)
  /\ NoDup (List.map fst (pending sv))
  /\ (forall s h job,
        coqutil.Map.Interface.map.get (saveTimers sv) s = Some h ->
        In (h, job) (pending sv) -> jobSession job = s).

(** A call that leaves the save of [sessionId] waiting under the handle
    [h]: it is no save of that session, and not the expiry of [h]. *)
Definition apart (sessionId : string) (h : positive) (c : Call) : Prop :=
  match c with
  | Save s _ _ => s <> sessionId
  | SaveNow _ _ s _ _ => s <> sessionId
  | Expire _ _ h' => h' <> h
  end.

(** A handle that was handed out and is not pending. *)
Definition stale (h : positive) (sv : Saver) : Prop :=
  (h < nextHandle sv)%positive /\ ~ In h (List.map fst (pending sv)).

Definition unlimited : Quota := fun _ _ _ => true.

Definition full : Quota := fun _ _ _ => false.

(** A user message and a model reply, for examples. *)
Definition question : Message :=
  {| id := "m1"; role := VoiceMode.USER; text := "# Hello *world*";
     image := None; video := None; attachment := None;
     timestamp := 10; isThinking := None |}.

Definition answer : Message :=
  {| id := "m2"; role := VoiceMode.MODEL; text := "Hi";
     image := None; video := None; attachment := None;
     timestamp := 11; isThinking := None |}.

End StoreNotions.

(* ------------------------------------------------------------------ *)
(** * components/VoiceMode.tsx: the component around the client *)

Module VoiceView.
Import LiveClient.

(** The state hooks of the component that its handlers write. *)
Record View : Type := mkView {
  messages : list VoiceMode.Message;
  isActive : bool;
  muted : bool;
  volume : R;
  selectedVoice : string;
  showVoiceMenu : bool
}.

(** [useState] initial values. *)
Definition initial : View :=
  {| messages := []; isActive := false; muted := false; volume := 0%R;
     selectedVoice := "Kore"; showVoiceMenu := false |}.

(** The volume observer: [setVolume(prev => prev * 0.8 + vol * 0.2)]. *)
Definition smooth (prev vol : R) : R := (prev * (8 / 10) + vol * (2 / 10))%R.

Definition onVolume (v : View) (vol : R) : View :=
  {| messages := messages v; isActive := isActive v; muted := muted v;
     volume := smooth (volume v) vol;
     selectedVoice := selectedVoice v; showVoiceMenu := showVoiceMenu v |}.

(** The view after the volume reports among the effects of a handler. *)
Definition meter (v : View) (effs : list Effect) : View :=
  fold_left onVolume (Trace.volumes effs) v.

(** [toggleMute]: nothing happens without a client. *)
Definition toggleMute (v : View) (clientRef : option LiveClient)
  : View * option LiveClient :=
  match clientRef with
  | None => (v, None)
  | Some c =>
      let newMuteState := negb (muted v) in
      ({| messages := messages v; isActive := isActive v;
          muted := newMuteState;
          volume := if newMuteState then 0%R else volume v;
          selectedVoice := selectedVoice v;
          showVoiceMenu := showVoiceMenu v |},
       Some (setMute newMuteState c))
  end.

(** The connect effect, run on mount and whenever [language] or
    [selectedVoice] changes: a new client is built and connected (the
    effect's cleanup has disconnected the previous one). *)
Definition connectEffect (language voiceName : string) (mic : MediaResult)
  : LiveClient :=
  fst (fst (connect new language voiceName mic)).

(** [handleVoiceChange]: the state is set; when the voice differs from the
    selected one the connect effect runs again. *)
Definition handleVoiceChange (v : View) (clientRef : option LiveClient)
  (language voiceId : string) (mic : MediaResult)
  : View * option LiveClient :=
  let v' := {| messages := messages v; isActive := isActive v;
               muted := muted v; volume := volume v;
               selectedVoice := voiceId; showVoiceMenu := false |} in
  if (voiceId =? selectedVoice v)%string then (v', clientRef)
  else (v', Some (connectEffect language voiceId mic)).

(** The view after a run of capture ticks handled by client [c]. *)
Definition capture (c : LiveClient) (v : View) (ticks : list (list Q)) : View :=
  fold_left (fun v inputData => meter v (onaudioprocess c inputData)) ticks v.

(** [messages.slice(-2)] *)
Definition displayMessages (msgs : list VoiceMode.Message)
  : list VoiceMode.Message :=
  skipn (length msgs - 2) msgs.

(** The text of all turns of one speaker, in order. *)
Definition spoken (r : VoiceMode.MessageRole) (msgs : list VoiceMode.Message)
  : string :=
  fold_right String.append EmptyString
    (List.map VoiceMode.text
       (filter (fun m => VoiceMode.role_eqb (VoiceMode.role m) r) msgs)).

(** The text delivered for one speaker, in order. *)
Definition delivered (r : VoiceMode.MessageRole) (ds : list VoiceMode.Delivery)
  : string :=
  fold_right String.append EmptyString
    (List.map VoiceMode.dText
       (filter (fun d => VoiceMode.role_eqb
                           (if VoiceMode.dUser d then VoiceMode.USER
                            else VoiceMode.MODEL) r) ds)).

(** No two turns in a row belong to the same speaker. *)
Fixpoint alternating (msgs : list VoiceMode.Message) : bool :=
  match msgs with
  | a :: (b :: _) as rest =>
      negb (VoiceMode.role_eqb (VoiceMode.role a) (VoiceMode.role b))
      && alternating rest
  | _ => true
  end.

End VoiceView.

(* ------------------------------------------------------------------ *)
(** * services/geminiService.ts: the text chat of sendMessageToGemini *)

Module GeminiService.
Import Types.

(** The [for await] loop over the chunks of the stream; [chunk.text] may be
    absent or empty.  The result lists the arguments of [onStreamUpdate] in
    order, and [fullText] at the end. *)
Fixpoint streamLoop (fullText : string) (chunks : list (option string))
  : list string * string :=
  match chunks with
  | [] => ([], fullText)
  | chunk :: rest =>
      match chunk with
      | Some (String c t) =>
          let fullText' := (fullText ++ String c t)%string in
          let (updates, final) := streamLoop fullText' rest in
          (fullText' :: updates, final)
      | _ => streamLoop fullText rest
      end
  end.

(** The message returned after the loop; [uuid] and [now] are the values of
    [crypto.randomUUID()] and [Date.now()]. *)
Definition reply (uuid : string) (now : Z) (fullText : string) : Message :=
  {| id := uuid; role := VoiceMode.MODEL; text := fullText;
     image := None; video := None; attachment := None;
     timestamp := now; isThinking := None |}.

(** The standard chat branch: the updates it reports, and the message it
    returns when the stream ends without an exception. *)
Definition streamChat (chunks : list (option string)) (completes : bool)
  (uuid : string) (now : Z) : list string * option Message :=
  let (updates, fullText) := streamLoop EmptyString chunks in
  (updates, if completes then Some (reply uuid now fullText) else None).

(** A part of an image response: [inlineData] (whose [data] may be
    missing) and [text]. *)
Record ImagePart : Type := mkImagePart {
  inlineData : option (option string);
  partText : option string
}.

(** The loop over [response.candidates?.[0]?.content?.parts || []]: an
    inline part sets the image URL, a part with text and no inline data
    extends the text.  A missing [data] prints as [undefined]. *)
Fixpoint imageLoop (imageUrl txt : string) (parts : list ImagePart)
  : string * string :=
  match parts with
  | [] => (imageUrl, txt)
  | part :: rest =>
      match inlineData part with
      | Some d =>
          imageLoop
            ("data:image/png;base64,"
             ++ match d with
                | Some b => b
                | None => "undefined"
                end)%string txt rest
      | None =>
          match partText part with
          | Some (String c t) => imageLoop imageUrl (txt ++ String c t)%string rest
          | _ => imageLoop imageUrl txt rest
          end
      end
  end.

(** The image generation branch: [response] is the list of parts of the
    answer, or nothing when [generateContent] throws; the exception is
    caught and turned into a message. *)
Definition generateImage (response : option (list ImagePart)) (uuid : string)
  (now : Z) : Message :=
  match response with
  | Some parts =>
      let (imageUrl, txt) := imageLoop EmptyString EmptyString parts in
      {| id := uuid; role := VoiceMode.MODEL;
         text := match txt with
                 | EmptyString => "Here is your generated image."
                 | String _ _ => txt
                 end;
         image := Some imageUrl; video := None; attachment := None;
         timestamp := now; isThinking := None |}
  | None =>
      {| id := uuid; role := VoiceMode.MODEL;
         text := "Sorry, I encountered an error generating the image.";
         image := None; video := None; attachment := None;
         timestamp := now; isThinking := None |}
  end.

End GeminiService.

(* ------------------------------------------------------------------ *)
(** * components/ChatScreen.tsx: handleSend *)

Module ChatScreen.
Import Types GeminiService.

(** [interface AttachmentData], without the [File] handle. *)
Record AttachmentData : Type := mkAttachmentData {
  previewUrl : string;
  base64 : string;
  attachedType : MediaType;
  attachedMime : option string
}.

Definition withText (msg : Message) (t : string) : Message :=
  {| id := id msg; role := role msg; text := t;
     image := image msg; video := video msg; attachment := attachment msg;
     timestamp := timestamp msg; isThinking := isThinking msg |}.

(** The message list and the local flag [isStreaming] of one [handleSend]. *)
Record Sending : Type := mkSending {
  shown : list Message;
  isStreaming : bool
}.

(** [prev.map(msg => msg.id === streamMsgId ? { ...msg, text } : msg)] *)
Definition retext (streamMsgId t : string) (prev : list Message)
  : list Message :=
  List.map (fun msg => if (id msg =? streamMsgId)%string then withText msg t
                       else msg) prev.

(** The callback given to [sendMessageToGemini]; [firstSeen] is the value
    of [Date.now()] when the first update arrives. *)
Definition onStreamUpdate (streamMsgId : string) (firstSeen : Z)
  (st : Sending) (streamText : string) : Sending :=
  if isStreaming st
  then {| shown := retext streamMsgId streamText (shown st);
          isStreaming := true |}
  else {| shown := shown st ++ [reply streamMsgId firstSeen streamText];
          isStreaming := true |}.

(** [(!textToSend.trim() && !attachment) && !manualText] *)
Definition nothingToSend (textToSend : string)
  (currentAttachment : option AttachmentData) (manualText : option string)
  : bool :=
  (match StorageService.trim textToSend with
   | EmptyString => true
   | String _ _ => false
   end
   && match currentAttachment with
      | Some _ => false
      | None => true
      end)
  && negb (present manualText).

(** The user's message; [userId] and [sentAt] are the values of
    [crypto.randomUUID()] and [Date.now()]. *)
Definition userMessage (userId : string) (sentAt : Z) (textToSend : string)
  (currentAttachment : option AttachmentData) : Message :=
  {| id := userId; role := VoiceMode.USER; text := textToSend;
     image := None; video := None;
     attachment :=
       match currentAttachment with
       | Some a =>
           Some {| type := attachedType a; url := Some (previewUrl a);
                   data := Some (base64 a);
                   mimeType := match attachedMime a with
                               | Some (String c t) => String c t
                               | _ => "image/jpeg"
                               end |}
       | None => None
       end;
     timestamp := sentAt; isThinking := None |}.

(** The message list at the end of [handleSend].  What
    [sendMessageToGemini] does is given by [updates], the arguments of its
    calls of the stream callback, and [finalResponse], the message it
    returns, or nothing when it throws (the exception is caught). *)
Definition handleSend (prev : list Message) (inputText : string)
  (manualText : option string) (currentAttachment : option AttachmentData)
  (userId : string) (sentAt : Z) (streamMsgId : string) (firstSeen : Z)
  (updates : list string) (finalResponse : option Message) : list Message :=
  let textToSend := match manualText with
                    | Some t => t
                    | None => inputText
                    end in
  if nothingToSend textToSend currentAttachment manualText then prev
  else
    let userMsg := userMessage userId sentAt textToSend currentAttachment in
    let st0 := {| shown := prev ++ [userMsg]; isStreaming := false |} in
    let st1 := fold_left (onStreamUpdate streamMsgId firstSeen) updates st0 in
    match finalResponse with
    | Some final =>
        if isStreaming st1 then retext streamMsgId (text final) (shown st1)
        else shown st1 ++ [final]
    | None => shown st1
    end.

(** The texts of the chunks that carry text, joined. *)
Definition joined (chunks : list (option string)) : string :=
  fold_right String.append EmptyString
    (flat_map (fun chunk => match chunk with
                            | Some t => [t]
                            | None => []
                            end) chunks).

(** Whether some chunk carries text that is not empty. *)
Definition anyText (chunks : list (option string)) : bool :=
  existsb present chunks.

End ChatScreen.

(* ------------------------------------------------------------------ *)
(** * service-worker.js *)

Module ServiceWorker.
Import coqutil.Map.Interface.

Definition CACHE_NAME : string := "mikey-cache-v1".

(** [s.includes(sub)] *)
Definition includes (sub s : string) : bool :=
  match index 0 sub s with
  | Some _ => true
  | None => false
  end.

(** The three ways the fetch handler treats a request. *)
Inductive Strategy : Type :=
| NetworkOnly
| StaleWhileRevalidate
| CacheFirst.

(** The tests on [url.hostname] and [url.pathname], in the handler's order. *)
Definition route (hostname pathname : string) : Strategy :=
  if includes "googleapis" hostname || includes "generateContent" pathname
  then NetworkOnly
  else if (hostname =? "esm.sh")%string
          || (hostname =? "fonts.googleapis.com")%string
          || (hostname =? "fonts.gstatic.com")%string
          || (hostname =? "cdn.tailwindcss.com")%string
  then StaleWhileRevalidate
  else CacheFirst.

(** [response.type] *)
Inductive ResponseType : Type := basic | cors | opaque | opaqueredirect.

Record Response : Type := mkResponse {
  status : Z;
  responseType : ResponseType;
  body : string
}.

(** The cache [CACHE_NAME], keyed by request URL; it is the only cache the
    worker writes and the only one left once [activate] has run. *)
Definition Cache : Type := SortedListString.map Response.

(** What the page gets: the browser's own fetch when the handler does not
    call [respondWith], a response, or a rejected promise. *)
Inductive Answer : Type :=
| NotIntercepted
| Respond (r : Response)
| Reject.

Definition cacheable (r : Response) : bool :=
  (status r =? 200)%Z
  && match responseType r with
     | basic => true
     | _ => false
     end.

(** [cache.put] refuses a partial response (status 206): its promise, which
    the handler drops, rejects and the cache stays as it is. *)
Definition storable (r : Response) : bool := negb (status r =? 206)%Z.

(** The fetch handler for a GET request: [network] is what
    [fetch(event.request)] resolves to, or nothing when it rejects.  The
    result is the answer, the cache once the handler's promises have settled,
    and whether [fetch] was called. *)
Definition onfetch (cache : Cache) (url hostname pathname : string)
  (network : option Response) : Answer * Cache * bool :=
  match route hostname pathname with
  | NetworkOnly => (NotIntercepted, cache, false)
  | StaleWhileRevalidate =>
      let cachedResponse := map.get cache url in
      let cache' := match network with
                    | Some networkResponse =>
                        if storable networkResponse
                        then map.put cache url networkResponse
                        else cache
                    | None => cache
                    end in
      (match cachedResponse, network with
       | Some r, _ => Respond r
       | None, Some r => Respond r
       | None, None => Reject
       end, cache', true)
  | CacheFirst =>
      match map.get cache url with
      | Some response => (Respond response, cache, false)
      | None =>
          match network with
          | None => (Reject, cache, true)
          | Some response =>
              if cacheable response
              then (Respond response, map.put cache url response, true)
              else (Respond response, cache, true)
          end
      end
  end.

End ServiceWorker.

(* ------------------------------------------------------------------ *)
(** * Properties of the codec *)

Module CodecFacts.
Import AudioUtils.

Lemma clamp_range (s : Q) : -1 <= clamp s <= 1.
Proof.
  unfold clamp. split.
  - apply Q.le_max_l.
  - apply Q.max_lub; [ discriminate | apply Q.le_min_l ].
Qed.

Lemma clamp_id (s : Q) : -1 <= s <= 1 -> clamp s == s.
Proof.
  intros [Hl Hu]. unfold clamp.
  rewrite (Q.min_r 1 s) by exact Hu.
  apply Q.max_r. exact Hl.
Qed.

Lemma round_bounds (x : Q) :
  inject_Z (round x) <= x + (1 # 2) /\ x - (1 # 2) < inject_Z (round x).
Proof.
  unfold round. split.
  - apply Qfloor_le.
  - pose proof (Qlt_floor (x + (1 # 2))) as H.
    rewrite inject_Z_plus in H. change (inject_Z 1) with 1 in H. lra.
Qed.

Lemma to_int16_range (s : Q) : (-32767 <= to_int16 s <= 32767)%Z.
Proof.
  unfold to_int16.
  destruct (clamp_range s) as [Hl Hu].
  destruct (round_bounds (clamp s * 32767)) as [H1 H2].
  split.
  - assert (H : inject_Z (-32768) < inject_Z (round (clamp s * 32767))).
    { change (inject_Z (-32768)) with (-32768). lra. }
    rewrite <- Zlt_Qlt in H. lia.
  - assert (H : inject_Z (round (clamp s * 32767)) < inject_Z 32768).
    { change (inject_Z 32768) with 32768. lra. }
    rewrite <- Zlt_Qlt in H. lia.
Qed.

Lemma signed16_wrap (v : Z) :
  (-32768 <= v < 32768)%Z -> signed16 (v mod 65536) = v.
Proof.
  intros Hv. unfold signed16.
  rewrite Zplus_mod_idemp_l.
  rewrite Z.mod_small by lia. lia.
Qed.

Lemma pcm16_int16_le (v : Z) (rest : list byte) :
  pcm16_samples (int16_le v ++ rest)
  = signed16 (v mod 65536) :: pcm16_samples rest.
Proof.
  unfold int16_le.
  change (le_split 2 v ++ rest)
    with (byte.of_Z v :: byte.of_Z (Z.shiftr v 8) :: rest).
  cbn [pcm16_samples]. f_equal. f_equal.
  change [byte.of_Z v; byte.of_Z (Z.shiftr v 8)] with (le_split 2 v).
  rewrite le_combine_split. reflexivity.
Qed.

Lemma pcm16_encode (a : list Q) :
  pcm16_samples (flat_map (fun s => int16_le (to_int16 s)) a)
  = map to_int16 a.
Proof.
  induction a as [|s a IH]; [ reflexivity | ].
  cbn [flat_map map]. rewrite pcm16_int16_le, IH. f_equal.
  apply signed16_wrap. pose proof (to_int16_range s). lia.
Qed.

Lemma length_encoded (a : list Q) :
  length (flat_map (fun s => int16_le (to_int16 s)) a) = (2 * length a)%nat.
Proof.
  induction a as [|s a IH]; [ reflexivity | ].
  cbn [flat_map]. rewrite length_app, IH. unfold int16_le.
  rewrite length_le_split. cbn [length]. lia.
Qed.

(** Quantisation error of one sample: at most half a step from rounding
    plus one step from the mismatch of the two scale factors. *)
Lemma quantisation_error (s : Q) :
  -1 <= s <= 1 -> Qabs (from_int16 (to_int16 s) - s) <= 3 # 65536.
Proof.
  intros Hs. unfold from_int16, to_int16.
  pose proof (clamp_id s Hs) as Hc.
  destruct (round_bounds (clamp s * 32767)) as [H1 H2].
  set (v := inject_Z (round (clamp s * 32767))) in *.
  apply Qabs_case; intros _; unfold Qdiv;
    change (/ 32768) with (1 # 32768); lra.
Qed.

End CodecFacts.

(* ------------------------------------------------------------------ *)
(** * Capture: mute gating and the mute switch *)

Module CaptureFacts.
Import AudioUtils WebAudio LiveClient Trace.

Lemma muted_tick (c : LiveClient) (inputData : list Q) :
  isMuted c = true ->
  onaudioprocess c inputData = [Call (OnVolumeUpdate 0%R)].
Proof. intros H. unfold onaudioprocess. rewrite H. reflexivity. Qed.

(** C5.  While the mute flag is set, any number of capture ticks leaves
    the client as it was, hands nothing to the session, and reports the
    level 0 once per tick. *)
Theorem mute_gating (m : Machine) (ticks : list (list Q)) :
  isMuted (client m) = true ->
  let (m', effs) := run m (map AudioProcess ticks) in
  m' = m
  /\ sent effs = []
  /\ volumes effs = repeat 0%R (length ticks)
  /\ effs = repeat (Call (OnVolumeUpdate 0%R)) (length ticks).
Proof.
  intros Hm. induction ticks as [|t ticks IH].
  - cbn. auto.
  - cbn [map run step length repeat].
    destruct (run m (map AudioProcess ticks)) as [m2 effs2].
    destruct IH as (-> & Hs & Hv & He).
    rewrite (muted_tick _ t Hm). cbn [app].
    repeat split.
    + exact Hs.
    + cbn. f_equal. exact Hv.
    + f_equal. exact He.
Qed.

Lemma mute_gating_witness :
  let m := {| client := setMute true new; store := [] |} in
  let (m', effs) :=
    run m (map AudioProcess [[1 # 2; -1 # 4]; [1; 0]; [3 # 4]]) in
  m' = m /\ sent effs = [] /\ volumes effs = [0; 0; 0]%R
  /\ effs = repeat (Call (OnVolumeUpdate 0%R)) 3.
Proof.
  exact (mute_gating {| client := setMute true new; store := [] |}
           [[1 # 2; -1 # 4]; [1; 0]; [3 # 4]] eq_refl).
Defined.

(** C9.  [setMute b] writes the flag and nothing else: schedule cursor,
    source set, session, both contexts and the node store are as before,
    no effect is issued, and the next capture tick reads the new flag. *)
Theorem setMute_frame (b : bool) (m : Machine) :
  let (m', effs) := step m (SetMute b) in
  isMuted (client m') = b
  /\ nextStartTime (client m') = nextStartTime (client m)
  /\ sources (client m') = sources (client m)
  /\ session (client m') = session (client m)
  /\ inputAudioContext (client m') = inputAudioContext (client m)
  /\ outputAudioContext (client m') = outputAudioContext (client m)
  /\ store m' = store m
  /\ effs = []
  /\ (forall inputData,
        onaudioprocess (client m') inputData
        = if b then [Call (OnVolumeUpdate 0%R)]
          else Call (OnVolumeUpdate (rms inputData))
               :: match session (client m) with
                  | Some _ =>
                      [SessionThen
                         (SendRealtimeInput (createPcmBlob inputData))]
                  | None => []
                  end).
Proof.
  cbn. repeat split.
Qed.

End CaptureFacts.

(* ------------------------------------------------------------------ *)
(** * Capture: the loudness meter *)

Module VolumeFacts.
Import AudioUtils WebAudio LiveClient Trace Notions.

Lemma accumulate_squares (l : list Q) (acc : Q) :
  fold_left (fun sum x => sum + x * x) l acc
  == acc + fold_right Qplus 0 (map (fun s => s * s) l).
Proof.
  revert acc. induction l as [|x l IH]; intros acc; cbn [fold_left map fold_right].
  - ring.
  - rewrite IH. ring.
Qed.

Lemma meanSquare_mean (l : list Q) :
  meanSquare l == mean (map (fun s => s * s) l).
Proof.
  unfold meanSquare, mean, sumSquares.
  rewrite accumulate_squares, length_map. apply Qdiv_comp; [ ring | reflexivity ].
Qed.

Lemma rms_rootMeanSquare (l : list Q) : rms l = rootMeanSquare l.
Proof.
  unfold rms, rootMeanSquare. f_equal. apply Qeq_eqR, meanSquare_mean.
Qed.

Lemma squares_bounded (l : list Q) :
  Forall (fun s => -1 <= s <= 1) l ->
  0 <= fold_right Qplus 0 (map (fun s => s * s) l)
    <= inject_Z (Z.of_nat (length l)).
Proof.
  induction 1 as [|x l Hx _ IH]; cbn [map fold_right length].
  - split; discriminate.
  - rewrite Nat2Z.inj_succ, <- Z.add_1_r, inject_Z_plus.
    change (inject_Z 1) with 1. destruct IH as [IH0 IH1].
    split; nra.
Qed.

Lemma mean_square_unit (l : list Q) :
  l <> [] ->
  Forall (fun s => -1 <= s <= 1) l ->
  0 <= mean (map (fun s => s * s) l) <= 1.
Proof.
  intros Hne Hall. destruct (squares_bounded l Hall) as [H0 H1].
  unfold mean. rewrite length_map.
  assert (Hn : 0 < inject_Z (Z.of_nat (length l))).
  { change 0 with (inject_Z 0). rewrite <- Zlt_Qlt.
    destruct l; [ congruence | cbn [length]; lia ]. }
  split.
  - apply Qle_shift_div_l; [ exact Hn | ]. lra.
  - apply Qle_shift_div_r; [ exact Hn | ]. lra.
Qed.

Lemma rootMeanSquare_unit (l : list Q) :
  l <> [] ->
  Forall (fun s => -1 <= s <= 1) l ->
  (0 <= rootMeanSquare l <= 1)%R.
Proof.
  intros Hne Hall. destruct (mean_square_unit l Hne Hall) as [H0 H1].
  apply Qle_Rle in H0, H1.
  replace (Q2R 0) with 0%R in H0 by (unfold Q2R; cbn; lra).
  replace (Q2R 1) with 1%R in H1 by (unfold Q2R; cbn; lra).
  unfold rootMeanSquare. split.
  - apply sqrt_pos.
  - rewrite <- sqrt_1. apply sqrt_le_1_alt. exact H1.
Qed.

(** C8.  On a captured frame whose samples lie in [-1,1] the volume
    observer is called exactly once, with 0 when muted and with the root
    mean square of the frame otherwise, and that level lies in [0,1]. *)
Theorem volume_range (c : LiveClient) (inputData : list Q) :
  inputData <> [] ->
  Forall (fun s => -1 <= s <= 1) inputData ->
  exists v : R,
    volumes (onaudioprocess c inputData) = [v]
    /\ (0 <= v <= 1)%R
    /\ v = (if isMuted c then 0%R else rootMeanSquare inputData).
Proof.
  intros Hne Hall. unfold onaudioprocess.
  destruct (isMuted c).
  - exists 0%R. cbn. repeat split; lra.
  - exists (rootMeanSquare inputData). rewrite <- rms_rootMeanSquare.
    repeat split.
    + destruct (session c); reflexivity.
    + rewrite rms_rootMeanSquare. apply rootMeanSquare_unit; assumption.
    + rewrite rms_rootMeanSquare. apply rootMeanSquare_unit; assumption.
Qed.

Lemma volume_range_witness :
  exists v : R,
    volumes (onaudioprocess new [1 # 2; -1 # 2; 1; 0]) = [v]
    /\ (0 <= v <= 1)%R
    /\ v = rootMeanSquare [1 # 2; -1 # 2; 1; 0].
Proof.
  apply (volume_range new [1 # 2; -1 # 2; 1; 0]).
  - discriminate.
  - repeat constructor; discriminate.
Defined.

End VolumeFacts.

(* ------------------------------------------------------------------ *)
(** * Inbound messages: transcript delivery *)

Module TranscriptFacts.
Import AudioUtils WebAudio LiveClient Trace Notions.

Lemma transcripts_app (a b : list Effect) :
  transcripts (a ++ b) = transcripts a ++ transcripts b.
Proof. apply flat_map_app. Qed.

Lemma transcripts_audio (c : LiveClient) (msg : LiveServerMessage) :
  transcripts (audioEffects c msg) = [].
Proof.
  unfold audioEffects.
  destruct (audioDataOf msg) as [d|]; [ | reflexivity ].
  destruct (outputAudioContext c); [ | reflexivity ].
  destruct (truthy (Some d)); reflexivity.
Qed.

Lemma transcripts_onmessage (c : LiveClient) (now : Q)
  (msg : LiveServerMessage) :
  transcripts (onmessage c now msg)
  = transcripts (transcriptEffects c now msg).
Proof.
  unfold onmessage.
  rewrite transcripts_app, transcripts_audio. apply app_nil_r.
Qed.

(** C4, as stated, fails on a message that carries both transcripts: its
    user text is not handed to the observer, neither at once nor later;
    the only delivery is the deferred model text. *)
Lemma user_transcript_not_delivered :
  (exists sc t,
      serverContent mixedMessage = Some sc
      /\ inputTranscription sc = Some t /\ text t = Some "Hi"%string)
  /\ ~ In (Call (OnTranscript (Some "Hi"%string) true false))
          (onmessage new 0 mixedMessage)
  /\ map snd (transcripts (onmessage new 0 mixedMessage)) = [false].
Proof.
  split; [ | split ].
  - eexists. eexists. cbn. repeat split.
  - cbn. intros [H | []]. discriminate H.
  - reflexivity.
Qed.

(** C4, amended.  A message with a model transcript has that text handed
    to the observer through a timer whose delay is the playback latency
    [max(0, nextStartTime - currentTime)] read at arrival (in
    milliseconds); a message with a user transcript and no model transcript
    has the user text handed over at once. *)
Theorem transcript_timing (c : LiveClient) (now : Q) (t : Transcription)
  (other : option Transcription) (turn : option Content) :
  transcripts
    (onmessage c now
       {| serverContent :=
            Some {| outputTranscription := Some t;
                    inputTranscription := other;
                    modelTurn := turn |} |})
  = [(Some (Qmax 0 (nextStartTime c - clockOf c now) * 1000), text t, false)]
  /\ transcripts
       (onmessage c now
          {| serverContent :=
               Some {| outputTranscription := None;
                       inputTranscription := Some t;
                       modelTurn := turn |} |})
     = [(None, text t, true)]
  /\ transcriptEffects c now
       {| serverContent :=
            Some {| outputTranscription := Some t;
                    inputTranscription := other;
                    modelTurn := turn |} |}
     = [SetTimeout (OnTranscript (text t) false false)
          (Qmax 0 (nextStartTime c - clockOf c now) * 1000)]
  /\ transcriptEffects c now
       {| serverContent :=
            Some {| outputTranscription := None;
                    inputTranscription := Some t;
                    modelTurn := turn |} |}
     = [Call (OnTranscript (text t) true false)]
  /\ clockOf c now = match outputAudioContext c with
                     | Some _ => now
                     | None => 0
                     end.
Proof.
  rewrite !transcripts_onmessage. repeat split.
Qed.

(** C10.  One message gives rise to at most one transcript delivery, and
    when it carries a model transcript that one is the delivery: whatever
    user transcript the message also holds is not delivered. *)
Theorem transcription_exclusive (c : LiveClient) (now : Q) :
  (forall msg, (length (transcripts (onmessage c now msg)) <= 1)%nat)
  /\ (forall out inp turn,
        transcripts
          (onmessage c now
             {| serverContent :=
                  Some {| outputTranscription := Some out;
                          inputTranscription := inp;
                          modelTurn := turn |} |})
        = [(Some (playbackLatency c now * 1000), text out, false)]).
Proof.
  split.
  - intros msg. rewrite transcripts_onmessage. unfold transcriptEffects.
    destruct (serverContent msg) as [sc|]; [ | cbn; lia ].
    destruct (outputTranscription sc); [ cbn; lia | ].
    destruct (inputTranscription sc); cbn; lia.
  - intros out inp turn. rewrite transcripts_onmessage. reflexivity.
Qed.

End TranscriptFacts.

(* ------------------------------------------------------------------ *)
(** * The conversation view: merging of turns *)

Module TurnFacts.
Import VoiceMode.

Lemma last_index (init : list Message) (l : Message) :
  nth_error (init ++ [l]) (length (init ++ [l]) - 1) = Some l.
Proof.
  rewrite length_app. cbn [length].
  replace (length init + 1 - 1)%nat with (length init) by lia.
  rewrite nth_error_app2 by lia. rewrite Nat.sub_diag. reflexivity.
Qed.

Lemma assign_last (init : list Message) (l x : Message) :
  assign (length (init ++ [l]) - 1) x (init ++ [l]) = init ++ [x].
Proof.
  rewrite length_app. cbn [length].
  replace (length init + 1 - 1)%nat with (length init) by lia.
  induction init as [|y init IH]; cbn; [ reflexivity | ].
  f_equal. exact IH.
Qed.

Lemma onTranscript_snoc (init : list Message) (l : Message) (txt : string)
  (isUser : bool) (uuid : string) (now : Z) :
  onTranscript (init ++ [l]) txt isUser uuid now
  = if role_eqb (role l) (if isUser then USER else MODEL)
    then init ++ [{| id := id l; role := role l;
                     text := (text l ++ txt)%string; timestamp := now |}]
    else init ++ [l; {| id := uuid;
                        role := if isUser then USER else MODEL;
                        text := txt; timestamp := now |}].
Proof.
  unfold onTranscript.
  destruct (init ++ [l]) as [|h tl] eqn:E.
  - destruct init; discriminate E.
  - rewrite <- E. rewrite last_index, assign_last.
    destruct (role_eqb _ _); [ reflexivity | ].
    rewrite <- app_assoc. reflexivity.
Qed.

(** C6.  A delivery by the speaker of the last turn is concatenated onto
    that turn, a delivery by the other speaker (or the first delivery)
    opens a new turn; "Hel", "lo" from the model and "Hi" from the user
    give the two turns "Hello" and "Hi". *)
Theorem turn_merging :
  (forall txt isUser uuid now,
      onTranscript [] txt isUser uuid now
      = [{| id := uuid; role := if isUser then USER else MODEL;
            text := txt; timestamp := now |}])
  /\ (forall init l txt isUser uuid now,
        onTranscript (init ++ [l]) txt isUser uuid now
        = if role_eqb (role l) (if isUser then USER else MODEL)
          then init ++ [{| id := id l; role := role l;
                           text := (text l ++ txt)%string; timestamp := now |}]
          else init ++ [l; {| id := uuid;
                              role := if isUser then USER else MODEL;
                              text := txt; timestamp := now |}])
  /\ (forall a b, role_eqb a b = true <-> a = b)
  /\ (forall u1 u2 u3 t1 t2 t3,
        deliverAll []
          [ {| dUser := false; dText := "Hel"%string; dUuid := u1; dNow := t1 |};
            {| dUser := false; dText := "lo"%string; dUuid := u2; dNow := t2 |};
            {| dUser := true; dText := "Hi"%string; dUuid := u3; dNow := t3 |} ]
        = [ {| id := u1; role := MODEL; text := "Hello"%string; timestamp := t2 |};
            {| id := u3; role := USER; text := "Hi"%string; timestamp := t3 |} ]).
Proof.
  split; [ reflexivity | ].
  split; [ exact onTranscript_snoc | ].
  split; [ | reflexivity ].
  intros [] []; cbn; split; congruence.
Qed.

End TurnFacts.

(* ------------------------------------------------------------------ *)
(** * Properties of playback scheduling *)

Module ScheduleFacts.
Import AudioUtils WebAudio LiveClient Schedule.

Lemma duration_nonneg (b : AudioBuffer) : 0 <= duration b.
Proof. unfold duration, Qle. cbn. lia. Qed.

Lemma enqueueAll_no_context (m : Machine) (arrivals : list (Q * AudioBuffer)) :
  outputAudioContext (client m) = None ->
  enqueueAll m arrivals = (m, []).
Proof.
  intros H. induction arrivals as [|[now b] rest IH]; [ reflexivity | ].
  cbn [enqueueAll]. unfold playAudio. rewrite H, IH. reflexivity.
Qed.

(** The first slot of a run starts at the later of its arrival and the
    cursor; every slot of the run follows its predecessor. *)
Lemma enqueueAll_chain (arrivals : list (Q * AudioBuffer)) (m : Machine) :
  let (m', slots) := enqueueAll m arrivals in
  nextStartTime (client m) <= nextStartTime (client m')
  /\ match slots with
     | [] => True
     | s :: _ => startAt s = Qmax (arrivedAt s) (nextStartTime (client m))
     end
  /\ consecutive follows slots.
Proof.
  revert m. induction arrivals as [|[now b] rest IH]; intros m.
  - cbn. repeat split. apply Qle_refl.
  - destruct (outputAudioContext (client m)) as [ctx|] eqn:Hctx.
    + cbn [enqueueAll]. unfold playAudio. rewrite Hctx.
      set (m1 := {| client := _; store := _ |}).
      specialize (IH m1).
      destruct (enqueueAll m1 rest) as [m2 slots].
      destruct IH as (Hmono & Hhead & Hchain).
      cbn [slotsOf flat_map app].
      assert (Hnext : nextStartTime (client m1)
                      = Qmax now (nextStartTime (client m)) + duration b)
        by reflexivity.
      pose proof (duration_nonneg b) as Hd.
      pose proof (Q.le_max_r now (nextStartTime (client m))) as Hm.
      repeat split.
      * rewrite Hnext in Hmono. lra.
      * destruct slots as [|s slots]; [ exact I | ].
        cbn [consecutive]. split; [ | exact Hchain ].
        unfold follows. cbn [arrivedAt startAt span].
        rewrite Hhead, Hnext.
        pose proof (Q.le_max_r (arrivedAt s)
                      (Qmax now (nextStartTime (client m)) + duration b)).
        repeat split; try lra.
        intros Hearly. apply Q.max_r. exact Hearly.
    + rewrite (enqueueAll_no_context m _ Hctx).
      cbn. repeat split. apply Qle_refl.
Qed.

(** With an output context every arrival is scheduled, in order. *)
Lemma enqueueAll_complete (arrivals : list (Q * AudioBuffer)) (m : Machine) :
  outputAudioContext (client m) <> None ->
  map (fun s => (arrivedAt s, span s)) (snd (enqueueAll m arrivals))
  = map (fun a => (fst a, duration (snd a))) arrivals.
Proof.
  revert m. induction arrivals as [|[now b] rest IH]; intros m Hctx.
  - reflexivity.
  - cbn [enqueueAll]. unfold playAudio.
    destruct (outputAudioContext (client m)) as [ctx|] eqn:E;
      [ | congruence ].
    set (m1 := {| client := _; store := _ |}).
    assert (H1 : outputAudioContext (client m1) <> None).
    { subst m1. cbn. rewrite E. discriminate. }
    specialize (IH m1 H1).
    destruct (enqueueAll m1 rest) as [m2 slots].
    cbn in *. f_equal. exact IH.
Qed.

(** C1.  [playAudio] starts a buffer at the later of the clock and the
    cursor and moves the cursor to the end of that buffer; over any
    sequence of arrivals the cursor never moves back, start times never
    decrease, a buffer never starts before its predecessor ends, and it
    starts exactly at that end when it arrived no later than it. *)
Theorem playback_schedule (m : Machine) (arrivals : list (Q * AudioBuffer)) :
  (forall now buffer,
      let (m', effs) := playAudio m now buffer in
      match outputAudioContext (client m) with
      | Some _ =>
          effs = [SourceStart (length (store m))
                    (Qmax now (nextStartTime (client m)))]
          /\ nextStartTime (client m')
             = Qmax now (nextStartTime (client m)) + duration buffer
      | None => m' = m /\ effs = []
      end)
  /\ (let (m', slots) := enqueueAll m arrivals in
      nextStartTime (client m) <= nextStartTime (client m')
      /\ consecutive follows slots
      /\ consecutive (fun a b => startAt a <= startAt b) slots
      /\ match outputAudioContext (client m) with
         | Some _ =>
             map (fun s => (arrivedAt s, span s)) slots
             = map (fun a => (fst a, duration (snd a))) arrivals
         | None => slots = []
         end).
Proof.
  split.
  - intros now buffer. unfold playAudio.
    destruct (outputAudioContext (client m)); cbn; split; reflexivity.
  - pose proof (enqueueAll_chain arrivals m) as H.
    pose proof (enqueueAll_complete arrivals m) as Hall.
    pose proof (enqueueAll_no_context m arrivals) as Hnone.
    destruct (enqueueAll m arrivals) as [m' slots].
    destruct H as (Hmono & _ & Hchain).
    split; [ exact Hmono | ]. split; [ exact Hchain | ]. split.
    + clear - Hchain. induction slots as [|a [|b slots] IH]; cbn; auto.
      destruct Hchain as [[H _] Hrest]. split; [ exact H | exact (IH Hrest) ].
    + destruct (outputAudioContext (client m)).
      * apply Hall. discriminate.
      * specialize (Hnone eq_refl). congruence.
Qed.

(** Three buffers of 2400, 4800 and 1200 frames, the second arriving
    early and the third late. *)
Example schedule_of_three :
  let opened := fst (step boot (Connect "English" "Kore" StreamGranted)) in
  let tone n := {| samples := repeat 0 n; sampleRate := 24000;
                   numberOfChannels := 1 |} in
  map (fun s => (startAt s, span s))
    (snd (enqueueAll opened
            [(1 # 10, tone 2400%nat); (3 # 20, tone 4800%nat);
             (5, tone 1200%nat)]))
  = [(1 # 10, 2400 # 24000); ((1 # 10) + (2400 # 24000), 4800 # 24000);
     (5, 1200 # 24000)].
Proof. vm_compute. reflexivity. Qed.

End ScheduleFacts.

(* ------------------------------------------------------------------ *)
(** * Teardown *)

Module DisconnectFacts.
Import AudioUtils WebAudio LiveClient Notions.

Lemma keeps_refl (st : Store) : keeps st st.
Proof. intros i n H. exists n. auto. Qed.

Lemma keeps_trans (a b c : Store) : keeps a b -> keeps b c -> keeps a c.
Proof.
  intros Hab Hbc i n H.
  destruct (Hab i n H) as (n1 & H1 & Hs1 & Hh1).
  destruct (Hbc i n1 H1) as (n2 & H2 & Hs2 & Hh2).
  exists n2. repeat split; [ assumption | congruence | auto ].
Qed.

Lemma keeps_started (st st' : Store) (id : NodeId) :
  keeps st st' -> started st id -> started st' id.
Proof.
  intros Hk (n & Hn & Hs). destruct (Hk id n Hn) as (n' & Hn' & Hs' & _).
  exists n'. split; [ assumption | congruence ].
Qed.

Lemma keeps_halted (st st' : Store) (id : NodeId) :
  keeps st st' -> halted st id -> halted st' id.
Proof.
  intros Hk (n & Hn & Hs & Hh). destruct (Hk id n Hn) as (n' & Hn' & Hs' & Hh').
  exists n'. repeat split; [ assumption | congruence | auto ].
Qed.

Lemma keeps_app (st : Store) (extra : Store) : keeps st (st ++ extra).
Proof.
  intros i n H. exists n. repeat split; auto.
  rewrite nth_error_app1; [ exact H | ].
  apply nth_error_Some. congruence.
Qed.

Lemma nth_replaceAt_same (i : nat) (n x : SourceNode) (st : Store) :
  nth_error st i = Some x -> nth_error (replaceAt i n st) i = Some n.
Proof.
  revert i. induction st as [|y st IH]; intros [|i] H; cbn in *;
    try discriminate; auto.
Qed.

Lemma nth_replaceAt_other (i j : nat) (n : SourceNode) (st : Store) :
  i <> j -> nth_error (replaceAt i n st) j = nth_error st j.
Proof.
  revert i j. induction st as [|y st IH]; intros [|i] [|j] H; cbn;
    try reflexivity; try congruence.
  apply IH. congruence.
Qed.

Lemma replaceAt_same (i : nat) (n : SourceNode) (st : Store) :
  nth_error st i = Some n -> replaceAt i n st = st.
Proof.
  revert i. induction st as [|y st IH]; intros [|i] H; cbn in *;
    try discriminate; try congruence.
  f_equal. auto.
Qed.

Lemma keeps_stop (st : Store) (id : NodeId) (n n' : SourceNode) :
  nth_error st id = Some n -> stopNode n = inr n' ->
  keeps st (replaceAt id n' st).
Proof.
  intros Hn Hstop i x Hx.
  unfold stopNode in Hstop. destruct (startedAt n) eqn:Es; [ | discriminate ].
  injection Hstop as <-.
  destruct (Nat.eq_dec id i) as [<- | Hne].
  - rewrite (nth_replaceAt_same _ _ _ _ Hn). eexists. split; [ reflexivity | ].
    cbn. assert (x = n) by congruence. subst x. auto.
  - rewrite (nth_replaceAt_other _ _ _ _ Hne). exists x. auto.
Qed.

(** On started nodes [forEach(s => s.stop())] runs to the end, halts each
    of them and disturbs no other node. *)
Lemma stopAll_started (ids : list NodeId) (st : Store) :
  Forall (started st) ids ->
  exists st',
    stopAll ids st = (st', map SourceStop ids, None)
    /\ keeps st st' /\ Forall (halted st') ids.
Proof.
  revert st. induction ids as [|id rest IH]; intros st Hall.
  - exists st. cbn. repeat split; [ apply keeps_refl | constructor ].
  - inversion Hall as [|? ? (n & Hn & Hs) Hrest]; subst.
    cbn [stopAll map]. rewrite Hn.
    destruct (stopNode n) as [e|n'] eqn:Hstop.
    { unfold stopNode in Hstop. destruct (startedAt n); congruence. }
    pose proof (keeps_stop st id n n' Hn Hstop) as Hk.
    assert (Hrest' : Forall (started (replaceAt id n' st)) rest).
    { eapply Forall_impl; [ | exact Hrest ].
      intros a Ha. eapply keeps_started; eassumption. }
    destruct (IH _ Hrest') as (st' & Heq & Hk' & Hh).
    exists st'. rewrite Heq. repeat split.
    + eapply keeps_trans; eassumption.
    + constructor; [ | exact Hh ].
      apply (keeps_halted (replaceAt id n' st)); [ exact Hk' | ].
      exists n'. split; [ eapply nth_replaceAt_same; eassumption | ].
      unfold stopNode in Hstop. destruct (startedAt n) eqn:Es; [ | discriminate ].
      injection Hstop as <-. cbn. split; [ discriminate | reflexivity ].
Qed.

(** On halted nodes it changes nothing at all. *)
Lemma stopAll_halted (ids : list NodeId) (st : Store) :
  Forall (halted st) ids ->
  stopAll ids st = (st, map SourceStop ids, None).
Proof.
  induction 1 as [|id rest (n & Hn & Hs & Hh) _ IH]; [ reflexivity | ].
  cbn [stopAll map]. rewrite Hn. unfold stopNode.
  destruct (startedAt n) eqn:Es; [ | congruence ].
  assert (Hsame : {| nodeBuffer := nodeBuffer n; startedAt := Some q;
                     stopped := true; hasOnEnded := hasOnEnded n |} = n).
  { destruct n; cbn in *. congruence. }
  rewrite Hsame, (replaceAt_same _ _ _ Hn), IH. reflexivity.
Qed.

Lemma halted_inactive (st : Store) (id : NodeId) :
  halted st id ->
  exists n, nth_error st id = Some n /\ active n = false.
Proof.
  intros (n & Hn & Hs & Hh). exists n. split; [ exact Hn | ].
  unfold active. destruct (startedAt n); [ | reflexivity ].
  rewrite Hh. reflexivity.
Qed.

Lemma closed_closed (c : LiveClient) : closed (closed c) = closed c.
Proof.
  unfold closed. cbn.
  destruct (inputAudioContext c), (outputAudioContext c); reflexivity.
Qed.

Lemma disconnect_store (c : LiveClient) (st st' : Store) :
  stopAll (sources c) st = (st', map SourceStop (sources c), None) ->
  exists effs,
    disconnect {| client := c; store := st |}
    = ({| client := closed c; store := st' |}, effs, None).
Proof.
  intros H. unfold disconnect. cbn [client store]. rewrite H.
  unfold closed.
  destruct (closeContext (inputAudioContext c)) as [ictx e1].
  destruct (closeContext (outputAudioContext c)) as [octx e2].
  cbn [fst]. eexists. reflexivity.
Qed.

Lemma disconnect_started (m : Machine) :
  wellFormed m ->
  exists st' effs,
    disconnect m = ({| client := closed (client m); store := st' |}, effs, None)
    /\ keeps (store m) st'
    /\ Forall (halted st') (sources (client m)).
Proof.
  intros Hwf. destruct m as [c st]. cbn [client store] in *.
  destruct (stopAll_started (sources c) st Hwf) as (st' & Heq & Hk & Hh).
  destruct (disconnect_store c st st' Heq) as (effs & Hd).
  exists st', effs. auto.
Qed.

Lemma boot_wellFormed : wellFormed boot.
Proof. constructor. Qed.

Lemma playAudio_wellFormed (m : Machine) (now : Q) (buffer : AudioBuffer) :
  wellFormed m -> wellFormed (fst (playAudio m now buffer)).
Proof.
  intros Hwf. unfold playAudio.
  destruct (outputAudioContext (client m)); [ | exact Hwf ].
  unfold wellFormed in *. cbn. apply Forall_forall. intros x Hx.
  apply set_add_elim in Hx. destruct Hx as [-> | Hx].
  - eexists. split.
    + rewrite nth_error_app2 by lia. rewrite Nat.sub_diag. reflexivity.
    + cbn. discriminate.
  - apply (keeps_started (store m)); [ apply keeps_app | ].
    rewrite Forall_forall in Hwf. auto.
Qed.

Lemma step_wellFormed (m : Machine) (e : Event) :
  wellFormed m -> wellFormed (fst (step m e)).
Proof.
  intros Hwf. destruct e; cbn [step fst]; try exact Hwf.
  - destruct mic; exact Hwf.
  - apply playAudio_wellFormed, Hwf.
  - unfold wellFormed, onended in *. cbn.
    apply Forall_forall. intros x Hx. apply set_remove_1 in Hx.
    rewrite Forall_forall in Hwf. auto.
  - destruct (disconnect_started m Hwf) as (st' & effs & Heq & Hk & _).
    rewrite Heq. cbn. unfold wellFormed in *. cbn.
    eapply Forall_impl; [ | exact Hwf ].
    intros a Ha. eapply keeps_started; eassumption.
Qed.

Lemma run_wellFormed (events : list Event) (m : Machine) :
  wellFormed m -> wellFormed (fst (run m events)).
Proof.
  revert m. induction events as [|e rest IH]; intros m Hwf; [ exact Hwf | ].
  cbn [run]. pose proof (step_wellFormed m e Hwf) as H1.
  destruct (step m e) as [m1 effs1]. specialize (IH m1 H1).
  destruct (run m1 rest) as [m2 effs2]. exact IH.
Qed.

(** C2, as stated, fails: after a session that scheduled one buffer,
    [disconnect] returns with that source still in the set. *)
Lemma sources_survive_disconnect :
  let m := fst (run boot [Connect "English" "Kore" StreamGranted;
                          Decoded 0 oneFrame]) in
  let '(m1, _, ex) := disconnect m in
  ex = None
  /\ sources (client m) = [0%nat]
  /\ sources (client m1) = [0%nat]
  /\ sources (client m1) <> [].
Proof. cbn. repeat split. discriminate. Qed.

Lemma length_replaceAt (i : nat) (n : SourceNode) (st : Store) :
  length (replaceAt i n st) = length st.
Proof.
  revert i. induction st as [|x st IH]; intros [|i]; cbn; auto.
Qed.

Lemma stopAll_length (ids : list NodeId) (st : Store) :
  length (fst (fst (stopAll ids st))) = length st.
Proof.
  revert st. induction ids as [|id rest IH]; intros st; [ reflexivity | ].
  cbn [stopAll]. destruct (nth_error st id) as [n|]; [ | reflexivity ].
  destruct (stopNode n) as [e|n']; [ reflexivity | ].
  specialize (IH (replaceAt id n' st)).
  destruct (stopAll rest (replaceAt id n' st)) as [[st' effs] ex].
  cbn [fst] in *. rewrite IH. apply length_replaceAt.
Qed.

(** [disconnect] creates no node and drops none. *)
Lemma disconnect_length (m : Machine) :
  length (store (fst (fst (disconnect m)))) = length (store m).
Proof.
  unfold disconnect. pose proof (stopAll_length (sources (client m)) (store m)) as H.
  destruct (stopAll (sources (client m)) (store m)) as [[st stops] ex].
  cbn [fst] in H. destruct ex as [e|].
  - exact H.
  - destruct (closeContext (inputAudioContext (client m))) as [ictx e1].
    destruct (closeContext (outputAudioContext (client m))) as [octx e2].
    exact H.
Qed.

Lemma disconnect_sources (m : Machine) :
  sources (client (fst (fst (disconnect m)))) = sources (client m).
Proof.
  unfold disconnect.
  destruct (stopAll (sources (client m)) (store m)) as [[st stops] ex].
  destruct ex as [e|]; [ reflexivity | ].
  destruct (closeContext (inputAudioContext (client m))) as [ictx e1].
  destruct (closeContext (outputAudioContext (client m))) as [octx e2].
  reflexivity.
Qed.

(** The effects of a [disconnect] that meets started nodes only begin with
    one [stop] for each member of the set, in the order of the set. *)
Lemma disconnect_stops (c : LiveClient) (st st' : Store) :
  stopAll (sources c) st = (st', map SourceStop (sources c), None) ->
  exists rest,
    snd (fst (disconnect {| client := c; store := st |}))
    = map SourceStop (sources c) ++ rest.
Proof.
  intros H. unfold disconnect. cbn [client store]. rewrite H.
  destruct (closeContext (inputAudioContext c)) as [ictx e1].
  destruct (closeContext (outputAudioContext c)) as [octx e2].
  cbn [fst snd]. eexists. reflexivity.
Qed.

Lemma tracked_later (past : list Event) (e : Event) (m m' : Machine) :
  tracked past m ->
  length (store m') = length (store m) ->
  sources (client m') = sources (client m) ->
  tracked (past ++ [e]) m'.
Proof.
  intros H Hl Hs id Hid. rewrite Hl in Hid. rewrite Hs.
  destruct (H id Hid) as [Hin | Hin]; [ left; exact Hin | ].
  right. apply in_or_app. left. exact Hin.
Qed.

Lemma step_tracked (past : list Event) (m : Machine) (e : Event) :
  tracked past m -> tracked (past ++ [e]) (fst (step m e)).
Proof.
  intros H. destruct e; cbn [step fst];
    try (apply (tracked_later past _ m m H); reflexivity).
  - destruct mic; apply (tracked_later past _ m _ H); reflexivity.
  - unfold playAudio.
    destruct (outputAudioContext (client m));
      [ | apply (tracked_later past _ m m H); reflexivity ].
    cbn [fst]. intros x Hx. cbn [store client] in *. unfold withSchedule.
    cbn [sources]. rewrite length_app in Hx. cbn [length] in Hx.
    destruct (Nat.eq_dec x (length (store m))) as [-> | Hne].
    + left. apply set_add_intro2. reflexivity.
    + assert (Hlt : (x < length (store m))%nat) by lia.
      destruct (H x Hlt) as [Hin | Hin].
      * left. apply set_add_intro1. exact Hin.
      * right. apply in_or_app. left. exact Hin.
  - intros x Hx. unfold onended in *. cbn [store client] in *.
    unfold withSchedule. cbn [sources].
    destruct (Nat.eq_dec x id) as [-> | Hne].
    + right. apply in_or_app. right. left. reflexivity.
    + destruct (H x Hx) as [Hin | Hin].
      * left. apply set_remove_3; assumption.
      * right. apply in_or_app. left. exact Hin.
  - pose proof (disconnect_length m) as Hl.
    pose proof (disconnect_sources m) as Hs.
    destruct (disconnect m) as [[m' effs] ex]. cbn [fst] in *.
    apply (tracked_later past _ m m' H); assumption.
Qed.

Lemma run_tracked (events past : list Event) (m : Machine) :
  tracked past m -> tracked (past ++ events) (fst (run m events)).
Proof.
  revert past m. induction events as [|e rest IH]; intros past m H.
  - rewrite app_nil_r. exact H.
  - cbn [run]. pose proof (step_tracked past m e H) as H1.
    destruct (step m e) as [m1 effs1]. cbn [fst] in H1.
    specialize (IH (past ++ [e]) m1 H1).
    destruct (run m1 rest) as [m2 effs2]. cbn [fst] in *.
    rewrite <- app_assoc in IH. exact IH.
Qed.

Lemma boot_tracked : tracked [] boot.
Proof. intros id Hid. cbn in Hid. lia. Qed.

(** C2, amended.  In every state a client can reach, [disconnect] raises
    no exception, and neither does a second [disconnect] right after it,
    which changes nothing.  It calls [stop] on every member of the source
    set, and when it returns no scheduled source remains active: every
    source the client ever created is halted, unless its end-of-playback
    callback had fired before.  The source set itself is left as it was:
    a source is missing from it only when its end-of-playback callback has
    fired. *)
Theorem disconnect_safe (events : list Event) :
  let m := fst (run boot events) in
  let '(m1, effs1, ex1) := disconnect m in
  let '(m2, _, ex2) := disconnect m1 in
  ex1 = None
  /\ ex2 = None
  /\ sources (client m1) = sources (client m)
  /\ Forall (fun id => exists n, nth_error (store m1) id = Some n
                                 /\ active n = false)
       (sources (client m1))
  /\ m2 = m1
  /\ (exists rest, effs1 = map SourceStop (sources (client m)) ++ rest)
  /\ (forall id n, nth_error (store m1) id = Some n ->
        active n = false \/ In (Ended id) events)
  /\ (forall id, (id < length (store m))%nat ->
        In id (sources (client m)) \/ In (Ended id) events)
  /\ length (store m1) = length (store m).
Proof.
  cbv zeta.
  pose proof (run_wellFormed events boot boot_wellFormed) as Hwf.
  pose proof (run_tracked events [] boot boot_tracked) as Htr.
  cbn [app] in Htr.
  pose proof (disconnect_length (fst (run boot events))) as Hlen.
  set (m := fst (run boot events)) in *.
  destruct (stopAll_started (sources (client m)) (store m) Hwf)
    as (st' & Hstop & Hk & Hh).
  assert (Hm : m = {| client := client m; store := store m |})
    by (destruct m; reflexivity).
  destruct (disconnect_stops (client m) (store m) st' Hstop) as (rest & Hrest).
  destruct (disconnect_store (client m) (store m) st' Hstop) as (effs & Heq).
  rewrite <- Hm in Heq, Hrest. rewrite Heq in Hlen, Hrest. rewrite Heq.
  cbn [fst snd store] in Hlen, Hrest.
  pose proof (stopAll_halted _ _ Hh) as Hagain.
  destruct (disconnect_store (closed (client m)) st' st' Hagain)
    as (effs' & Heq').
  rewrite Heq'. rewrite closed_closed.
  assert (Hquiet : Forall (fun id => exists n, nth_error st' id = Some n
                                               /\ active n = false)
                     (sources (client m))).
  { eapply Forall_impl; [ | exact Hh ].
    intros a Ha. apply halted_inactive, Ha. }
  repeat split.
  - exact Hquiet.
  - exists rest. exact Hrest.
  - intros id n Hn. cbn [store] in Hn.
    assert (Hid : (id < length (store m))%nat).
    { rewrite <- Hlen. apply nth_error_Some. congruence. }
    destruct (Htr id Hid) as [Hin | Hin]; [ left | right; exact Hin ].
    rewrite Forall_forall in Hquiet.
    destruct (Hquiet id Hin) as (n' & Hn' & Ha). congruence.
  - exact Htr.
  - exact Hlen.
Qed.

(** Two buffers were scheduled and the first has played to its end: the
    other is stopped by [disconnect], and stays in the set. *)
Example disconnect_of_two :
  let m := fst (run boot [Connect "English" "Kore" StreamGranted;
                          Decoded 0 oneFrame; Decoded 0 oneFrame;
                          Ended 0%nat]) in
  let '(m1, effs1, ex1) := disconnect m in
  ex1 = None
  /\ sources (client m1) = [1%nat]
  /\ List.map active (store m) = [true; true]
  /\ List.map active (store m1) = [true; false]
  /\ In (SourceStop 1%nat) effs1.
Proof. cbn. repeat split. left. reflexivity. Qed.

End DisconnectFacts.

(* ------------------------------------------------------------------ *)
(** * Opening a session *)

Module ConnectFacts.
Import AudioUtils WebAudio LiveClient Trace Notions.

(** C7, as stated, fails: with the microphone refused [connect] rejects,
    yet the activity observer is not called at all. *)
Lemma refused_microphone_not_announced :
  let '(_, effs, outcome) :=
    connect new "English" "Kore" (StreamRefused NotAllowedError) in
  outcome = Rejected NotAllowedError
  /\ activity effs = []
  /\ effs = [GetUserMedia].
Proof. cbn. repeat split. Qed.

(** C7, amended.  A refused microphone makes [connect] reject with that
    error; the observer is not called and the remote session is not
    opened.  With the microphone granted [connect] resolves once the
    remote connection has been requested, whatever becomes of it; its
    failure or closure reaches the client through [onerror] and [onclose],
    which tell the activity observer [false].  The microphone and the
    remote session are each asked for at most once, and never by the
    callbacks. *)
Theorem connect_failure_reporting (c : LiveClient)
  (language voiceName : string) :
  (forall err,
      let '(c', effs, outcome) :=
        connect c language voiceName (StreamRefused err) in
      outcome = Rejected err
      /\ effs = [GetUserMedia]
      /\ activity effs = []
      /\ session c' = session c)
  /\ (let '(c', effs, outcome) :=
        connect c language voiceName StreamGranted in
      outcome = Resolved
      /\ effs = [GetUserMedia;
                 LiveConnect voiceName (systemInstruction language)]
      /\ activity effs = []
      /\ session c' = Some LiveSession)
  /\ (forall m,
        step m Error = (m, [Call (OnAudioActivity false)])
        /\ step m Close = (m, [Call (OnAudioActivity false)])
        /\ attempts (snd (step m Error)) = 0%nat
        /\ attempts (snd (step m Close)) = 0%nat).
Proof.
  repeat split.
Qed.

End ConnectFacts.

(* ------------------------------------------------------------------ *)
(** * The codec round trip *)

Module RoundTripFacts.
Import AudioUtils CodecFacts Notions.

(** C3, as stated, fails: this sample comes back more than 1/32768 away. *)
Lemma round_trip_exceeds_one_step :
  -1 <= edgeSample <= 1
  /\ roundTrip [edgeSample] = Some [32766 # 32768]
  /\ (1 # 32768) < Qabs ((32766 # 32768) - edgeSample).
Proof.
  split; [ split; discriminate | ].
  split; vm_compute; reflexivity.
Qed.

Lemma to_int16_in_range (s : Q) :
  -1 <= s <= 1 -> to_int16 s = round (s * 32767).
Proof.
  intros Hs. unfold to_int16, round. apply Qfloor_comp.
  rewrite (clamp_id s Hs). reflexivity.
Qed.

Lemma flat_map_agree {A B : Type} (P : A -> Prop) (f g : A -> list B)
  (l : list A) :
  Forall P l -> (forall x, P x -> f x = g x) -> flat_map f l = flat_map g l.
Proof.
  intros Hl Hfg. induction Hl as [|x l Hx _ IH]; [ reflexivity | ].
  cbn. rewrite (Hfg x Hx), IH. reflexivity.
Qed.

Lemma map_agree {A B : Type} (P : A -> Prop) (f g : A -> B) (l : list A) :
  Forall P l -> (forall x, P x -> f x = g x) -> map f l = map g l.
Proof.
  intros Hl Hfg. induction Hl as [|x l Hx _ IH]; [ reflexivity | ].
  cbn. rewrite (Hfg x Hx), IH. reflexivity.
Qed.

Lemma decode_fails_iff (bytes : list byte) (rate : positive) (channels : nat) :
  (exists e, decode bytes rate channels = inl e)
  <-> ~ Nat.divide (2 * channels) (length bytes).
Proof.
  unfold decode. rewrite <- Nat.Lcm0.mod_divide.
  destruct (Nat.eqb_spec (length bytes mod (2 * channels)) 0) as [E | E].
  - split; [ intros [e He]; discriminate He | tauto ].
  - split; [ tauto | intros _; eexists; reflexivity ].
Qed.

(** C3, amended.  A non-empty array of samples in [-1,1] is encoded as
    the little-endian 16-bit integers [round(s * 32767)] under the MIME
    type [audio/pcm;rate=16000]; decoding reads each as [v / 32768]; the
    round trip returns every sample to within 1.5/32768 (half a step of
    rounding and one step between the two scale factors).  Decoding fails
    exactly when the byte length is not a multiple of [2 * channels]. *)
Theorem codec_round_trip (a : list Q) (bytes : list byte) (rate : positive)
  (channels : nat) :
  a <> [] ->
  Forall (fun s => -1 <= s <= 1) a ->
  (exists chunk buf,
      encode a = Some chunk
      /\ mimeType chunk = "audio/pcm;rate=16000"%string
      /\ data chunk
         = flat_map (fun s => let v := round (s * 32767) in
                              [byte.of_Z v; byte.of_Z (Z.shiftr v 8)]) a
      /\ pcm16_samples (data chunk) = map (fun s => round (s * 32767)) a
      /\ decode (data chunk) defaultRate defaultChannels = inr buf
      /\ samples buf
         = map (fun s => inject_Z (round (s * 32767)) / 32768) a
      /\ roundTrip a = Some (samples buf)
      /\ Forall2 (fun s s' => Qabs (s' - s) <= 3 # 65536) a (samples buf))
  /\ ((exists e, decode bytes rate channels = inl e)
      <-> ~ Nat.divide (2 * channels) (length bytes)).
Proof.
  intros Hne Hall. split; [ | apply decode_fails_iff ].
  destruct a as [|s0 a0]; [ congruence | ].
  set (a := s0 :: a0) in *.
  exists (createPcmBlob a).
  exists {| samples := map from_int16 (pcm16_samples (data (createPcmBlob a)));
            sampleRate := defaultRate; numberOfChannels := defaultChannels |}.
  assert (Hdec : decode (data (createPcmBlob a)) defaultRate defaultChannels
                 = inr {| samples := map from_int16
                                       (pcm16_samples (data (createPcmBlob a)));
                          sampleRate := defaultRate;
                          numberOfChannels := defaultChannels |}).
  { unfold decode. cbn [createPcmBlob data]. rewrite length_encoded.
    unfold defaultChannels.
    replace ((2 * length a) mod (2 * 1))%nat with 0%nat; [ reflexivity | ].
    symmetry. apply Nat.Lcm0.mod_divide. exists (length a). lia. }
  assert (Hpcm : pcm16_samples (data (createPcmBlob a))
                 = map (fun s => round (s * 32767)) a).
  { cbn [createPcmBlob data]. rewrite pcm16_encode.
    apply (map_agree _ _ _ _ Hall). intros x Hx. apply to_int16_in_range, Hx. }
  split; [ reflexivity | ].
  split; [ reflexivity | ].
  split.
  { cbn [createPcmBlob data].
    apply (flat_map_agree _ _ _ _ Hall). intros x Hx.
    unfold int16_le. rewrite (to_int16_in_range x Hx). reflexivity. }
  split; [ exact Hpcm | ].
  split; [ exact Hdec | ].
  cbn [samples]. rewrite Hpcm, map_map.
  split; [ reflexivity | ].
  split.
  { unfold roundTrip. subst a. cbn [encode]. rewrite Hdec. cbn [samples].
    rewrite Hpcm, map_map. reflexivity. }
  clear Hdec Hpcm Hne. clearbody a.
  induction Hall as [|x l Hx _ IH]; cbn [map]; constructor; [ | exact IH ].
  rewrite <- (to_int16_in_range x Hx).
  apply (quantisation_error x Hx).
Qed.

Lemma codec_round_trip_witness :
  (exists chunk buf,
      encode [1 # 2; -1; 1; 0; edgeSample] = Some chunk
      /\ mimeType chunk = "audio/pcm;rate=16000"%string
      /\ data chunk
         = flat_map (fun s => let v := round (s * 32767) in
                              [byte.of_Z v; byte.of_Z (Z.shiftr v 8)])
             [1 # 2; -1; 1; 0; edgeSample]
      /\ pcm16_samples (data chunk)
         = map (fun s => round (s * 32767)) [1 # 2; -1; 1; 0; edgeSample]
      /\ decode (data chunk) defaultRate defaultChannels = inr buf
      /\ samples buf
         = map (fun s => inject_Z (round (s * 32767)) / 32768)
             [1 # 2; -1; 1; 0; edgeSample]
      /\ roundTrip [1 # 2; -1; 1; 0; edgeSample] = Some (samples buf)
      /\ Forall2 (fun s s' => Qabs (s' - s) <= 3 # 65536)
           [1 # 2; -1; 1; 0; edgeSample] (samples buf))
  /\ ((exists e, decode [Byte.x01; Byte.x02; Byte.x03] 24000 1 = inl e)
      <-> ~ Nat.divide (2 * 1) (length [Byte.x01; Byte.x02; Byte.x03])).
Proof.
  apply (codec_round_trip [1 # 2; -1; 1; 0; edgeSample]
           [Byte.x01; Byte.x02; Byte.x03] 24000 1).
  - discriminate.
  - repeat constructor; discriminate.
Defined.

End RoundTripFacts.

(* ------------------------------------------------------------------ *)
(** * The session index: order of the listing *)

Module SessionListFacts.
Import Types LocalStorage StorageService.

(** Newest first. *)
Definition newerFirst (a b : ChatSession) : Prop :=
  (session_timestamp b <= session_timestamp a)%Z.

Lemma insertSession_perm (a : ChatSession) (l : list ChatSession) :
  Permutation (a :: l) (insertSession a l).
Proof.
  induction l as [|b l IH]; cbn [insertSession]; [ reflexivity | ].
  destruct (session_timestamp b <=? session_timestamp a)%Z; [ reflexivity | ].
  rewrite perm_swap. apply perm_skip. exact IH.
Qed.

Lemma sortSessions_perm (l : list ChatSession) :
  Permutation l (sortSessions l).
Proof.
  induction l as [|a l IH]; cbn; [ reflexivity | ].
  rewrite <- insertSession_perm. apply perm_skip. exact IH.
Qed.

Lemma insertSession_sorted (a : ChatSession) (l : list ChatSession) :
  StronglySorted newerFirst l -> StronglySorted newerFirst (insertSession a l).
Proof.
  induction 1 as [|b l Hl IH Hb]; cbn [insertSession].
  - repeat constructor.
  - destruct (Z.leb_spec (session_timestamp b) (session_timestamp a)) as [Hle | Hgt].
    + constructor; [ constructor; assumption | ].
      constructor; [ exact Hle | ].
      eapply Forall_impl; [ | exact Hb ].
      intros c Hc. unfold newerFirst in *. lia.
    + constructor; [ exact IH | ].
      rewrite <- insertSession_perm. constructor; [ | exact Hb ].
      unfold newerFirst. lia.
Qed.

Lemma sortSessions_sorted (l : list ChatSession) :
  StronglySorted newerFirst (sortSessions l).
Proof.
  induction l as [|a l IH]; cbn; [ constructor | ].
  apply insertSession_sorted, IH.
Qed.

(** Inserting in front of a list none of whose members is newer. *)
Lemma insertSession_front (a : ChatSession) (l : list ChatSession) :
  Forall (newerFirst a) l -> insertSession a l = a :: l.
Proof.
  intros H. destruct l as [|b l]; [ reflexivity | ].
  cbn [insertSession]. inversion H as [|? ? Hb _]; subst.
  unfold newerFirst in Hb.
  destruct (Z.leb_spec (session_timestamp b) (session_timestamp a)); [ reflexivity | lia ].
Qed.

Lemma sortSessions_of_sorted (l : list ChatSession) :
  StronglySorted newerFirst l -> sortSessions l = l.
Proof.
  induction 1 as [|a l Hl IH Ha]; [ reflexivity | ].
  change (sortSessions (a :: l)) with (insertSession a (sortSessions l)).
  rewrite IH. apply insertSession_front, Ha.
Qed.


Lemma filter_insertSession (p : ChatSession -> bool) (a : ChatSession)
  (l : list ChatSession) :
  StronglySorted newerFirst l ->
  filter p (insertSession a l)
  = if p a then insertSession a (filter p l) else filter p l.
Proof.
  induction 1 as [|b l Hl IH Hb]; cbn [insertSession filter].
  - destruct (p a); reflexivity.
  - destruct (Z.leb_spec (session_timestamp b) (session_timestamp a)) as [Hle | Hgt].
    + cbn [filter]. destruct (p a) eqn:Ea; [ | reflexivity ].
      destruct (p b) eqn:Eb.
      * cbn [insertSession].
        destruct (Z.leb_spec (session_timestamp b) (session_timestamp a));
          [ reflexivity | lia ].
      * symmetry. apply insertSession_front.
        apply Forall_forall. intros x Hx. apply filter_In in Hx.
        rewrite Forall_forall in Hb. pose proof (Hb x (proj1 Hx)).
        unfold newerFirst in *. lia.
    + cbn [filter]. rewrite IH. destruct (p a) eqn:Ea, (p b) eqn:Eb; try reflexivity.
      cbn [insertSession].
      destruct (Z.leb_spec (session_timestamp b) (session_timestamp a));
        [ lia | reflexivity ].
Qed.

(** Sorting and selecting commute: selection keeps the relative order. *)
Lemma filter_sortSessions (p : ChatSession -> bool) (l : list ChatSession) :
  filter p (sortSessions l) = sortSessions (filter p l).
Proof.
  induction l as [|a l IH]; [ reflexivity | ].
  cbn [sortSessions fold_right filter].
  change (fold_right insertSession [] l) with (sortSessions l).
  rewrite filter_insertSession by apply sortSessions_sorted.
  rewrite IH. destruct (p a); reflexivity.
Qed.

Lemma same_age_sorted (t : Z) (l : list ChatSession) :
  StronglySorted newerFirst
    (filter (fun s => (session_timestamp s =? t)%Z) l).
Proof.
  induction l as [|a l IH]; cbn; [ constructor | ].
  destruct (Z.eqb_spec (session_timestamp a) t) as [Ea | Ea]; [ | exact IH ].
  constructor; [ exact IH | ].
  apply Forall_forall. intros x Hx. apply filter_In in Hx.
  destruct Hx as [_ Hx]. apply Z.eqb_eq in Hx. unfold newerFirst. lia.
Qed.

(** X1.  When the index holds an array of sessions, the listing is ordered
    newest first and is a rearrangement of the stored array in which
    sessions of equal age keep their stored order; when the index is absent,
    the empty text, the text of an empty array or a text that [JSON.parse]
    rejects, the listing is empty.  Nothing is said of an index that holds
    an array of messages or some other text. *)
Theorem getChatSessions_listing (ls : Storage) :
  match getItem ls SESSIONS with
  | Some (SessionsJson stored) =>
      StronglySorted newerFirst (getChatSessions ls)
      /\ Permutation stored (getChatSessions ls)
      /\ (forall t,
            filter (fun s => (session_timestamp s =? t)%Z)
              (getChatSessions ls)
            = filter (fun s => (session_timestamp s =? t)%Z) stored)
  | None | Some (Text EmptyString) | Some (MessagesJson []) | Some Invalid =>
      getChatSessions ls = []
  | Some (MessagesJson (_ :: _)) | Some (Text (String _ _)) => True
  end.
Proof.
  unfold getChatSessions.
  destruct (getItem ls SESSIONS) as [[stored | [|m msgs] | [|c raw] | ]|]; cbn;
    try reflexivity; try exact I.
  split; [ apply sortSessions_sorted | ].
  split; [ apply sortSessions_perm | ].
  intros t. rewrite filter_sortSessions.
  apply sortSessions_of_sorted, same_age_sorted.
Qed.

End SessionListFacts.

(* ------------------------------------------------------------------ *)
(** * The store: saving, loading, deleting *)

Module StorageFacts.
Import Types LocalStorage StorageService StoreNotions SessionListFacts.
Import coqutil.Map.Interface coqutil.Map.Properties.
#[local] Existing Instance coqutil.Map.SortedListString.ok.

Lemma getItem_setItem (quota : Quota) (ls ls' : Storage) (k k' : string)
  (v : Item) :
  setItem quota ls k v = Some ls' ->
  getItem ls' k' = if (k =? k')%string then Some v else getItem ls k'.
Proof.
  unfold setItem, getItem. destruct (quota ls k v); [ | discriminate ].
  intros H. assert (E : ls' = map.put ls k v) by congruence. rewrite E.
  clear H E. destruct (String.eqb_spec k k') as [-> | Hne].
  - apply map.get_put_same.
  - apply map.get_put_diff. congruence.
Qed.

Lemma getItem_removeItem (ls : Storage) (k k' : string) :
  getItem (removeItem ls k) k'
  = if (k =? k')%string then None else getItem ls k'.
Proof.
  unfold removeItem, getItem. destruct (String.eqb_spec k k') as [-> | Hne].
  - apply map.get_remove_same.
  - apply map.get_remove_diff. congruence.
Qed.

Lemma index_not_messagesKey (sessionId : string) :
  (SESSIONS =? messagesKey sessionId)%string = false.
Proof. reflexivity. Qed.

Lemma messagesKey_not_index (sessionId : string) :
  (messagesKey sessionId =? SESSIONS)%string = false.
Proof. reflexivity. Qed.

Lemma messagesKey_eqb (a b : string) :
  (messagesKey a =? messagesKey b)%string = (a =? b)%string.
Proof. reflexivity. Qed.

Lemma messagesKey_prefix (sessionId : string) :
  prefix MESSAGES_PREFIX (messagesKey sessionId) = true.
Proof. destruct sessionId; reflexivity. Qed.

Lemma loadChatMessages_get (ls ls' : Storage) (sessionId : string) :
  getItem ls' (messagesKey sessionId) = getItem ls (messagesKey sessionId) ->
  loadChatMessages ls' sessionId = loadChatMessages ls sessionId.
Proof. unfold loadChatMessages. intros ->. reflexivity. Qed.

Lemma getChatSessions_index (ls : Storage) (stored : list ChatSession) :
  storedIndex ls = Some stored -> getChatSessions ls = sortSessions stored.
Proof.
  unfold storedIndex, getChatSessions.
  destruct (getItem ls SESSIONS) as [[l | [|m l] | [|c raw] | ]|]; cbn;
    try discriminate; intros [= <-]; reflexivity.
Qed.

Lemma performSave_steps (quota : Quota) (now : Z) (ls : Storage)
  (sessionId : string) (messages : list Message) (mode : ChatMode)
  (stored : list ChatSession) :
  sessionId <> EmptyString ->
  storedIndex ls = Some stored ->
  performSave quota now ls sessionId messages mode
  = match setItem quota ls SESSIONS
            (SessionsJson
               (upsert {| session_id := sessionId;
                          title := computeTitle messages;
                          session_timestamp := now; mode := mode |} stored)) with
    | None => ls
    | Some ls1 =>
        match setItem quota ls1 (messagesKey sessionId)
                (MessagesJson messages) with
        | None => ls1
        | Some ls2 => ls2
        end
    end.
Proof.
  intros Hid Hidx. unfold performSave.
  destruct sessionId as [|c rest]; [ congruence | ].
  unfold storedIndex in Hidx.
  destruct (getItem ls SESSIONS) as [[l | [|m l] | [|c0 raw] | ]|]; cbn in *;
    try discriminate; injection Hidx as <-; reflexivity.
Qed.

(** What the store holds after a save both of whose writes are accepted. *)
Lemma performSave_written (quota : Quota) (now : Z) (ls : Storage)
  (sessionId : string) (messages : list Message) (mode : ChatMode)
  (stored : list ChatSession) (k : string) :
  sessionId <> EmptyString ->
  storedIndex ls = Some stored ->
  (forall st k v, quota st k v = true) ->
  getItem (performSave quota now ls sessionId messages mode) k
  = if (messagesKey sessionId =? k)%string then Some (MessagesJson messages)
    else if (SESSIONS =? k)%string
         then Some (SessionsJson
                      (upsert {| session_id := sessionId;
                                 title := computeTitle messages;
                                 session_timestamp := now; mode := mode |}
                         stored))
         else getItem ls k.
Proof.
  intros Hid Hidx Hq.
  rewrite (performSave_steps _ _ _ _ _ _ _ Hid Hidx).
  destruct (setItem quota ls SESSIONS _) as [ls1|] eqn:E1;
    [ | unfold setItem in E1; rewrite Hq in E1; discriminate ].
  destruct (setItem quota ls1 (messagesKey sessionId) (MessagesJson messages))
    as [ls2|] eqn:E2; [ | unfold setItem in E2; rewrite Hq in E2; discriminate ].
  rewrite (getItem_setItem _ _ _ _ k _ E2), (getItem_setItem _ _ _ _ k _ E1).
  reflexivity.
Qed.

(** X2.  Saving and loading: with a session id that is not empty, an index
    that is absent, empty or an array, and both writes accepted, the saved
    messages are what [loadChatMessages] returns for that session, the index
    holds the session's entry, and every other key keeps its text. *)
Theorem performSave_round_trip (quota : Quota) (now : Z) (ls : Storage)
  (sessionId : string) (messages : list Message) (mode : ChatMode)
  (stored : list ChatSession) :
  sessionId <> EmptyString ->
  storedIndex ls = Some stored ->
  (forall st k v, quota st k v = true) ->
  let entry := {| session_id := sessionId; title := computeTitle messages;
                  session_timestamp := now; mode := mode |} in
  let ls' := performSave quota now ls sessionId messages mode in
  loadChatMessages ls' sessionId = messages
  /\ getItem ls' SESSIONS = Some (SessionsJson (upsert entry stored))
  /\ (forall other, other <> sessionId ->
        loadChatMessages ls' other = loadChatMessages ls other)
  /\ (forall k, k <> SESSIONS -> k <> messagesKey sessionId ->
        getItem ls' k = getItem ls k).
Proof.
  intros Hid Hidx Hq entry ls'. subst ls'.
  rewrite (performSave_steps _ _ _ _ _ _ _ Hid Hidx). fold entry.
  destruct (setItem quota ls SESSIONS (SessionsJson (upsert entry stored)))
    as [ls1|] eqn:E1; [ | unfold setItem in E1; rewrite Hq in E1; discriminate ].
  destruct (setItem quota ls1 (messagesKey sessionId) (MessagesJson messages))
    as [ls2|] eqn:E2; [ | unfold setItem in E2; rewrite Hq in E2; discriminate ].
  pose proof (fun k' => getItem_setItem _ _ _ _ k' _ E1) as G1.
  pose proof (fun k' => getItem_setItem _ _ _ _ k' _ E2) as G2.
  repeat split.
  - unfold loadChatMessages. rewrite G2, String.eqb_refl. reflexivity.
  - rewrite G2, messagesKey_not_index, G1, String.eqb_refl. reflexivity.
  - intros other Hne. apply loadChatMessages_get.
    rewrite G2, messagesKey_eqb.
    destruct (String.eqb_spec sessionId other); [ congruence | ].
    rewrite G1, index_not_messagesKey. reflexivity.
  - intros k Hk1 Hk2. rewrite G2.
    destruct (String.eqb_spec (messagesKey sessionId) k); [ congruence | ].
    rewrite G1. destruct (String.eqb_spec SESSIONS k); [ congruence | reflexivity ].
Qed.

Lemma performSave_round_trip_witness :
  let ls' := performSave unlimited 42 map.empty "s1" [question; answer] DEFAULT in
  loadChatMessages ls' "s1" = [question; answer]
  /\ getItem ls' SESSIONS
     = Some (SessionsJson
               (upsert {| session_id := "s1";
                          title := computeTitle [question; answer];
                          session_timestamp := 42; mode := DEFAULT |} []))
  /\ (forall other, other <> "s1"%string ->
        loadChatMessages ls' other = loadChatMessages map.empty other)
  /\ (forall k, k <> SESSIONS -> k <> messagesKey "s1" ->
        getItem ls' k = getItem map.empty k).
Proof.
  apply (performSave_round_trip unlimited 42 map.empty "s1" [question; answer]
           DEFAULT []).
  - discriminate.
  - reflexivity.
  - reflexivity.
Defined.

Lemma upsert_cons (d s : ChatSession) (l : list ChatSession) :
  upsert d (s :: l)
  = if hasId (session_id d) s then d :: l else s :: upsert d l.
Proof.
  unfold upsert, hasId. cbn [findIndex].
  destruct (session_id s =? session_id d)%string; [ reflexivity | ].
  destruct (findIndex (session_id d) l); reflexivity.
Qed.

Lemma upsert_In (d : ChatSession) (l : list ChatSession) : In d (upsert d l).
Proof.
  induction l as [|s l IH]; [ left; reflexivity | ].
  rewrite upsert_cons. destruct (hasId (session_id d) s).
  - left. reflexivity.
  - right. exact IH.
Qed.

(** X3.  Saving is not atomic: when the write of the index is accepted and
    the write of the messages is refused, the index lists the session while
    its messages, and every other key, are as before. *)
Theorem performSave_refused_messages (quota : Quota) (now : Z) (ls : Storage)
  (sessionId : string) (messages : list Message) (mode : ChatMode)
  (stored : list ChatSession) :
  sessionId <> EmptyString ->
  storedIndex ls = Some stored ->
  (forall st v, quota st SESSIONS v = true) ->
  (forall st v, quota st (messagesKey sessionId) v = false) ->
  let entry := {| session_id := sessionId; title := computeTitle messages;
                  session_timestamp := now; mode := mode |} in
  let ls' := performSave quota now ls sessionId messages mode in
  getItem ls' SESSIONS = Some (SessionsJson (upsert entry stored))
  /\ In entry (getChatSessions ls')
  /\ loadChatMessages ls' sessionId = loadChatMessages ls sessionId
  /\ (forall k, k <> SESSIONS -> getItem ls' k = getItem ls k).
Proof.
  intros Hid Hidx Hq1 Hq2 entry ls'. subst ls'.
  rewrite (performSave_steps _ _ _ _ _ _ _ Hid Hidx). fold entry.
  destruct (setItem quota ls SESSIONS (SessionsJson (upsert entry stored)))
    as [ls1|] eqn:E1; [ | unfold setItem in E1; rewrite Hq1 in E1; discriminate ].
  destruct (setItem quota ls1 (messagesKey sessionId) (MessagesJson messages))
    as [ls2|] eqn:E2; [ unfold setItem in E2; rewrite Hq2 in E2; discriminate | ].
  pose proof (fun k' => getItem_setItem _ _ _ _ k' _ E1) as G1.
  assert (Hidx1 : getItem ls1 SESSIONS
                  = Some (SessionsJson (upsert entry stored))).
  { rewrite G1, String.eqb_refl. reflexivity. }
  repeat split.
  - exact Hidx1.
  - unfold getChatSessions. rewrite Hidx1. cbn.
    apply (Permutation_in _ (sortSessions_perm _)), upsert_In.
  - apply loadChatMessages_get. rewrite G1, index_not_messagesKey. reflexivity.
  - intros k Hk. rewrite G1.
    destruct (String.eqb_spec SESSIONS k); [ congruence | reflexivity ].
Qed.

Lemma performSave_refused_messages_witness :
  let quota : Quota := fun _ k _ => (k =? SESSIONS)%string in
  let ls' := performSave quota 42 map.empty "s1" [question] DEFAULT in
  getItem ls' SESSIONS
  = Some (SessionsJson
            (upsert {| session_id := "s1"; title := computeTitle [question];
                       session_timestamp := 42; mode := DEFAULT |} []))
  /\ In {| session_id := "s1"; title := computeTitle [question];
           session_timestamp := 42; mode := DEFAULT |} (getChatSessions ls')
  /\ loadChatMessages ls' "s1" = loadChatMessages map.empty "s1"
  /\ (forall k, k <> SESSIONS -> getItem ls' k = getItem map.empty k).
Proof.
  apply (performSave_refused_messages (fun _ k _ => (k =? SESSIONS)%string)
           42 map.empty "s1" [question] DEFAULT []).
  - discriminate.
  - reflexivity.
  - reflexivity.
  - reflexivity.
Defined.

(** X4.  Saving writes nothing when the session id is empty, when the
    index holds a text that [JSON.parse] rejects, or when the write of the
    index is refused; in particular a rejected index blocks every later
    save. *)
Theorem performSave_nothing_written (quota : Quota) (now : Z) (ls : Storage)
  (sessionId : string) (messages : list Message) (mode : ChatMode) :
  sessionId = EmptyString
  \/ getItem ls SESSIONS = Some Invalid
  \/ (forall v, quota ls SESSIONS v = false) ->
  performSave quota now ls sessionId messages mode = ls.
Proof.
  intros [-> | [Hidx | Hq]]; [ reflexivity | | ].
  - unfold performSave. destruct sessionId; [ reflexivity | ].
    rewrite Hidx. reflexivity.
  - unfold performSave. destruct sessionId; [ reflexivity | ].
    destruct (if nonEmpty (getItem ls SESSIONS) then _ else _);
      try reflexivity.
    unfold setItem. rewrite Hq. reflexivity.
Qed.

Lemma performSave_nothing_written_witness :
  performSave unlimited 42 (map.put map.empty SESSIONS Invalid)
    "s1" [question] DEFAULT
  = map.put map.empty SESSIONS Invalid.
Proof.
  apply (performSave_nothing_written unlimited 42
           (map.put map.empty SESSIONS Invalid) "s1" [question] DEFAULT).
  right. left. reflexivity.
Defined.

Lemma upsert_others (d : ChatSession) (l : list ChatSession) :
  filter (fun s => negb (hasId (session_id d) s)) (upsert d l)
  = filter (fun s => negb (hasId (session_id d) s)) l.
Proof.
  induction l as [|s l IH].
  - cbn. unfold hasId. rewrite String.eqb_refl. reflexivity.
  - rewrite upsert_cons. destruct (hasId (session_id d) s) eqn:E.
    + cbn [filter]. rewrite E. unfold hasId at 1. rewrite String.eqb_refl.
      reflexivity.
    + cbn [filter]. rewrite E, IH. reflexivity.
Qed.

Lemma filter_absent (sessionId : string) (l : list ChatSession) :
  ~ In sessionId (List.map session_id l) -> filter (hasId sessionId) l = [].
Proof.
  induction l as [|s l IH]; intros Hnot; [ reflexivity | ].
  cbn in *. unfold hasId at 1.
  destruct (String.eqb_spec (session_id s) sessionId) as [E | E].
  - exfalso. apply Hnot. left. exact E.
  - apply IH. intros H. apply Hnot. right. exact H.
Qed.

Lemma upsert_own (d : ChatSession) (l : list ChatSession) :
  NoDup (List.map session_id l) ->
  filter (hasId (session_id d)) (upsert d l) = [d].
Proof.
  induction l as [|s l IH]; intros Hnd.
  - cbn. unfold hasId. rewrite String.eqb_refl. reflexivity.
  - inversion Hnd as [|? ? Hnot Hrest]; subst.
    rewrite upsert_cons. destruct (hasId (session_id d) s) eqn:E.
    + cbn [filter]. unfold hasId at 1. rewrite String.eqb_refl.
      unfold hasId in E. apply String.eqb_eq in E. rewrite E in Hnot.
      rewrite (filter_absent _ _ Hnot). reflexivity.
    + cbn [filter]. rewrite E. apply IH, Hrest.
Qed.

Lemma upsert_ids (d : ChatSession) (l : list ChatSession) :
  NoDup (List.map session_id l) -> NoDup (List.map session_id (upsert d l)).
Proof.
  induction l as [|s l IH]; intros Hnd.
  - cbn. constructor; [ intros [] | constructor ].
  - inversion Hnd as [|? ? Hnot Hrest]; subst.
    rewrite upsert_cons. destruct (hasId (session_id d) s) eqn:E.
    + unfold hasId in E. apply String.eqb_eq in E. cbn. rewrite <- E.
      exact Hnd.
    + cbn. constructor; [ | apply IH, Hrest ].
      intros Hin. apply in_map_iff in Hin. destruct Hin as (x & Hx & Hin).
      assert (Hcase : hasId (session_id d) x = true \/ hasId (session_id d) x = false)
        by (destruct (hasId (session_id d) x); auto).
      destruct Hcase as [Hown | Hother].
      * assert (Hf : In x (filter (hasId (session_id d)) (upsert d l)))
          by (apply filter_In; auto).
        rewrite (upsert_own d l Hrest) in Hf. destruct Hf as [<- | []].
        unfold hasId in E. rewrite Hx, String.eqb_refl in E. discriminate.
      * assert (Hf : In x (filter (fun s => negb (hasId (session_id d) s))
                             (upsert d l)))
          by (apply filter_In; rewrite Hother; auto).
        rewrite upsert_others in Hf. apply filter_In in Hf.
        apply Hnot. rewrite <- Hx. apply in_map, Hf.
Qed.

(** X5.  The index after a save: when the stored sessions have distinct
    ids, the listing shows the saved session exactly once, with the computed
    title, the time of the save and the mode; the other sessions are listed
    as before, in the same order; and the ids are still distinct. *)
Theorem performSave_index (quota : Quota) (now : Z) (ls : Storage)
  (sessionId : string) (messages : list Message) (mode : ChatMode)
  (stored : list ChatSession) :
  sessionId <> EmptyString ->
  storedIndex ls = Some stored ->
  NoDup (List.map session_id stored) ->
  (forall st k v, quota st k v = true) ->
  let ls' := performSave quota now ls sessionId messages mode in
  filter (hasId sessionId) (getChatSessions ls')
  = [{| session_id := sessionId; title := computeTitle messages;
        session_timestamp := now; mode := mode |}]
  /\ filter (fun s => negb (hasId sessionId s)) (getChatSessions ls')
     = filter (fun s => negb (hasId sessionId s)) (getChatSessions ls)
  /\ NoDup (List.map session_id (getChatSessions ls')).
Proof.
  intros Hid Hidx Hnd Hq ls'.
  pose proof (performSave_written quota now ls sessionId messages mode stored
                SESSIONS Hid Hidx Hq) as Hget.
  rewrite messagesKey_not_index, String.eqb_refl in Hget.
  fold ls' in Hget.
  set (entry := {| session_id := sessionId; title := computeTitle messages;
                   session_timestamp := now; mode := mode |}) in *.
  assert (Hlist : getChatSessions ls' = sortSessions (upsert entry stored)).
  { apply getChatSessions_index. unfold storedIndex. rewrite Hget. reflexivity. }
  rewrite Hlist, (getChatSessions_index ls stored Hidx).
  rewrite !filter_sortSessions.
  change sessionId with (session_id entry).
  rewrite (upsert_own entry stored Hnd), upsert_others.
  repeat split.
  eapply Permutation_NoDup.
  - apply Permutation_map, sortSessions_perm.
  - apply upsert_ids, Hnd.
Qed.

Lemma performSave_index_witness :
  let old := {| session_id := "s0"; title := "Earlier";
                session_timestamp := 7; mode := IMAGE_GEN |} in
  let ls := map.put map.empty SESSIONS (SessionsJson [old]) in
  let ls' := performSave unlimited 42 ls "s1" [question; answer] DEFAULT in
  filter (hasId "s1") (getChatSessions ls')
  = [{| session_id := "s1"; title := computeTitle [question; answer];
        session_timestamp := 42; mode := DEFAULT |}]
  /\ filter (fun s => negb (hasId "s1" s)) (getChatSessions ls')
     = filter (fun s => negb (hasId "s1" s)) (getChatSessions ls)
  /\ NoDup (List.map session_id (getChatSessions ls')).
Proof.
  apply (performSave_index unlimited 42
           (map.put map.empty SESSIONS
              (SessionsJson [{| session_id := "s0"; title := "Earlier";
                                session_timestamp := 7; mode := IMAGE_GEN |}]))
           "s1" [question; answer] DEFAULT
           [{| session_id := "s0"; title := "Earlier";
               session_timestamp := 7; mode := IMAGE_GEN |}]).
  - discriminate.
  - reflexivity.
  - constructor; [ intros [] | constructor ].
  - reflexivity.
Defined.




Lemma get_fold_remove (ks : list string) (ls : Storage) (k : string) :
  getItem (fold_left removeItem ks ls) k
  = if existsb (String.eqb k) ks then None else getItem ls k.
Proof.
  revert ls. induction ks as [|a ks IH]; intros ls; [ reflexivity | ].
  cbn [fold_left existsb]. rewrite IH, getItem_removeItem.
  rewrite (String.eqb_sym k a).
  destruct (a =? k)%string; cbn; destruct (existsb (String.eqb k) ks); reflexivity.
Qed.

(** X7.  Clearing all data removes the index and every key that starts
    with the messages prefix, and leaves every other key with its text; so
    afterwards the listing is empty and every session loads as empty. *)
Theorem clearAllData_keys (ls : Storage) :
  (forall k,
      getItem (clearAllData ls) k
      = if (k =? SESSIONS)%string || prefix MESSAGES_PREFIX k
        then None else getItem ls k)
  /\ getChatSessions (clearAllData ls) = []
  /\ (forall sessionId, loadChatMessages (clearAllData ls) sessionId = []).
Proof.
  assert (Hkeys : forall k,
             getItem (clearAllData ls) k
             = if (k =? SESSIONS)%string || prefix MESSAGES_PREFIX k
               then None else getItem ls k).
  { intros k. unfold clearAllData. rewrite get_fold_remove.
    set (ls1 := removeItem ls SESSIONS).
    assert (G1 : getItem ls1 k
                 = if (k =? SESSIONS)%string then None else getItem ls k).
    { subst ls1. rewrite getItem_removeItem, (String.eqb_sym k SESSIONS).
      reflexivity. }
    destruct (existsb (String.eqb k) (filter (prefix MESSAGES_PREFIX) (keys ls1)))
      eqn:Ex.
    - apply existsb_exists in Ex. destruct Ex as (x & Hx & Heq).
      apply String.eqb_eq in Heq. subst x. apply filter_In in Hx.
      destruct Hx as [_ Hp]. rewrite Hp, orb_true_r. reflexivity.
    - destruct (prefix MESSAGES_PREFIX k) eqn:Hp.
      + rewrite orb_true_r.
        destruct (getItem ls1 k) as [v|] eqn:Hg; [ | reflexivity ].
        exfalso. apply (map.in_keys ls1 k v) in Hg.
        assert (Hin : In k (filter (prefix MESSAGES_PREFIX) (keys ls1)))
          by (apply filter_In; auto).
        assert (Htrue : existsb (String.eqb k)
                          (filter (prefix MESSAGES_PREFIX) (keys ls1)) = true).
        { apply existsb_exists. exists k. split; [ exact Hin | apply String.eqb_refl ]. }
        congruence.
      + rewrite orb_false_r. exact G1. }
  split; [ exact Hkeys | ]. split.
  - unfold getChatSessions. rewrite Hkeys, String.eqb_refl. reflexivity.
  - intros sessionId. unfold loadChatMessages.
    rewrite Hkeys, messagesKey_prefix, orb_true_r. reflexivity.
Qed.

Lemma length_append (a b : string) :
  String.length (a ++ b) = (String.length a + String.length b)%nat.
Proof. induction a as [|c a IH]; cbn; [ reflexivity | rewrite IH; reflexivity ]. Qed.

Lemma length_substring_le (n : nat) (s : string) :
  (String.length (substring 0 n s) <= n)%nat.
Proof.
  revert s. induction n as [|n IH]; intros s.
  - destruct s; cbn; lia.
  - destruct s as [|c s]; cbn; [ lia | ]. specialize (IH s). lia.
Qed.

Lemma length_substring_pos (n : nat) (s : string) :
  (0 < String.length s)%nat ->
  (0 < String.length (substring 0 (S n) s))%nat.
Proof. destruct s; cbn; lia. Qed.

Lemma plain_append (a b : string) : plain (a ++ b) = plain a && plain b.
Proof.
  unfold plain. induction a as [|c a IH]; cbn; [ reflexivity | ].
  rewrite IH. apply andb_assoc.
Qed.

Lemma plain_stripMarkup (s : string) : plain (stripMarkup s) = true.
Proof.
  unfold plain. induction s as [|c s IH]; cbn; [ reflexivity | ].
  destruct (isMarkup c) eqn:E; [ exact IH | ].
  cbn. rewrite E, IH. reflexivity.
Qed.

Lemma plain_substring (n : nat) (s : string) :
  plain s = true -> plain (substring 0 n s) = true.
Proof.
  unfold plain. revert s. induction n as [|n IH]; intros s H.
  - destruct s; reflexivity.
  - destruct s as [|c s]; cbn in *; [ reflexivity | ].
    apply andb_true_iff in H. destruct H as [Hc Hs].
    rewrite Hc, (IH s Hs). reflexivity.
Qed.

(** X8.  The title given to a saved conversation is never empty, has at
    most 53 characters (50 of the first user message and an ellipsis), and
    holds none of the characters [#], [*], [`], [_], [~]. *)
Theorem computeTitle_shape (messages : list Message) :
  (1 <= String.length (computeTitle messages) <= 53)%nat
  /\ plain (computeTitle messages) = true.
Proof.
  unfold computeTitle.
  destruct (find isUser messages) as [m|].
  - set (txt := stripMarkup (trim (text m))).
    destruct (Nat.ltb_spec 0 (String.length txt)) as [Hpos | Hzero].
    + pose proof (length_substring_le 50 txt) as Hle.
      pose proof (length_substring_pos 49 txt Hpos) as Hge.
      assert (Hclean : plain (substring 0 50 txt) = true)
        by (apply plain_substring, plain_stripMarkup).
      rewrite length_append, plain_append, Hclean.
      destruct (50 <? String.length txt)%nat; cbn [String.length]; split;
        try lia; reflexivity.
    + destruct (attachment m) as [a|]; [ destruct (type a) | ]; cbn; split;
        try lia; reflexivity.
  - destruct (nth_error messages (length messages - 1)) as [lastMsg|].
    + destruct (present (image lastMsg)); [ cbn; split; try lia; reflexivity | ].
      destruct (present (video lastMsg)); cbn; split; try lia; reflexivity.
    + cbn. split; try lia; reflexivity.
Qed.

Example title_of_question :
  computeTitle [answer; question] = " Hello world"%string.
Proof. reflexivity. Qed.

Example title_of_long_text :
  computeTitle
    [{| id := "m"; role := VoiceMode.USER;
        text := "  0123456789012345678901234567890123456789012345678901234  ";
        image := None; video := None; attachment := None;
        timestamp := 1; isThinking := None |}]
  = "01234567890123456789012345678901234567890123456789..."%string.
Proof. reflexivity. Qed.

End StorageFacts.

(* ------------------------------------------------------------------ *)
(** * The store: debounced saving *)

Module DebounceFacts.
Import Types LocalStorage StorageService StoreNotions.
Import coqutil.Map.Interface coqutil.Map.Properties.
#[local] Existing Instance coqutil.Map.SortedListString.ok.

Lemma In_clearTimeout (h : positive) (t : positive * Job)
  (timers : list (positive * Job)) :
  In t (clearTimeout h timers) <-> In t timers /\ fst t <> h.
Proof.
  unfold clearTimeout. rewrite filter_In.
  destruct (Pos.eqb_spec (fst t) h); cbn; intuition congruence.
Qed.

Lemma get_put_table (table : SortedListString.map positive) (s s' : string)
  (h : positive) :
  map.get (map.put table s h) s'
  = if (s =? s')%string then Some h else map.get table s'.
Proof.
  destruct (String.eqb_spec s s') as [-> | Hne].
  - apply map.get_put_same.
  - apply map.get_put_diff. congruence.
Qed.

Lemma get_remove_table (table : SortedListString.map positive) (s s' : string) :
  map.get (map.remove table s) s'
  = if (s =? s')%string then None else map.get table s'.
Proof.
  destruct (String.eqb_spec s s') as [-> | Hne].
  - apply map.get_remove_same.
  - apply map.get_remove_diff. congruence.
Qed.

Lemma timerOf_own (table : SortedListString.map positive) (s : string) :
  s <> PROTO -> timerOf table s = map.get table s.
Proof.
  intros H. unfold timerOf.
  destruct (String.eqb_spec s PROTO); [ contradiction | reflexivity ].
Qed.

Lemma timerOf_get (table : SortedListString.map positive) (s : string)
  (h : positive) :
  timerOf table s = Some h -> s <> PROTO /\ map.get table s = Some h.
Proof.
  unfold timerOf. destruct (String.eqb_spec s PROTO); [ discriminate | auto ].
Qed.

Lemma get_setTimer (table : SortedListString.map positive) (s s' : string)
  (h : positive) :
  s <> PROTO ->
  map.get (setTimer table s h) s'
  = if (s =? s')%string then Some h else map.get table s'.
Proof.
  intros H. unfold setTimer.
  destruct (String.eqb_spec s PROTO); [ contradiction | apply get_put_table ].
Qed.

Lemma get_deleteTimer (table : SortedListString.map positive) (s s' : string) :
  s <> PROTO ->
  map.get (deleteTimer table s) s'
  = if (s =? s')%string then None else map.get table s'.
Proof.
  intros H. unfold deleteTimer.
  destruct (String.eqb_spec s PROTO); [ contradiction | apply get_remove_table ].
Qed.

Lemma NoDup_clearTimeout (h : positive) (timers : list (positive * Job)) :
  NoDup (List.map fst timers) -> NoDup (List.map fst (clearTimeout h timers)).
Proof.
  unfold clearTimeout. induction timers as [|t l IH]; intros H; [ exact H | ].
  inversion H as [|? ? Hnot Hrest]; subst. cbn [filter].
  destruct (negb (fst t =? h)%positive); [ | apply IH, Hrest ].
  cbn. constructor; [ | apply IH, Hrest ].
  intros Hin. apply Hnot. apply in_map_iff in Hin.
  destruct Hin as (x & Hx & Hin). apply filter_In in Hin.
  apply in_map_iff. exists x. tauto.
Qed.

Lemma NoDup_fresh (timers : list (positive * Job)) (h : positive) (job : Job) :
  NoDup (List.map fst timers) ->
  (forall t, In t timers -> fst t <> h) ->
  NoDup (List.map fst (timers ++ [(h, job)])).
Proof.
  intros Hnd Hfresh. rewrite map_app. cbn.
  apply NoDup_app; [ exact Hnd | constructor; [ intros [] | constructor ] | ].
  intros x Hx [<- | []]. apply in_map_iff in Hx.
  destruct Hx as (t & Ht & Hin). exact (Hfresh t Hin Ht).
Qed.

(** Two pending timers with the same handle are the same timer. *)
Lemma handle_unique (timers : list (positive * Job)) (h : positive)
  (a b : Job) :
  NoDup (List.map fst timers) ->
  In (h, a) timers -> In (h, b) timers -> a = b.
Proof.
  induction timers as [|t l IH]; intros Hnd Ha Hb; [ destruct Ha | ].
  inversion Hnd as [|? ? Hnot Hrest]; subst.
  destruct Ha as [Ea | Ha], Hb as [Eb | Hb].
  - congruence.
  - exfalso. apply Hnot. subst t. cbn. change h with (fst (h, b)).
    apply in_map, Hb.
  - exfalso. apply Hnot. subst t. cbn. change h with (fst (h, a)).
    apply in_map, Ha.
  - apply IH; assumption.
Qed.

Lemma find_pending (h : positive) (timers : list (positive * Job))
  (t : positive * Job) :
  find (fun t => (fst t =? h)%positive) timers = Some t ->
  In t timers /\ fst t = h.
Proof.
  intros H. apply find_some in H. destruct H as [Hin Heq].
  apply Pos.eqb_eq in Heq. auto.
Qed.

(** The timer that expires under a handle is the pending one with it. *)
Lemma find_handle (timers : list (positive * Job)) (h : positive) (job : Job) :
  NoDup (List.map fst timers) -> In (h, job) timers ->
  find (fun t => (fst t =? h)%positive) timers = Some (h, job).
Proof.
  intros Hnd Hin.
  destruct (find (fun t => (fst t =? h)%positive) timers) as [[h' job']|] eqn:E.
  - apply find_pending in E. destruct E as [Hin' Hh]. cbn in Hh. subst h'.
    rewrite (handle_unique timers h job job' Hnd Hin Hin'). reflexivity.
  - pose proof (find_none _ _ E _ Hin) as Hf. cbn in Hf.
    rewrite Pos.eqb_refl in Hf. discriminate.
Qed.

Lemma find_cleared (h : positive) (timers : list (positive * Job)) :
  find (fun t => (fst t =? h)%positive) (clearTimeout h timers) = None.
Proof.
  destruct (find _ (clearTimeout h timers)) as [t|] eqn:E; [ | reflexivity ].
  apply find_pending in E. destruct E as [Hin Hh].
  apply In_clearTimeout in Hin. tauto.
Qed.

Lemma tidy_loaded (ls : Storage) : tidy (loaded ls).
Proof.
  unfold tidy, loaded. cbn [pending saveTimers nextHandle].
  repeat split.
  - intros h job [].
  - intros s h H. rewrite map.get_empty in H. discriminate.
  - intros h job [].
  - constructor.
  - intros s h job H. rewrite map.get_empty in H. discriminate.
Qed.

(** The timers [saveChat] keeps are pending ones, and none of them is of
    the session, unless the session is [__proto__]. *)
Lemma kept_timers (sv : Saver) (sessionId : string) (t : positive * Job) :
  tidy sv ->
  In t match timerOf (saveTimers sv) sessionId with
       | Some h => clearTimeout h (pending sv)
       | None => pending sv
       end ->
  In t (pending sv)
  /\ (sessionId <> PROTO -> jobSession (snd t) <> sessionId).
Proof.
  intros (H1 & _) Hin. destruct t as [h job]. cbn [snd].
  destruct (timerOf (saveTimers sv) sessionId) as [h0|] eqn:E.
  - apply In_clearTimeout in Hin. destruct Hin as [Hin Hne].
    split; [ exact Hin | ]. intros Hp Es.
    apply timerOf_get in E. destruct E as [_ E].
    apply Hne. cbn. pose proof (H1 _ _ Hin) as Hg. rewrite Es in Hg.
    specialize (Hg Hp). congruence.
  - split; [ exact Hin | ]. intros Hp Es.
    rewrite (timerOf_own _ _ Hp) in E.
    pose proof (H1 _ _ Hin) as Hg. rewrite Es in Hg.
    specialize (Hg Hp). congruence.
Qed.

Lemma kept_NoDup (sv : Saver) (sessionId : string) :
  tidy sv ->
  NoDup (List.map fst
           match timerOf (saveTimers sv) sessionId with
           | Some h => clearTimeout h (pending sv)
           | None => pending sv
           end).
Proof.
  intros (_ & _ & _ & H4 & _).
  destruct (timerOf (saveTimers sv) sessionId);
    [ apply NoDup_clearTimeout, H4 | exact H4 ].
Qed.

Lemma tidy_saveChat (sv : Saver) (sessionId : string)
  (messages : list Message) (mode : ChatMode) :
  tidy sv -> tidy (saveChat sv sessionId messages mode).
Proof.
  intros Ht. pose proof Ht as (H1 & H2 & H3 & H4 & H5). unfold saveChat.
  destruct messages as [|m0 rest]; [ exact Ht | ].
  cbv zeta. unfold tidy. cbn [pending saveTimers nextHandle].
  assert (Hfresh : forall t,
             In t match timerOf (saveTimers sv) sessionId with
                  | Some h => clearTimeout h (pending sv)
                  | None => pending sv
                  end -> fst t <> nextHandle sv).
  { intros [h job] Hin. apply (kept_timers sv sessionId _ Ht) in Hin.
    destruct Hin as [Hin _]. pose proof (H3 _ _ Hin). cbn. lia. }
  assert (Htable : forall s h,
             map.get (setTimer (saveTimers sv) sessionId (nextHandle sv)) s
             = Some h ->
             (s = sessionId /\ h = nextHandle sv /\ sessionId <> PROTO)
             \/ (map.get (saveTimers sv) s = Some h
                 /\ (sessionId <> PROTO -> s <> sessionId))).
  { intros s h Hg. unfold setTimer in Hg.
    destruct (String.eqb_spec sessionId PROTO) as [Ep | Ep].
    - right. split; [ exact Hg | ]. intros Hp. contradiction.
    - rewrite get_put_table in Hg.
      destruct (String.eqb_spec sessionId s) as [<- | Es].
      + left. injection Hg as <-. auto.
      + right. split; [ exact Hg | ]. intros _ E. apply Es. symmetry. exact E. }
  repeat split.
  - intros h job Hin Hp. apply in_app_or in Hin.
    destruct Hin as [Hin | [Heq | []]].
    + apply (kept_timers sv sessionId _ Ht) in Hin. destruct Hin as [Hin Hs].
      cbn [snd] in Hs. unfold setTimer.
      destruct (String.eqb_spec sessionId PROTO) as [Ep | Ep];
        [ apply H1; assumption | ].
      rewrite get_put_table.
      destruct (String.eqb_spec sessionId (jobSession job)) as [Es | Es].
      * exfalso. apply (Hs Ep). symmetry. exact Es.
      * apply H1; assumption.
    + injection Heq as <- <-. cbn [jobSession] in *.
      rewrite get_setTimer by exact Hp. rewrite String.eqb_refl. reflexivity.
  - intros s h Hg. apply Htable in Hg.
    destruct Hg as [(_ & -> & _) | [Hg _]]; [ lia | ].
    pose proof (H2 _ _ Hg). lia.
  - intros h job Hin. apply in_app_or in Hin.
    destruct Hin as [Hin | [Heq | []]].
    + apply (kept_timers sv sessionId _ Ht) in Hin. destruct Hin as [Hin _].
      pose proof (H3 _ _ Hin). lia.
    + injection Heq as <- _. lia.
  - apply NoDup_fresh; [ apply kept_NoDup, Ht | exact Hfresh ].
  - intros s h job Hg Hin. apply in_app_or in Hin. apply Htable in Hg.
    destruct Hin as [Hin | [Heq | []]].
    + pose proof (Hfresh _ Hin) as Hf. cbn in Hf.
      apply (kept_timers sv sessionId _ Ht) in Hin. destruct Hin as [Hin _].
      destruct Hg as [(_ & -> & _) | [Hg _]]; [ congruence | ].
      eapply H5; eassumption.
    + injection Heq as <- <-. cbn [jobSession].
      destruct Hg as [(-> & _) | [Hg _]]; [ reflexivity | ].
      pose proof (H2 _ _ Hg). lia.
Qed.

Lemma tidy_saveChatImmediately (quota : Quota) (now : Z) (sv : Saver)
  (sessionId : string) (messages : list Message) (mode : ChatMode) :
  tidy sv -> tidy (saveChatImmediately quota now sv sessionId messages mode).
Proof.
  intros Ht. pose proof Ht as (H1 & H2 & H3 & H4 & H5).
  unfold saveChatImmediately.
  destruct messages as [|m0 rest]; [ exact Ht | ].
  unfold tidy. cbn [pending saveTimers nextHandle].
  destruct (timerOf (saveTimers sv) sessionId) as [h0|] eqn:E; cbn [fst snd];
    [ | exact Ht ].
  apply timerOf_get in E. destruct E as [Hp E].
  repeat split.
  - intros h job Hin Hpj. apply In_clearTimeout in Hin. destruct Hin as [Hin Hne].
    rewrite get_deleteTimer by exact Hp.
    destruct (String.eqb_spec sessionId (jobSession job)) as [Es | Es].
    + exfalso. apply Hne. cbn. pose proof (H1 _ _ Hin Hpj) as Hg.
      rewrite <- Es in Hg. congruence.
    + apply H1; assumption.
  - intros s h Hg. rewrite get_deleteTimer in Hg by exact Hp.
    destruct (sessionId =? s)%string; [ discriminate | ]. eapply H2, Hg.
  - intros h job Hin. apply In_clearTimeout in Hin. eapply H3, Hin.
  - apply NoDup_clearTimeout, H4.
  - intros s h job Hg Hin. rewrite get_deleteTimer in Hg by exact Hp.
    destruct (sessionId =? s)%string; [ discriminate | ].
    apply In_clearTimeout in Hin. eapply H5; [ exact Hg | apply Hin ].
Qed.

Lemma tidy_fire (quota : Quota) (now : Z) (sv : Saver) (h : positive) :
  tidy sv -> tidy (fire quota now sv h).
Proof.
  intros Ht. pose proof Ht as (H1 & H2 & H3 & H4 & H5). unfold fire.
  destruct (find _ (pending sv)) as [[h' job]|] eqn:Ef; [ | exact Ht ].
  apply find_pending in Ef. destruct Ef as [Hin Hh]. cbn in Hh. subst h'.
  unfold tidy. cbn [pending saveTimers nextHandle].
  assert (Htable : forall s h1,
             map.get (deleteTimer (saveTimers sv) (jobSession job)) s = Some h1 ->
             map.get (saveTimers sv) s = Some h1).
  { intros s h1 Hg. unfold deleteTimer in Hg.
    destruct (jobSession job =? PROTO)%string; [ exact Hg | ].
    rewrite get_remove_table in Hg.
    destruct (jobSession job =? s)%string; [ discriminate | exact Hg ]. }
  repeat split.
  - intros h1 job1 Hin1 Hp1. apply In_clearTimeout in Hin1.
    destruct Hin1 as [Hin1 Hne]. unfold deleteTimer.
    destruct (String.eqb_spec (jobSession job) PROTO) as [Ep | Ep];
      [ apply H1; assumption | ].
    rewrite get_remove_table.
    destruct (String.eqb_spec (jobSession job) (jobSession job1)) as [Es | Es].
    + exfalso. apply Hne. cbn. pose proof (H1 _ _ Hin Ep) as Hg.
      pose proof (H1 _ _ Hin1 Hp1) as Hg1. rewrite Es in Hg. congruence.
    + apply H1; assumption.
  - intros s h1 Hg. eapply H2, Htable, Hg.
  - intros h1 job1 Hin1. apply In_clearTimeout in Hin1. eapply H3, Hin1.
  - apply NoDup_clearTimeout, H4.
  - intros s h1 job1 Hg Hin1. apply In_clearTimeout in Hin1.
    eapply H5; [ apply Htable, Hg | apply Hin1 ].
Qed.

Lemma tidy_call (sv : Saver) (c : Call) : tidy sv -> tidy (call sv c).
Proof.
  intros H. destruct c; cbn [call].
  - apply tidy_saveChat, H.
  - apply tidy_saveChatImmediately, H.
  - apply tidy_fire, H.
Qed.

Lemma tidy_calls (cs : list Call) (sv : Saver) : tidy sv -> tidy (calls sv cs).
Proof.
  revert sv. induction cs as [|c cs IH]; intros sv H; [ exact H | ].
  cbn [calls fold_left]. apply IH, tidy_call, H.
Qed.

Lemma filter_none {A : Type} (p : A -> bool) (l : list A) :
  (forall x, In x l -> p x = false) -> filter p l = [].
Proof.
  induction l as [|a l IH]; intros H; [ reflexivity | ].
  cbn. rewrite (H a (or_introl eq_refl)). apply IH.
  intros x Hx. apply H. right. exact Hx.
Qed.

Lemma filter_kept {A : Type} (p q : A -> bool) (l : list A) :
  (forall x, In x l -> p x = true -> q x = true) ->
  filter p (filter q l) = filter p l.
Proof.
  induction l as [|a l IH]; intros H; [ reflexivity | ].
  assert (Hl : forall x, In x l -> p x = true -> q x = true)
    by (intros x Hx; apply H; right; exact Hx).
  cbn [filter]. destruct (q a) eqn:Eq.
  - cbn [filter]. destruct (p a); [ f_equal | ]; apply IH, Hl.
  - destruct (p a) eqn:Ep.
    + rewrite (H a (or_introl eq_refl) Ep) in Eq. discriminate.
    + apply IH, Hl.
Qed.

(** The pending saves of a session other than [__proto__] all carry the
    handle of the table. *)
Lemma pendingFor_handle (sv : Saver) (sessionId : string) (t : positive * Job) :
  tidy sv -> sessionId <> PROTO -> In t (pendingFor sessionId sv) ->
  map.get (saveTimers sv) sessionId = Some (fst t).
Proof.
  intros (H1 & _) Hp Hin. unfold pendingFor in Hin. apply filter_In in Hin.
  destruct Hin as [Hin Hs]. apply String.eqb_eq in Hs. destruct t as [h job].
  cbn in *. rewrite <- Hs. apply H1; [ exact Hin | congruence ].
Qed.

Lemma pendingFor_none (sv : Saver) (sessionId : string) :
  tidy sv -> sessionId <> PROTO ->
  map.get (saveTimers sv) sessionId = None ->
  pendingFor sessionId sv = [].
Proof.
  intros Ht Hp Hg. destruct (pendingFor sessionId sv) as [|t l] eqn:E;
    [ reflexivity | ].
  assert (Hin : In t (pendingFor sessionId sv)) by (rewrite E; left; reflexivity).
  pose proof (pendingFor_handle _ _ _ Ht Hp Hin). congruence.
Qed.

(** Cancelling the timer of one session: its pending saves are gone, those
    of the other sessions stay. *)
Lemma clearTimeout_for (sv : Saver) (sessionId other : string) (h0 : positive) :
  tidy sv -> sessionId <> PROTO ->
  map.get (saveTimers sv) sessionId = Some h0 ->
  filter (fun t => (jobSession (snd t) =? other)%string)
    (clearTimeout h0 (pending sv))
  = if (sessionId =? other)%string then [] else pendingFor other sv.
Proof.
  intros Ht Hp Hg. pose proof Ht as (H1 & H2 & H3 & H4 & H5).
  destruct (String.eqb_spec sessionId other) as [<- | Hne].
  - apply filter_none. intros [h job] Hin. apply In_clearTimeout in Hin.
    destruct Hin as [Hin Hh]. cbn in *.
    destruct (String.eqb_spec (jobSession job) sessionId) as [Es | Es];
      [ | reflexivity ].
    exfalso. apply Hh. pose proof (H1 _ _ Hin) as Hj. rewrite Es in Hj.
    specialize (Hj Hp). congruence.
  - unfold pendingFor, clearTimeout. apply filter_kept.
    intros [h job] Hin Hs. cbn in *. apply String.eqb_eq in Hs.
    destruct (Pos.eqb_spec h h0) as [-> | Hh]; [ | reflexivity ].
    exfalso. apply Hne. rewrite <- Hs. symmetry. eapply H5; eassumption.
Qed.

(** What [saveChat] keeps of the pending saves, session by session. *)
Lemma kept_for (sv : Saver) (sessionId other : string) :
  tidy sv ->
  filter (fun t => (jobSession (snd t) =? other)%string)
    match timerOf (saveTimers sv) sessionId with
    | Some h => clearTimeout h (pending sv)
    | None => pending sv
    end
  = if (sessionId =? other)%string && negb (sessionId =? PROTO)%string
    then [] else pendingFor other sv.
Proof.
  intros Ht. destruct (String.eqb_spec sessionId PROTO) as [Ep | Ep].
  - rewrite andb_false_r. unfold timerOf.
    destruct (String.eqb_spec sessionId PROTO); [ reflexivity | contradiction ].
  - rewrite andb_true_r, (timerOf_own _ _ Ep).
    destruct (map.get (saveTimers sv) sessionId) as [h0|] eqn:E.
    + apply clearTimeout_for; assumption.
    + destruct (String.eqb_spec sessionId other) as [<- | Hd]; [ | reflexivity ].
      apply (pendingFor_none sv sessionId Ht Ep E).
Qed.

(** X9.  Debouncing: whatever was called before, after [saveChat] with a
    non-empty list the session has exactly one pending save, carrying the
    messages of this call; nothing is written yet, and the pending saves of
    the other sessions are as they were.  The session id [__proto__] is the
    exception: [saveTimers] never records its timer, so its earlier pending
    saves all stay and the new one is added to them. *)
Theorem saveChat_debounce (ls : Storage) (cs : list Call) (sessionId : string)
  (messages : list Message) (mode : ChatMode) :
  messages <> [] ->
  let sv := calls (loaded ls) cs in
  let sv' := saveChat sv sessionId messages mode in
  pendingFor sessionId sv'
  = (if (sessionId =? PROTO)%string then pendingFor sessionId sv else [])
    ++ [(nextHandle sv, {| jobSession := sessionId; jobMessages := messages;
                           jobMode := mode |})]
  /\ localStorage sv' = localStorage sv
  /\ (forall other, other <> sessionId ->
        pendingFor other sv' = pendingFor other sv).
Proof.
  intros Hne sv sv'.
  assert (Ht : tidy sv) by apply tidy_calls, tidy_loaded.
  subst sv'. unfold saveChat.
  destruct messages as [|m0 rest]; [ congruence | ].
  cbv zeta. cbn [localStorage].
  repeat split.
  - unfold pendingFor at 1. cbn [pending].
    rewrite List.filter_app, (kept_for sv sessionId sessionId Ht).
    rewrite String.eqb_refl. cbn [andb filter snd jobSession].
    rewrite String.eqb_refl.
    destruct (sessionId =? PROTO)%string; reflexivity.
  - intros other Hother. unfold pendingFor at 1. cbn [pending].
    rewrite List.filter_app, (kept_for sv sessionId other Ht).
    cbn [filter snd jobSession].
    destruct (String.eqb_spec sessionId other); [ congruence | ].
    cbn [andb]. apply app_nil_r.
Qed.

Lemma saveChat_debounce_witness :
  let sv := calls (loaded map.empty)
              [Save "s1" [question] DEFAULT; Save "s2" [answer] DEFAULT;
               Save "s1" [question; answer] DEFAULT] in
  let sv' := saveChat sv "s1" [question; answer; question] DEFAULT in
  pendingFor "s1" sv'
  = [(nextHandle sv, {| jobSession := "s1";
                        jobMessages := [question; answer; question];
                        jobMode := DEFAULT |})]
  /\ localStorage sv' = localStorage sv
  /\ (forall other, other <> "s1"%string ->
        pendingFor other sv' = pendingFor other sv).
Proof.
  apply (saveChat_debounce map.empty
           [Save "s1" [question] DEFAULT; Save "s2" [answer] DEFAULT;
            Save "s1" [question; answer] DEFAULT]
           "s1" [question; answer; question] DEFAULT).
  discriminate.
Defined.

(** Two saves under [__proto__] are both pending, a third call cancels
    neither; under another id only the last one is. *)
Example proto_saves_pile_up :
  List.map fst
    (pendingFor PROTO
       (calls (loaded map.empty)
          [Save PROTO [question] DEFAULT; Save PROTO [answer] DEFAULT;
           Save PROTO [question; answer] DEFAULT]))
  = [1; 2; 3]%positive
  /\ List.map fst
       (pendingFor "s1"
          (calls (loaded map.empty)
             [Save "s1" [question] DEFAULT; Save "s1" [answer] DEFAULT;
              Save "s1" [question; answer] DEFAULT]))
     = [3%positive].
Proof. split; reflexivity. Qed.

(** A waiting save stays pending through calls that are apart from it. *)
Lemma waiting_call (sv : Saver) (c : Call) (h : positive) (job : Job) :
  tidy sv -> In (h, job) (pending sv) ->
  apart (jobSession job) h c -> In (h, job) (pending (call sv c)).
Proof.
  intros Ht Hin Hap. pose proof Ht as (H1 & H2 & H3 & H4 & H5).
  destruct c as [s ms md | q n s ms md | q n h']; cbn [call apart] in *.
  - unfold saveChat. destruct ms as [|m0 rest]; [ exact Hin | ].
    cbv zeta. cbn [pending]. apply in_or_app. left.
    destruct (timerOf (saveTimers sv) s) as [h0|] eqn:E; [ | exact Hin ].
    apply timerOf_get in E. destruct E as [_ E].
    apply In_clearTimeout. split; [ exact Hin | ]. cbn. intros ->.
    apply Hap. symmetry. eapply H5; eassumption.
  - unfold saveChatImmediately. destruct ms as [|m0 rest]; [ exact Hin | ].
    cbn [pending].
    destruct (timerOf (saveTimers sv) s) as [h0|] eqn:E; cbn [fst];
      [ | exact Hin ].
    apply timerOf_get in E. destruct E as [_ E].
    apply In_clearTimeout. split; [ exact Hin | ]. cbn. intros ->.
    apply Hap. symmetry. eapply H5; eassumption.
  - unfold fire. destruct (find _ (pending sv)) as [[h1 job1]|]; [ | exact Hin ].
    cbn [pending]. apply In_clearTimeout. split; [ exact Hin | ].
    cbn. congruence.
Qed.

Lemma waiting_calls (cs : list Call) (sv : Saver) (h : positive) (job : Job) :
  tidy sv -> In (h, job) (pending sv) ->
  Forall (apart (jobSession job) h) cs -> In (h, job) (pending (calls sv cs)).
Proof.
  revert sv. induction cs as [|c cs IH]; intros sv Ht Hin Hap; [ exact Hin | ].
  inversion Hap as [|? ? Hc Hcs]; subst. cbn [calls fold_left].
  apply IH; [ apply tidy_call, Ht | apply waiting_call; assumption | exact Hcs ].
Qed.

Lemma saveChat_pending (sv : Saver) (sessionId : string)
  (messages : list Message) (mode : ChatMode) :
  messages <> [] ->
  In (nextHandle sv, {| jobSession := sessionId; jobMessages := messages;
                        jobMode := mode |})
    (pending (saveChat sv sessionId messages mode)).
Proof.
  intros Hne. unfold saveChat. destruct messages; [ congruence | ].
  cbv zeta. cbn [pending]. apply in_or_app. right. left. reflexivity.
Qed.

(** X10.  The debounced save lands: after [saveChat], and after any further
    calls that are neither saves of the same session nor the expiry of its
    timer, the expiry of the timer set by [saveChat] saves the messages of
    that call; with a session id that is not empty and not [__proto__], an
    index that is then absent, empty or an array, and both writes accepted,
    the store holds these messages, the session has no pending save and no
    entry in the timer table, and the pending saves of the other sessions
    are as they were. *)
Theorem debounced_save_lands (ls : Storage) (cs between : list Call)
  (sessionId : string) (messages : list Message) (mode : ChatMode)
  (quota : Quota) (now : Z) (stored : list ChatSession) :
  messages <> [] ->
  sessionId <> EmptyString ->
  sessionId <> PROTO ->
  Forall (apart sessionId (nextHandle (calls (loaded ls) cs))) between ->
  storedIndex
    (localStorage
       (calls (saveChat (calls (loaded ls) cs) sessionId messages mode)
          between))
  = Some stored ->
  (forall st k v, quota st k v = true) ->
  let sv := calls (loaded ls) cs in
  let waiting := calls (saveChat sv sessionId messages mode) between in
  let sv' := fire quota now waiting (nextHandle sv) in
  localStorage sv'
  = performSave quota now (localStorage waiting) sessionId messages mode
  /\ loadChatMessages (localStorage sv') sessionId = messages
  /\ pendingFor sessionId sv' = []
  /\ map.get (saveTimers sv') sessionId = None
  /\ (forall other, other <> sessionId ->
        pendingFor other sv' = pendingFor other waiting).
Proof.
  intros Hne Hid Hp Hap Hidx Hq sv waiting sv'.
  fold sv in Hap. fold sv in Hidx. fold waiting in Hidx.
  set (job := {| jobSession := sessionId; jobMessages := messages;
                 jobMode := mode |}).
  assert (Ht : tidy sv) by apply tidy_calls, tidy_loaded.
  pose proof (tidy_saveChat sv sessionId messages mode Ht) as Ht1.
  assert (Htw : tidy waiting) by (apply tidy_calls, Ht1).
  pose proof (tidy_fire quota now waiting (nextHandle sv) Htw) as Ht2.
  fold sv' in Ht2.
  assert (Hin : In (nextHandle sv, job) (pending waiting)).
  { apply waiting_calls; [ exact Ht1 | apply saveChat_pending, Hne | exact Hap ]. }
  pose proof Htw as (_ & _ & _ & Hnd & _).
  assert (Hfire : sv' = {| localStorage :=
                             performSave quota now (localStorage waiting)
                               sessionId messages mode;
                           saveTimers := deleteTimer (saveTimers waiting) sessionId;
                           pending := clearTimeout (nextHandle sv) (pending waiting);
                           nextHandle := nextHandle waiting |}).
  { subst sv'. unfold fire. rewrite (find_handle _ _ _ Hnd Hin). reflexivity. }
  assert (Hgone : map.get (saveTimers sv') sessionId = None).
  { rewrite Hfire. cbn [saveTimers]. rewrite get_deleteTimer by exact Hp.
    rewrite String.eqb_refl. reflexivity. }
  repeat split.
  - rewrite Hfire. reflexivity.
  - rewrite Hfire. cbn [localStorage]. unfold loadChatMessages.
    rewrite (StorageFacts.performSave_written quota now (localStorage waiting)
               sessionId messages mode stored _ Hid Hidx Hq).
    rewrite String.eqb_refl. reflexivity.
  - apply pendingFor_none; assumption.
  - exact Hgone.
  - intros other Hother. rewrite Hfire. unfold pendingFor. cbn [pending].
    unfold clearTimeout. apply filter_kept.
    intros [h1 job1] Hin1 Hs. cbn in *. apply String.eqb_eq in Hs.
    destruct (Pos.eqb_spec h1 (nextHandle sv)) as [-> | Hh]; [ | reflexivity ].
    exfalso. apply Hother.
    rewrite <- Hs, (handle_unique _ _ _ _ Hnd Hin1 Hin). reflexivity.
Qed.

Lemma debounced_save_lands_witness :
  let sv := calls (loaded map.empty) [Save "s0" [answer] DEFAULT] in
  let waiting :=
    calls (saveChat sv "s1" [question; answer] DEFAULT)
      [Save "s2" [answer] DEFAULT; Expire unlimited 41 1;
       SaveNow unlimited 41 "s2" [answer; question] DEFAULT] in
  let sv' := fire unlimited 42 waiting (nextHandle sv) in
  localStorage sv'
  = performSave unlimited 42 (localStorage waiting) "s1" [question; answer]
      DEFAULT
  /\ loadChatMessages (localStorage sv') "s1" = [question; answer]
  /\ pendingFor "s1" sv' = []
  /\ map.get (saveTimers sv') "s1"%string = None
  /\ (forall other, other <> "s1"%string ->
        pendingFor other sv' = pendingFor other waiting).
Proof.
  apply (debounced_save_lands map.empty [Save "s0" [answer] DEFAULT]
           [Save "s2" [answer] DEFAULT; Expire unlimited 41 1;
            SaveNow unlimited 41 "s2" [answer; question] DEFAULT]
           "s1" [question; answer] DEFAULT unlimited 42
           [{| session_id := "s0"; title := "New Chat";
               session_timestamp := 41; mode := DEFAULT |};
            {| session_id := "s2"; title := " Hello world";
               session_timestamp := 41; mode := DEFAULT |}]).
  - discriminate.
  - discriminate.
  - discriminate.
  - repeat constructor; cbn; discriminate.
  - reflexivity.
  - reflexivity.
Defined.

Lemma stale_cleared (h h0 : positive) (timers : list (positive * Job)) :
  ~ In h (List.map fst timers) ->
  ~ In h (List.map fst (clearTimeout h0 timers)).
Proof.
  intros Hnot Hin. apply Hnot. apply in_map_iff in Hin.
  destruct Hin as (x & Hx & Hin). apply In_clearTimeout in Hin.
  apply in_map_iff. exists x. tauto.
Qed.

Lemma stale_call (h : positive) (sv : Saver) (c : Call) :
  stale h sv -> stale h (call sv c).
Proof.
  intros [Hlt Hnot]. unfold stale.
  destruct c as [s ms md | q n s ms md | q n h']; cbn [call].
  - unfold saveChat. destruct ms as [|m0 rest]; [ split; assumption | ].
    cbv zeta. cbn [pending nextHandle]. split; [ lia | ].
    rewrite map_app. cbn. intros Hin. apply in_app_or in Hin.
    destruct Hin as [Hin | [Heq | []]]; [ | lia ].
    destruct (timerOf (saveTimers sv) s);
      [ exact (stale_cleared _ _ _ Hnot Hin) | exact (Hnot Hin) ].
  - unfold saveChatImmediately. destruct ms as [|m0 rest]; [ split; assumption | ].
    cbn [pending nextHandle]. split; [ exact Hlt | ].
    destruct (timerOf (saveTimers sv) s); cbn [fst];
      [ apply stale_cleared, Hnot | exact Hnot ].
  - unfold fire. destruct (find _ (pending sv)) as [[h1 job1]|];
      [ | split; assumption ].
    cbn [pending nextHandle]. split; [ exact Hlt | apply stale_cleared, Hnot ].
Qed.

Lemma stale_calls (h : positive) (cs : list Call) (sv : Saver) :
  stale h sv -> stale h (calls sv cs).
Proof.
  revert sv. induction cs as [|c cs IH]; intros sv H; [ exact H | ].
  cbn [calls fold_left]. apply IH, stale_call, H.
Qed.

Lemma fire_stale (quota : Quota) (now : Z) (sv : Saver) (h : positive) :
  stale h sv -> fire quota now sv h = sv.
Proof.
  intros [_ Hnot]. unfold fire.
  destruct (find _ (pending sv)) as [[h1 job1]|] eqn:E; [ | reflexivity ].
  apply find_pending in E. destruct E as [Hin Hh]. cbn in Hh. subst h1.
  exfalso. apply Hnot. change h with (fst (h, job1)). apply in_map, Hin.
Qed.

Lemma not_in_cleared (h : positive) (timers : list (positive * Job)) :
  ~ In h (List.map fst (clearTimeout h timers)).
Proof.
  intros Hin. apply in_map_iff in Hin. destruct Hin as (x & Hx & Hin).
  apply In_clearTimeout in Hin. tauto.
Qed.

(** X11.  Flushing: [saveChatImmediately] with a non-empty list saves at
    once and cancels the session's pending save, so that the expiry of a
    timer set for it earlier changes nothing, whatever is called in the
    meantime; the pending saves of the other sessions stay.  The session id
    [__proto__] is the exception: nothing is cancelled for it, and its
    earlier saves stay pending. *)
Theorem saveChatImmediately_flushes (ls : Storage) (cs : list Call)
  (quota : Quota) (now : Z) (sessionId : string) (messages : list Message)
  (mode : ChatMode) :
  messages <> [] ->
  let sv := calls (loaded ls) cs in
  let sv' := saveChatImmediately quota now sv sessionId messages mode in
  localStorage sv'
  = performSave quota now (localStorage sv) sessionId messages mode
  /\ pendingFor sessionId sv'
     = (if (sessionId =? PROTO)%string then pendingFor sessionId sv else [])
  /\ (forall other, other <> sessionId ->
        pendingFor other sv' = pendingFor other sv)
  /\ (sessionId <> PROTO ->
      forall t q n later, In t (pendingFor sessionId sv) ->
        fire q n (calls sv' later) (fst t) = calls sv' later).
Proof.
  intros Hne sv sv'.
  assert (Ht : tidy sv) by apply tidy_calls, tidy_loaded.
  subst sv'. unfold saveChatImmediately.
  destruct messages as [|m0 rest]; [ congruence | ].
  destruct (String.eqb_spec sessionId PROTO) as [Ep | Ep].
  - unfold timerOf. rewrite Ep, String.eqb_refl. cbn [fst snd].
    repeat split. intros Hp. contradiction.
  - rewrite (timerOf_own _ _ Ep).
    destruct (map.get (saveTimers sv) sessionId) as [h0|] eqn:E; cbn [fst snd].
    + repeat split.
      * unfold pendingFor. cbn [pending].
        rewrite (clearTimeout_for sv sessionId sessionId h0 Ht Ep E).
        rewrite String.eqb_refl. reflexivity.
      * intros other Hother. unfold pendingFor at 1. cbn [pending].
        rewrite (clearTimeout_for sv sessionId other h0 Ht Ep E).
        destruct (String.eqb_spec sessionId other); [ congruence | reflexivity ].
      * intros _ t q n later Hin.
        pose proof (pendingFor_handle sv sessionId t Ht Ep Hin) as Hh.
        assert (Heq : fst t = h0) by congruence.
        apply fire_stale, stale_calls. rewrite Heq. split; cbn [nextHandle pending].
        -- destruct Ht as (_ & H2 & _). eapply H2, E.
        -- apply not_in_cleared.
    + pose proof (pendingFor_none sv sessionId Ht Ep E) as Hnone.
      repeat split.
      * exact Hnone.
      * intros _ t q n later Hin. rewrite Hnone in Hin. destruct Hin.
Qed.

Lemma saveChatImmediately_flushes_witness :
  let sv := calls (loaded map.empty)
              [Save "s1" [question] DEFAULT; Save "s2" [answer] DEFAULT] in
  let sv' := saveChatImmediately unlimited 42 sv "s1" [question; answer]
               DEFAULT in
  localStorage sv'
  = performSave unlimited 42 (localStorage sv) "s1" [question; answer] DEFAULT
  /\ pendingFor "s1" sv' = []
  /\ (forall other, other <> "s1"%string ->
        pendingFor other sv' = pendingFor other sv)
  /\ ("s1"%string <> PROTO ->
      forall t q n later, In t (pendingFor "s1" sv) ->
        fire q n (calls sv' later) (fst t) = calls sv' later).
Proof.
  apply (saveChatImmediately_flushes map.empty
           [Save "s1" [question] DEFAULT; Save "s2" [answer] DEFAULT]
           unlimited 42 "s1" [question; answer] DEFAULT).
  discriminate.
Defined.

(** Under [__proto__] a flush cancels nothing: the save set earlier expires
    afterwards and puts the older messages back. *)
Example proto_flush_overwritten :
  let sv := calls (loaded map.empty)
              [Save PROTO [question] DEFAULT;
               SaveNow unlimited 42 PROTO [question; answer] DEFAULT] in
  loadChatMessages (localStorage sv) PROTO = [question; answer]
  /\ loadChatMessages (localStorage (fire unlimited 43 sv 1)) PROTO
     = [question].
Proof. split; reflexivity. Qed.

End DebounceFacts.

(* ------------------------------------------------------------------ *)
(** * The client over whole sessions *)

Module SessionFacts.
Import AudioUtils WebAudio LiveClient.

Lemma duration_not_negative (b : AudioBuffer) : 0 <= duration b.
Proof. unfold duration, Qle. cbn. lia. Qed.

Lemma disconnect_client (m : Machine) :
  let c' := client (fst (fst (disconnect m))) in
  nextStartTime c' = nextStartTime (client m)
  /\ sources c' = sources (client m)
  /\ session c' = session (client m)
  /\ isMuted c' = isMuted (client m)
  /\ (outputAudioContext c' = None <-> outputAudioContext (client m) = None)
  /\ (inputAudioContext c' = None <-> inputAudioContext (client m) = None).
Proof.
  unfold disconnect.
  destruct (stopAll (sources (client m)) (store m)) as [[st stops] [e|]]; cbn.
  - repeat split; auto.
  - destruct (inputAudioContext (client m)), (outputAudioContext (client m));
      cbn; repeat split; auto; discriminate.
Qed.

Lemma step_cursor (m : Machine) (e : Event) :
  nextStartTime (client m) <= nextStartTime (client (fst (step m e))).
Proof.
  destruct e; cbn [step fst]; try apply Qle_refl.
  - destruct mic; cbn; apply Qle_refl.
  - unfold playAudio. destruct (outputAudioContext (client m)); cbn;
      [ | apply Qle_refl ].
    pose proof (duration_not_negative buffer).
    pose proof (Q.le_max_r now (nextStartTime (client m))). lra.
  - pose proof (disconnect_client m) as (H & _).
    destruct (disconnect m) as [[m' effs] ex]. cbn in *. rewrite H.
    apply Qle_refl.
Qed.

(** X12.  The playback cursor over a whole session: whatever happens to a
    client (connecting, messages, buffers, ended sources, muting,
    disconnecting), [nextStartTime] never moves back; it is never negative
    on a client that started fresh, and [disconnect] leaves it where it is. *)
Theorem cursor_never_moves_back (m : Machine) (events : list Event) :
  nextStartTime (client m) <= nextStartTime (client (fst (run m events)))
  /\ 0 <= nextStartTime (client (fst (run boot events)))
  /\ nextStartTime (client (fst (step m Disconnect)))
     = nextStartTime (client m).
Proof.
  assert (Hrun : forall evs m0,
             nextStartTime (client m0)
             <= nextStartTime (client (fst (run m0 evs)))).
  { induction evs as [|e rest IH]; intros m0; [ apply Qle_refl | ].
    cbn [run]. pose proof (step_cursor m0 e) as H1.
    destruct (step m0 e) as [m1 effs1]. specialize (IH m1).
    destruct (run m1 rest) as [m2 effs2]. cbn in *. lra. }
  split; [ apply Hrun | ]. split.
  - apply (Hrun events boot).
  - cbn [step]. pose proof (disconnect_client m) as (H & _).
    destruct (disconnect m) as [[m' effs] ex]. exact H.
Qed.

End SessionFacts.

(* ------------------------------------------------------------------ *)
(** * The voice screen: turns, meter and mute button *)

Module VoiceViewFacts.
Import LiveClient VoiceView.

Lemma append_empty (s : string) : (s ++ "")%string = s.
Proof. induction s as [|c s IH]; cbn; [ reflexivity | rewrite IH; reflexivity ]. Qed.

Lemma append_assoc (a b c : string) :
  ((a ++ b) ++ c)%string = (a ++ (b ++ c))%string.
Proof. induction a as [|x a IH]; cbn; [ reflexivity | rewrite IH; reflexivity ]. Qed.

Lemma concat_app (a b : list string) :
  fold_right String.append EmptyString (a ++ b)
  = (fold_right String.append EmptyString a
     ++ fold_right String.append EmptyString b)%string.
Proof.
  induction a as [|x a IH]; cbn; [ reflexivity | ].
  rewrite IH, append_assoc. reflexivity.
Qed.

Lemma spoken_app (r : VoiceMode.MessageRole) (a b : list VoiceMode.Message) :
  spoken r (a ++ b) = (spoken r a ++ spoken r b)%string.
Proof. unfold spoken. rewrite filter_app, map_app. apply concat_app. Qed.

Lemma spoken_one (r : VoiceMode.MessageRole) (m : VoiceMode.Message) :
  spoken r [m]
  = if VoiceMode.role_eqb (VoiceMode.role m) r then VoiceMode.text m
    else EmptyString.
Proof.
  unfold spoken. cbn. destruct (VoiceMode.role_eqb (VoiceMode.role m) r); cbn;
    [ apply append_empty | reflexivity ].
Qed.

Lemma role_eqb_eq (a b : VoiceMode.MessageRole) :
  VoiceMode.role_eqb a b = true -> a = b.
Proof. destruct a, b; cbn; congruence. Qed.

(** One delivery adds its text to the speaker's words and to no one else's. *)
Lemma spoken_onTranscript (r : VoiceMode.MessageRole)
  (prev : list VoiceMode.Message) (txt : string) (isUser : bool)
  (uuid : string) (now : Z) :
  spoken r (VoiceMode.onTranscript prev txt isUser uuid now)
  = (spoken r prev
     ++ (if VoiceMode.role_eqb
              (if isUser then VoiceMode.USER else VoiceMode.MODEL) r
         then txt else ""))%string.
Proof.
  set (who := if isUser then VoiceMode.USER else VoiceMode.MODEL).
  destruct prev as [|p0 rest].
  - unfold VoiceMode.onTranscript. fold who. rewrite spoken_one. reflexivity.
  - destruct (exists_last (l := p0 :: rest)) as (init & l & E);
      [ discriminate | ].
    rewrite E, TurnFacts.onTranscript_snoc. fold who.
    destruct (VoiceMode.role_eqb (VoiceMode.role l) who) eqn:Er.
    + apply role_eqb_eq in Er. rewrite !spoken_app, !spoken_one.
      cbn [VoiceMode.role VoiceMode.text]. rewrite Er.
      destruct (VoiceMode.role_eqb who r).
      * rewrite append_assoc. reflexivity.
      * rewrite append_assoc. reflexivity.
    + change [l; {| VoiceMode.id := uuid; VoiceMode.role := who;
                    VoiceMode.text := txt; VoiceMode.timestamp := now |}]
        with ([l] ++ [{| VoiceMode.id := uuid; VoiceMode.role := who;
                         VoiceMode.text := txt; VoiceMode.timestamp := now |}]).
      rewrite app_assoc, (spoken_app r (init ++ [l])), spoken_one.
      reflexivity.
Qed.

Lemma spoken_deliverAll (r : VoiceMode.MessageRole)
  (ds : list VoiceMode.Delivery) (prev : list VoiceMode.Message) :
  spoken r (VoiceMode.deliverAll prev ds)
  = (spoken r prev ++ delivered r ds)%string.
Proof.
  revert prev. induction ds as [|d ds IH]; intros prev.
  - cbn. symmetry. apply append_empty.
  - unfold VoiceMode.deliverAll in *. cbn [fold_left]. rewrite IH.
    unfold VoiceMode.deliver. rewrite spoken_onTranscript, append_assoc.
    f_equal. unfold delivered. cbn [filter].
    destruct (VoiceMode.role_eqb _ r); reflexivity.
Qed.

Lemma alternating_cons (a b : VoiceMode.Message) (l : list VoiceMode.Message) :
  alternating (a :: b :: l)
  = negb (VoiceMode.role_eqb (VoiceMode.role a) (VoiceMode.role b))
    && alternating (b :: l).
Proof. reflexivity. Qed.

(** Whether turns alternate depends on the speakers alone. *)
Lemma alternating_roles (a b : list VoiceMode.Message) :
  List.map VoiceMode.role a = List.map VoiceMode.role b ->
  alternating a = alternating b.
Proof.
  revert b. induction a as [|x a IH]; intros [|y b] H; try discriminate;
    [ reflexivity | ].
  injection H as Hxy Hab. specialize (IH b Hab).
  destruct a as [|x2 a], b as [|y2 b]; try discriminate; [ reflexivity | ].
  rewrite !alternating_cons, IH. injection Hab as Hx2 _.
  rewrite Hxy, Hx2. reflexivity.
Qed.

Lemma alternating_snoc (init : list VoiceMode.Message) (l x : VoiceMode.Message) :
  alternating (init ++ [l]) = true ->
  VoiceMode.role_eqb (VoiceMode.role l) (VoiceMode.role x) = false ->
  alternating (init ++ [l; x]) = true.
Proof.
  intros Halt Hne. induction init as [|a init IH].
  - cbn. rewrite Hne. reflexivity.
  - destruct init as [|b init].
    + cbn [app] in *. rewrite alternating_cons in *.
      apply andb_true_iff in Halt. destruct Halt as [Hal _].
      rewrite Hal. cbn. rewrite Hne. reflexivity.
    + cbn [app] in *. rewrite alternating_cons in *.
      apply andb_true_iff in Halt. destruct Halt as [Hab Hrest].
      rewrite Hab. cbn [andb]. apply IH, Hrest.
Qed.

Lemma alternating_onTranscript (prev : list VoiceMode.Message) (txt : string)
  (isUser : bool) (uuid : string) (now : Z) :
  alternating prev = true ->
  alternating (VoiceMode.onTranscript prev txt isUser uuid now) = true.
Proof.
  intros Halt. destruct prev as [|p0 rest]; [ reflexivity | ].
  destruct (exists_last (l := p0 :: rest)) as (init & l & E);
    [ discriminate | ].
  rewrite E in *. rewrite TurnFacts.onTranscript_snoc.
  destruct (VoiceMode.role_eqb (VoiceMode.role l) _) eqn:Er.
  - rewrite <- Halt. apply alternating_roles.
    rewrite !map_app. reflexivity.
  - apply alternating_snoc; [ exact Halt | exact Er ].
Qed.

Lemma alternating_skipn (n : nat) (msgs : list VoiceMode.Message) :
  alternating msgs = true -> alternating (skipn n msgs) = true.
Proof.
  revert msgs. induction n as [|n IH]; intros msgs H; [ exact H | ].
  destruct msgs as [|a msgs]; [ reflexivity | ].
  cbn [skipn]. apply IH. destruct msgs as [|b msgs]; [ reflexivity | ].
  rewrite alternating_cons in H. apply andb_true_iff in H. tauto.
Qed.

(** X13.  The transcript of a voice session: however the deliveries
    arrive, no two turns in a row belong to the same speaker, and the turns
    of each speaker, read in order, are exactly the texts delivered for that
    speaker: nothing is lost, repeated or attributed to the other side. *)
Theorem transcript_turns (ds : list VoiceMode.Delivery) :
  alternating (VoiceMode.deliverAll [] ds) = true
  /\ (forall r, spoken r (VoiceMode.deliverAll [] ds) = delivered r ds).
Proof.
  split.
  - assert (H : forall prev, alternating prev = true ->
                  alternating (VoiceMode.deliverAll prev ds) = true).
    { induction ds as [|d ds IH]; intros prev Hp; [ exact Hp | ].
      unfold VoiceMode.deliverAll in *. cbn [fold_left]. apply IH.
      apply alternating_onTranscript, Hp. }
    apply H. reflexivity.
  - intros r. rewrite spoken_deliverAll. reflexivity.
Qed.

(** X14.  What the screen shows: the last two turns at most, taken from
    the end of the transcript, and, the transcript coming from deliveries,
    never two turns of the same speaker. *)
Theorem displayMessages_shown (ds : list VoiceMode.Delivery)
  (msgs : list VoiceMode.Message) :
  (length (displayMessages msgs) = Nat.min 2 (length msgs))
  /\ (exists earlier, msgs = earlier ++ displayMessages msgs)
  /\ alternating (displayMessages (VoiceMode.deliverAll [] ds)) = true.
Proof.
  unfold displayMessages. split; [ | split ].
  - rewrite length_skipn. lia.
  - exists (firstn (length msgs - 2) msgs). symmetry. apply firstn_skipn.
  - apply alternating_skipn.
    assert (H : forall prev, alternating prev = true ->
                  alternating (VoiceMode.deliverAll prev ds) = true).
    { induction ds as [|d ds IH]; intros prev Hp; [ exact Hp | ].
      unfold VoiceMode.deliverAll in *. cbn [fold_left]. apply IH.
      apply alternating_onTranscript, Hp. }
    apply H. reflexivity.
Qed.

Lemma smooth_unit (prev vol : R) :
  (0 <= prev <= 1)%R -> (0 <= vol <= 1)%R -> (0 <= smooth prev vol <= 1)%R.
Proof. unfold smooth. intros [H1 H2] [H3 H4]. split; lra. Qed.

(** The level a capture tick reports lies in [0,1]. *)
Lemma reported_unit (c : LiveClient) (inputData : list Q) :
  inputData <> [] ->
  Forall (fun s => -1 <= s <= 1) inputData ->
  Forall (fun vol => (0 <= vol <= 1)%R)
    (Trace.volumes (onaudioprocess c inputData)).
Proof.
  intros Hne Hall. unfold onaudioprocess. destruct (isMuted c).
  - cbn. constructor; [ lra | constructor ].
  - assert (Hv : Trace.volumes
                   (Call (OnVolumeUpdate (rms inputData))
                    :: match session c with
                       | Some _ =>
                           [SessionThen
                              (SendRealtimeInput
                                 (AudioUtils.createPcmBlob inputData))]
                       | None => []
                       end) = [rms inputData])
      by (destruct (session c); reflexivity).
    rewrite Hv. constructor; [ | constructor ].
    rewrite VolumeFacts.rms_rootMeanSquare.
    apply VolumeFacts.rootMeanSquare_unit; assumption.
Qed.

Lemma meter_unit (v : View) (vols : list R) :
  (0 <= volume v <= 1)%R ->
  Forall (fun vol => (0 <= vol <= 1)%R) vols ->
  (0 <= volume (fold_left onVolume vols v) <= 1)%R.
Proof.
  intros Hv Hall. revert v Hv. induction Hall as [|x l Hx _ IH]; intros v Hv.
  - exact Hv.
  - cbn [fold_left]. apply IH. cbn. apply smooth_unit; assumption.
Qed.

(** X15.  The meter of the voice screen: fed by the capture ticks of a
    client, with frames that are not empty and whose samples lie in [-1,1],
    the displayed volume stays within [0,1] from any start in [0,1]. *)
Theorem meter_bounded (c : LiveClient) (v : View) (ticks : list (list Q)) :
  (0 <= volume v <= 1)%R ->
  Forall (fun inputData =>
            inputData <> [] /\ Forall (fun s => -1 <= s <= 1) inputData) ticks ->
  (0 <= volume (capture c v ticks) <= 1)%R.
Proof.
  intros Hv Hall. unfold capture. revert v Hv.
  induction Hall as [|f l [Hne Hf] _ IH]; intros v Hv; [ exact Hv | ].
  cbn [fold_left]. apply IH. unfold meter.
  apply meter_unit; [ exact Hv | apply reported_unit; assumption ].
Qed.

Lemma meter_bounded_witness :
  (0 <= volume (capture new initial [[1 # 2; -1 # 2]; [1; 0; 0]]%Q) <= 1)%R.
Proof.
  apply (meter_bounded new initial [[1 # 2; -1 # 2]; [1; 0; 0]]).
  - cbn. lra.
  - repeat constructor; discriminate.
Defined.

Lemma capture_muted (c : LiveClient) (v : View) (ticks : list (list Q)) :
  isMuted c = true -> volume v = 0%R -> volume (capture c v ticks) = 0%R.
Proof.
  intros Hm. unfold capture. revert v.
  induction ticks as [|f l IH]; intros v Hv; [ exact Hv | ].
  cbn [fold_left]. apply IH. unfold meter, onaudioprocess. rewrite Hm.
  cbn. unfold smooth. rewrite Hv. lra.
Qed.

(** X16.  The mute button: pressed on an unmuted screen whose client is
    unmuted too, it mutes both and zeroes the meter; from then on capture
    ticks hand nothing to the session and the meter stays at zero.  Pressed
    again it unmutes both and leaves the meter as it is. *)
Theorem toggleMute_mutes (v : View) (c : LiveClient) (ticks : list (list Q)) :
  muted v = false ->
  isMuted c = false ->
  exists v1 c1 v2 c2,
    toggleMute v (Some c) = (v1, Some c1)
    /\ muted v1 = true /\ isMuted c1 = true /\ volume v1 = 0%R
    /\ volume (capture c1 v1 ticks) = 0%R
    /\ Trace.sent (flat_map (onaudioprocess c1) ticks) = []
    /\ toggleMute v1 (Some c1) = (v2, Some c2)
    /\ muted v2 = false /\ isMuted c2 = false /\ volume v2 = volume v1
    /\ c2 = c.
Proof.
  intros Hv Hc. unfold toggleMute. rewrite Hv. cbn [negb].
  eexists. eexists. eexists. eexists.
  split; [ reflexivity | ]. cbn [muted volume negb].
  split; [ reflexivity | ]. split; [ reflexivity | ]. split; [ reflexivity | ].
  split; [ apply capture_muted; reflexivity | ].
  split.
  - induction ticks as [|f l IH]; [ reflexivity | ].
    cbn [flat_map]. unfold Trace.sent in *. rewrite flat_map_app, IH.
    reflexivity.
  - split; [ reflexivity | ]. cbn.
    repeat split. destruct c; cbn in *. rewrite Hc. reflexivity.
Qed.

Lemma toggleMute_mutes_witness :
  exists v1 c1 v2 c2,
    toggleMute initial (Some new) = (v1, Some c1)
    /\ muted v1 = true /\ isMuted c1 = true /\ volume v1 = 0%R
    /\ volume (capture c1 v1 [[1 # 2]; [1]]) = 0%R
    /\ Trace.sent (flat_map (onaudioprocess c1) [[1 # 2]; [1]]) = []
    /\ toggleMute v1 (Some c1) = (v2, Some c2)
    /\ muted v2 = false /\ isMuted c2 = false /\ volume v2 = volume v1
    /\ c2 = new.
Proof.
  apply (toggleMute_mutes initial new [[1 # 2]; [1]]); reflexivity.
Defined.

(** X17.  Changing the voice while muted: the effect builds a new client,
    which starts unmuted, while the screen keeps showing mute; with the
    microphone granted, the next capture tick is metered and handed to the
    session although the button shows mute. *)
Theorem voice_change_while_muted (v : View) (c : LiveClient)
  (language voiceId : string) (inputData : list Q) :
  muted v = true ->
  voiceId <> selectedVoice v ->
  exists v' c',
    handleVoiceChange v (Some c) language voiceId StreamGranted
    = (v', Some c')
    /\ muted v' = true
    /\ selectedVoice v' = voiceId
    /\ isMuted c' = false
    /\ onaudioprocess c' inputData
       = [Call (OnVolumeUpdate (rms inputData));
          SessionThen
            (SendRealtimeInput (AudioUtils.createPcmBlob inputData))].
Proof.
  intros Hm Hne. unfold handleVoiceChange.
  destruct (String.eqb_spec voiceId (selectedVoice v)) as [E | E];
    [ congruence | ].
  eexists. eexists. split; [ reflexivity | ].
  cbn. repeat split. exact Hm.
Qed.

Lemma voice_change_while_muted_witness :
  exists v' c',
    handleVoiceChange (fst (toggleMute initial (Some new))) (Some (setMute true new))
      "English" "Puck" StreamGranted
    = (v', Some c')
    /\ muted v' = true
    /\ selectedVoice v' = "Puck"%string
    /\ isMuted c' = false
    /\ onaudioprocess c' [1 # 2]
       = [Call (OnVolumeUpdate (rms [1 # 2]));
          SessionThen (SendRealtimeInput (AudioUtils.createPcmBlob [1 # 2]))].
Proof.
  apply (voice_change_while_muted (fst (toggleMute initial (Some new)))
           (setMute true new) "English" "Puck" [1 # 2]).
  - reflexivity.
  - discriminate.
Defined.

End VoiceViewFacts.

(* ------------------------------------------------------------------ *)
(** * The text chat: streaming a reply *)

Module ChatFacts.
Import Types GeminiService ChatScreen.

Lemma append_nil_r (s : string) : (s ++ "")%string = s.
Proof. induction s as [|c s IH]; cbn; [ reflexivity | rewrite IH; reflexivity ]. Qed.

Lemma append_assoc3 (a b c : string) :
  ((a ++ b) ++ c)%string = (a ++ (b ++ c))%string.
Proof. induction a as [|x a IH]; cbn; [ reflexivity | rewrite IH; reflexivity ]. Qed.

Lemma prefix_append (a b : string) : prefix a (a ++ b) = true.
Proof.
  induction a as [|c a IH]; cbn; [ destruct b; reflexivity | ].
  destruct (ascii_dec c c); [ exact IH | congruence ].
Qed.

Lemma streamLoop_final (chunks : list (option string)) (acc : string) :
  snd (streamLoop acc chunks) = (acc ++ joined chunks)%string.
Proof.
  revert acc. induction chunks as [|chunk rest IH]; intros acc.
  - cbn. symmetry. apply append_nil_r.
  - cbn [streamLoop]. destruct chunk as [[|c t]|].
    + rewrite IH. reflexivity.
    + specialize (IH (acc ++ String c t)%string).
      destruct (streamLoop (acc ++ String c t) rest) as [updates final].
      cbn [snd] in *. rewrite IH. unfold joined. cbn [flat_map app fold_right].
      apply append_assoc3.
    + rewrite IH. reflexivity.
Qed.

Lemma last_default {A : Type} (l : list A) (x d d' : A) :
  last (x :: l) d = last (x :: l) d'.
Proof.
  revert x. induction l as [|y l IH]; intros x; [ reflexivity | ].
  change (last (x :: y :: l) d) with (last (y :: l) d).
  change (last (x :: y :: l) d') with (last (y :: l) d'). apply IH.
Qed.

Lemma streamLoop_last (chunks : list (option string)) (acc : string) :
  last (fst (streamLoop acc chunks)) acc = snd (streamLoop acc chunks).
Proof.
  revert acc. induction chunks as [|chunk rest IH]; intros acc; [ reflexivity | ].
  cbn [streamLoop]. destruct chunk as [[|c t]|]; try apply IH.
  specialize (IH (acc ++ String c t)%string).
  destruct (streamLoop (acc ++ String c t) rest) as [updates final].
  cbn [fst snd] in *. rewrite <- IH. destruct updates as [|u updates];
    [ reflexivity | ].
  change (last ((acc ++ String c t)%string :: u :: updates) acc)
    with (last (u :: updates) acc).
  apply last_default.
Qed.

Lemma streamLoop_count (chunks : list (option string)) (acc : string) :
  length (fst (streamLoop acc chunks)) = length (filter present chunks).
Proof.
  revert acc. induction chunks as [|chunk rest IH]; intros acc; [ reflexivity | ].
  cbn [streamLoop filter]. destruct chunk as [[|c t]|]; cbn [present]; try apply IH.
  specialize (IH (acc ++ String c t)%string).
  destruct (streamLoop (acc ++ String c t) rest) as [updates final].
  cbn [fst length] in *. rewrite IH. reflexivity.
Qed.

Lemma streamLoop_grows (chunks : list (option string)) (acc : string) :
  Schedule.consecutive
    (fun a b => prefix a b = true /\ (String.length a < String.length b)%nat)
    (acc :: fst (streamLoop acc chunks)).
Proof.
  revert acc. induction chunks as [|chunk rest IH]; intros acc; [ exact I | ].
  cbn [streamLoop]. destruct chunk as [[|c t]|]; try apply IH.
  specialize (IH (acc ++ String c t)%string).
  destruct (streamLoop (acc ++ String c t) rest) as [updates final].
  cbn [fst] in *. split; [ | exact IH ].
  split; [ apply prefix_append | ].
  clear. induction acc as [|x acc IHa]; cbn in *; lia.
Qed.

Lemma streamLoop_app (a b : list (option string)) (acc : string) :
  streamLoop acc (a ++ b)
  = (fst (streamLoop acc a) ++ fst (streamLoop (snd (streamLoop acc a)) b),
     snd (streamLoop (snd (streamLoop acc a)) b)).
Proof.
  revert acc. induction a as [|chunk a IH]; intros acc.
  - cbn. destruct (streamLoop acc b); reflexivity.
  - cbn [app streamLoop]. destruct chunk as [[|c t]|]; try apply IH.
    rewrite IH. destruct (streamLoop (acc ++ String c t) a) as [u f].
    reflexivity.
Qed.

Lemma joined_app (a b : list (option string)) :
  joined (a ++ b) = (joined a ++ joined b)%string.
Proof.
  induction a as [|chunk a IH]; [ reflexivity | ].
  destruct chunk as [t|]; [ | exact IH ].
  unfold joined in *. cbn [app flat_map fold_right].
  rewrite IH. symmetry. apply append_assoc3.
Qed.

(** The update issued on a chunk is the text of all chunks up to it. *)
Lemma streamLoop_update (before after : list (option string)) (c : ascii)
  (t acc : string) :
  nth_error (fst (streamLoop acc (before ++ Some (String c t) :: after)))
    (length (filter present before))
  = Some (acc ++ joined (before ++ [Some (String c t)]))%string.
Proof.
  rewrite streamLoop_app. cbn [fst].
  rewrite <- (streamLoop_count before acc).
  rewrite nth_error_app2 by apply Nat.le_refl. rewrite Nat.sub_diag.
  cbn [streamLoop].
  destruct (streamLoop (snd (streamLoop acc before) ++ String c t) after)
    as [u f].
  cbn [fst nth_error]. rewrite streamLoop_final, joined_app.
  rewrite append_assoc3. cbn. rewrite append_nil_r. reflexivity.
Qed.

(** X18.  The stream of a text reply: there is one update for each chunk
    that carries text, in the order of the chunks, and the update issued on
    such a chunk is the text received so far, the texts of all chunks up to
    and including it, joined; so each update extends the one before it; and
    the text returned at the end is the last update, the texts of all
    chunks joined. *)
Theorem stream_updates_cumulative (chunks : list (option string)) :
  let (updates, final) := streamLoop EmptyString chunks in
  final = joined chunks
  /\ length updates = length (filter present chunks)
  /\ (forall before c t after,
        chunks = before ++ Some (String c t) :: after ->
        nth_error updates (length (filter present before))
        = Some (joined (before ++ [Some (String c t)])))
  /\ last updates EmptyString = final
  /\ Schedule.consecutive
       (fun a b => prefix a b = true /\ (String.length a < String.length b)%nat)
       (EmptyString :: updates).
Proof.
  pose proof (streamLoop_final chunks EmptyString) as H1.
  pose proof (streamLoop_count chunks EmptyString) as H2.
  pose proof (streamLoop_last chunks EmptyString) as H3.
  pose proof (streamLoop_grows chunks EmptyString) as H4.
  assert (H5 : forall before c t after,
             chunks = before ++ Some (String c t) :: after ->
             nth_error (fst (streamLoop EmptyString chunks))
               (length (filter present before))
             = Some (joined (before ++ [Some (String c t)]))).
  { intros before c t after ->. apply (streamLoop_update before after c t ""). }
  destruct (streamLoop EmptyString chunks) as [updates final].
  cbn [fst snd] in *. auto.
Qed.

(** Three chunks with text among empty ones: the updates are the running
    texts. *)
Example stream_of_three :
  streamLoop EmptyString
    [Some "ab"; None; Some "cd"; Some ""; Some "ef"]%string
  = (["ab"; "abcd"; "abcdef"]%string, "abcdef"%string).
Proof. reflexivity. Qed.

Lemma retext_fresh (streamMsgId t : string) (l : list Message) :
  (forall m, In m l -> id m <> streamMsgId) -> retext streamMsgId t l = l.
Proof.
  induction l as [|m l IH]; intros H; [ reflexivity | ].
  cbn. destruct (String.eqb_spec (id m) streamMsgId) as [E | E].
  - exfalso. exact (H m (or_introl eq_refl) E).
  - f_equal. apply IH. intros x Hx. apply H. right. exact Hx.
Qed.

Lemma retext_streamed (streamMsgId t old : string) (ts : Z)
  (base : list Message) :
  (forall m, In m base -> id m <> streamMsgId) ->
  retext streamMsgId t (base ++ [reply streamMsgId ts old])
  = base ++ [reply streamMsgId ts t].
Proof.
  intros H. unfold retext. rewrite map_app.
  fold (retext streamMsgId t base). rewrite (retext_fresh _ _ _ H).
  cbn. rewrite String.eqb_refl. reflexivity.
Qed.

Lemma updates_streamed (streamMsgId : string) (ts : Z) (base : list Message)
  (updates : list string) (u : string) :
  (forall m, In m base -> id m <> streamMsgId) ->
  fold_left (onStreamUpdate streamMsgId ts) updates
    {| shown := base ++ [reply streamMsgId ts u]; isStreaming := true |}
  = {| shown := base ++ [reply streamMsgId ts (last updates u)];
       isStreaming := true |}.
Proof.
  intros H. revert u. induction updates as [|x l IH]; intros u; [ reflexivity | ].
  cbn [fold_left]. unfold onStreamUpdate at 2. cbn [isStreaming shown].
  rewrite (retext_streamed _ _ _ _ _ H), IH.
  destruct l as [|y l]; [ reflexivity | ].
  change (last (x :: y :: l) u) with (last (y :: l) u).
  rewrite (last_default l y x u). reflexivity.
Qed.

Lemma streamLoop_silent (chunks : list (option string)) (acc : string) :
  anyText chunks = false -> streamLoop acc chunks = ([], acc).
Proof.
  unfold anyText. induction chunks as [|chunk rest IH]; intros H; [ reflexivity | ].
  cbn in H. apply orb_false_iff in H. destruct H as [Hc Hr].
  cbn [streamLoop]. destruct chunk as [[|c t]|]; try discriminate; apply IH, Hr.
Qed.

Lemma streamLoop_speaks (chunks : list (option string)) (acc : string) :
  anyText chunks = true -> fst (streamLoop acc chunks) <> [].
Proof.
  unfold anyText. revert acc.
  induction chunks as [|chunk rest IH]; intros acc H; [ discriminate | ].
  cbn [streamLoop]. destruct chunk as [[|c t]|].
  - apply IH. exact H.
  - destruct (streamLoop (acc ++ String c t) rest). discriminate.
  - apply IH. exact H.
Qed.

(** X19.  One exchange of the text chat.  With blank text, no attachment
    and no prompt given by the caller nothing happens.  Otherwise, the id
    drawn for the streamed message being the id of no message on screen, the
    list ends up as the previous messages, the user's message and, when the
    stream carried text, one model message with all of that text (also when
    the stream broke off afterwards); when it carried none, the returned
    message with empty text, or nothing if the stream failed. *)
Theorem handleSend_reply (prev : list Message) (inputText : string)
  (manualText : option string) (currentAttachment : option AttachmentData)
  (userId : string) (sentAt : Z) (streamMsgId : string) (firstSeen : Z)
  (chunks : list (option string)) (completes : bool) (uuid : string)
  (now : Z) :
  let textToSend := match manualText with
                    | Some t => t
                    | None => inputText
                    end in
  let userMsg := userMessage userId sentAt textToSend currentAttachment in
  (forall m, In m (prev ++ [userMsg]) -> id m <> streamMsgId) ->
  handleSend prev inputText manualText currentAttachment userId sentAt
    streamMsgId firstSeen
    (fst (streamChat chunks completes uuid now))
    (snd (streamChat chunks completes uuid now))
  = if nothingToSend textToSend currentAttachment manualText then prev
    else prev ++ [userMsg]
         ++ (if anyText chunks
             then [reply streamMsgId firstSeen (joined chunks)]
             else if completes then [reply uuid now EmptyString] else []).
Proof.
  intros textToSend userMsg Hfresh. unfold handleSend. fold textToSend.
  destruct (nothingToSend textToSend currentAttachment manualText);
    [ reflexivity | ].
  fold userMsg. unfold streamChat.
  pose proof (streamLoop_final chunks EmptyString) as Hfinal.
  change (("" ++ joined chunks)%string) with (joined chunks) in Hfinal.
  pose proof (streamLoop_last chunks EmptyString) as Hlast.
  destruct (anyText chunks) eqn:Hany.
  - pose proof (streamLoop_speaks chunks EmptyString Hany) as Hsome.
    destruct (streamLoop EmptyString chunks) as [updates final].
    cbn [fst snd] in *. destruct updates as [|u updates]; [ congruence | ].
    assert (Htext : last updates u = joined chunks).
    { rewrite <- Hfinal, <- Hlast. destruct updates; [ reflexivity | ].
      change (last (u :: s :: updates) EmptyString) with (last (s :: updates) EmptyString).
      apply last_default. }
    assert (Hst : fold_left (onStreamUpdate streamMsgId firstSeen) (u :: updates)
                    {| shown := prev ++ [userMsg]; isStreaming := false |}
                  = {| shown := (prev ++ [userMsg])
                                ++ [reply streamMsgId firstSeen (joined chunks)];
                       isStreaming := true |}).
    { cbn [fold_left]. unfold onStreamUpdate at 2. cbn [isStreaming shown].
      rewrite (updates_streamed _ _ _ _ _ Hfresh), Htext. reflexivity. }
    cbv zeta. rewrite Hst. cbn [isStreaming shown].
    destruct completes.
    + cbn [text reply]. rewrite (retext_streamed _ _ _ _ _ Hfresh), <- app_assoc.
      rewrite Hfinal. reflexivity.
    + rewrite <- app_assoc. reflexivity.
  - rewrite (streamLoop_silent chunks EmptyString Hany). cbn [fst snd fold_left].
    destruct completes; cbn [isStreaming shown].
    + rewrite <- app_assoc. reflexivity.
    + rewrite app_nil_r. reflexivity.
Qed.

Lemma handleSend_reply_witness :
  handleSend [StoreNotions.question] "And then?" None None "u2" 15 "r1" 20
    (fst (streamChat [Some "Hel"; None; Some ""; Some "lo"]%string true "r2" 30))
    (snd (streamChat [Some "Hel"; None; Some ""; Some "lo"]%string true "r2" 30))
  = if nothingToSend "And then?" None None then [StoreNotions.question]
    else [StoreNotions.question] ++ [userMessage "u2" 15 "And then?" None]
         ++ (if anyText [Some "Hel"; None; Some ""; Some "lo"]%string
             then [reply "r1" 20
                     (joined [Some "Hel"; None; Some ""; Some "lo"]%string)]
             else if true then [reply "r2" 30 EmptyString] else []).
Proof.
  apply (handleSend_reply [StoreNotions.question] "And then?" None None "u2" 15
           "r1" 20 [Some "Hel"; None; Some ""; Some "lo"]%string true "r2" 30).
  intros m [<- | [<- | []]]; discriminate.
Defined.

Example handleSend_hello :
  List.map text
    (handleSend [StoreNotions.question] "And then?" None None "u2" 15 "r1" 20
       (fst (streamChat [Some "Hel"; None; Some ""; Some "lo"]%string true "r2" 30))
       (snd (streamChat [Some "Hel"; None; Some ""; Some "lo"]%string true "r2" 30)))
  = ["# Hello *world*"; "And then?"; "Hello"]%string.
Proof. reflexivity. Qed.

Lemma imageLoop_url (parts : list ImagePart) (imageUrl txt : string) :
  present (Some (fst (imageLoop imageUrl txt parts)))
  = present (Some imageUrl)
    || existsb (fun part => match inlineData part with
                            | Some _ => true
                            | None => false
                            end) parts.
Proof.
  revert imageUrl txt. induction parts as [|part rest IH]; intros imageUrl txt.
  - cbn [imageLoop fst existsb]. rewrite orb_false_r. reflexivity.
  - cbn [imageLoop existsb]. destruct (inlineData part) as [d|].
    + rewrite IH. cbn. rewrite orb_true_r. reflexivity.
    + destruct (partText part) as [[|c t]|]; rewrite IH; reflexivity.
Qed.

(** X23.  One exchange in image mode: whatever the service answers, and
    also when the call fails, the list grows by the user's message and one
    model message whose text is not empty; that message carries an image
    exactly when the answer had a part with inline data. *)
Theorem handleSend_image (prev : list Message) (inputText : string)
  (manualText : option string) (currentAttachment : option AttachmentData)
  (userId : string) (sentAt : Z) (streamMsgId : string) (firstSeen : Z)
  (response : option (list ImagePart)) (uuid : string) (now : Z) :
  let textToSend := match manualText with
                    | Some t => t
                    | None => inputText
                    end in
  nothingToSend textToSend currentAttachment manualText = false ->
  exists answer,
    handleSend prev inputText manualText currentAttachment userId sentAt
      streamMsgId firstSeen [] (Some (generateImage response uuid now))
    = prev ++ [userMessage userId sentAt textToSend currentAttachment; answer]
    /\ answer = generateImage response uuid now
    /\ role answer = VoiceMode.MODEL
    /\ text answer <> EmptyString
    /\ present (image answer)
       = match response with
         | Some parts =>
             existsb (fun part => match inlineData part with
                                  | Some _ => true
                                  | None => false
                                  end) parts
         | None => false
         end.
Proof.
  intros textToSend Hsend. exists (generateImage response uuid now).
  split.
  - unfold handleSend. fold textToSend. rewrite Hsend.
    cbn [fold_left isStreaming shown]. rewrite <- app_assoc. reflexivity.
  - split; [ reflexivity | ]. unfold generateImage.
    destruct response as [parts|].
    + pose proof (imageLoop_url parts EmptyString EmptyString) as Hurl.
      destruct (imageLoop EmptyString EmptyString parts) as [imageUrl txt].
      cbn [fst] in Hurl. cbn [role text image].
      repeat split; [ destruct txt; discriminate | exact Hurl ].
    + cbn. repeat split. discriminate.
Qed.

Lemma handleSend_image_witness :
  exists answer,
    handleSend [] "a red fox" None None "u1" 5 "r1" 6 []
      (Some (generateImage
               (Some [{| inlineData := Some (Some "iVBOR"%string); partText := None |}])
               "r2" 9))
    = [] ++ [userMessage "u1" 5 "a red fox" None; answer]
    /\ answer
       = generateImage
           (Some [{| inlineData := Some (Some "iVBOR"%string); partText := None |}])
           "r2" 9
    /\ role answer = VoiceMode.MODEL
    /\ text answer <> EmptyString
    /\ present (image answer)
       = existsb (fun part => match inlineData part with
                              | Some _ => true
                              | None => false
                              end)
           [{| inlineData := Some (Some "iVBOR"%string); partText := None |}].
Proof.
  apply (handleSend_image [] "a red fox" None None "u1" 5 "r1" 6
           (Some [{| inlineData := Some (Some "iVBOR"%string); partText := None |}])
           "r2" 9).
  reflexivity.
Defined.

End ChatFacts.

(* ------------------------------------------------------------------ *)
(** * The service worker's fetch handler *)

Module ServiceWorkerFacts.
Import ServiceWorker.
Import coqutil.Map.Interface coqutil.Map.Properties.
#[local] Existing Instance coqutil.Map.SortedListString.ok.

(** X20.  Routing of requests: a request is served stale-while-revalidate
    exactly when its host is esm.sh, fonts.gstatic.com or
    cdn.tailwindcss.com and its path does not contain [generateContent];
    the host fonts.googleapis.com, though listed in that branch, contains
    [googleapis] and is never intercepted. *)
Theorem route_stale_while_revalidate (hostname pathname : string) :
  (route hostname pathname = StaleWhileRevalidate
   <-> (hostname = "esm.sh"%string \/ hostname = "fonts.gstatic.com"%string
        \/ hostname = "cdn.tailwindcss.com"%string)
       /\ includes "generateContent" pathname = false)
  /\ route "fonts.googleapis.com" pathname = NetworkOnly.
Proof.
  split; [ | reflexivity ].
  unfold route.
  destruct (includes "generateContent" pathname) eqn:Ep.
  - rewrite orb_true_r. split; [ discriminate | intros [_ H]; discriminate ].
  - rewrite orb_false_r.
    destruct (String.eqb_spec hostname "esm.sh") as [-> | H1];
      [ cbn; tauto | ].
    destruct (String.eqb_spec hostname "fonts.googleapis.com") as [-> | H2];
      [ cbn; split; [ discriminate | intros [[H | [H | H]] _]; discriminate ] | ].
    destruct (String.eqb_spec hostname "fonts.gstatic.com") as [-> | H3];
      [ cbn; tauto | ].
    destruct (String.eqb_spec hostname "cdn.tailwindcss.com") as [-> | H4];
      [ cbn; tauto | ].
    cbn [orb]. destruct (includes "googleapis" hostname);
      split; try discriminate; intros [[H | [H | H]] _]; congruence.
Qed.

(** X21.  Cache first: a request that misses the cache and gets a response
    with status 200 and type basic is answered with it and stored, and from
    then on the same URL is answered from the cache without any fetch, also
    when the network is down; a response of another status or type is passed
    on but not stored. *)
Theorem cache_first_offline (cache : Cache) (url hostname pathname : string)
  (response : Response) (later : option Response) :
  route hostname pathname = CacheFirst ->
  map.get cache url = None ->
  let '(answer, cache1, _) :=
    onfetch cache url hostname pathname (Some response) in
  answer = Respond response
  /\ (if cacheable response
      then onfetch cache1 url hostname pathname later
           = (Respond response, cache1, false)
      else cache1 = cache).
Proof.
  intros Hr Hmiss. unfold onfetch. rewrite Hr, Hmiss.
  destruct (cacheable response) eqn:Hc.
  - split; [ reflexivity | ]. rewrite map.get_put_same. reflexivity.
  - split; reflexivity.
Qed.

Lemma cache_first_offline_witness :
  let page := {| status := 200; responseType := basic; body := "<html>" |} in
  let '(answer, cache1, _) :=
    onfetch map.empty "https://app/index.html" "app" "/index.html"
      (Some page) in
  answer = Respond page
  /\ (if cacheable page
      then onfetch cache1 "https://app/index.html" "app" "/index.html" None
           = (Respond page, cache1, false)
      else cache1 = map.empty).
Proof.
  apply (cache_first_offline map.empty "https://app/index.html" "app"
           "/index.html"
           {| status := 200; responseType := basic; body := "<html>" |} None).
  - reflexivity.
  - reflexivity.
Defined.

(** X22.  Stale while revalidate: the answer is the cached response when
    there is one, whatever the network returns now, and the cache takes the
    network's response (unless it is partial), whatever its status and type,
    for the next request; so a second request is answered with what the
    first one fetched, and a third, the network being down, with what the
    second fetched. *)
Theorem stale_while_revalidate_serves_previous (cache : Cache)
  (url hostname pathname : string) (first second : Response) :
  route hostname pathname = StaleWhileRevalidate ->
  status first <> 206%Z ->
  status second <> 206%Z ->
  let '(answer1, cache1, fetched1) :=
    onfetch cache url hostname pathname (Some first) in
  let '(answer2, cache2, fetched2) :=
    onfetch cache1 url hostname pathname (Some second) in
  answer1 = match map.get cache url with
            | Some old => Respond old
            | None => Respond first
            end
  /\ answer2 = Respond first
  /\ map.get cache2 url = Some second
  /\ fetched1 = true /\ fetched2 = true
  /\ fst (fst (onfetch cache2 url hostname pathname None)) = Respond second.
Proof.
  intros Hr H1 H2. unfold onfetch. rewrite Hr.
  assert (S1 : storable first = true)
    by (unfold storable; destruct (Z.eqb_spec (status first) 206); [ congruence | reflexivity ]).
  assert (S2 : storable second = true)
    by (unfold storable; destruct (Z.eqb_spec (status second) 206); [ congruence | reflexivity ]).
  rewrite S1, S2. rewrite !map.get_put_same.
  destruct (map.get cache url); repeat split.
Qed.

Lemma stale_while_revalidate_serves_previous_witness :
  let v1 := {| status := 200; responseType := cors; body := "v1" |} in
  let v2 := {| status := 404; responseType := cors; body := "gone" |} in
  let '(answer1, cache1, fetched1) :=
    onfetch map.empty "https://esm.sh/react" "esm.sh" "/react" (Some v1) in
  let '(answer2, cache2, fetched2) :=
    onfetch cache1 "https://esm.sh/react" "esm.sh" "/react" (Some v2) in
  answer1 = match map.get (map.empty : Cache) "https://esm.sh/react"%string with
            | Some old => Respond old
            | None => Respond v1
            end
  /\ answer2 = Respond v1
  /\ map.get cache2 "https://esm.sh/react"%string = Some v2
  /\ fetched1 = true /\ fetched2 = true
  /\ fst (fst (onfetch cache2 "https://esm.sh/react" "esm.sh" "/react" None))
     = Respond v2.
Proof.
  apply (stale_while_revalidate_serves_previous map.empty
           "https://esm.sh/react" "esm.sh" "/react"
           {| status := 200; responseType := cors; body := "v1" |}
           {| status := 404; responseType := cors; body := "gone" |}).
  - reflexivity.
  - discriminate.
  - discriminate.
Defined.

End ServiceWorkerFacts.
